(** * splinefit: B-spline fitting (splinefit/bspline.py)

    A shallow embedding of the numerical core of [splinefit/bspline.py]:
    span location, the Cox-de Boor basis recurrence, curve evaluation, the
    knot-vector builders, the regularised least-squares fit, the
    parameterisation maps and the clamp of the transfinite inversion.

    The Python code is written once, over an interface [Num] of the scalar
    operations it uses, and read at two scalar types:
    - [float], the binary64 numbers of the kernel, which is what NumPy
      computes with (used to run the code on concrete inputs);
    - [Q], exact rational arithmetic (used for the properties that hold of
      the algorithm before rounding).

    Python exceptions (IndexError, ValueError, AssertionError) are the [None]
    of the option monad. *)

From Stdlib Require Import ZArith QArith Qabs Qround List Bool Lia Lqa Sorted Floats.
Import ListNotations.

Set Implicit Arguments.
Set Warnings "-inexact-float".

(** ** Scalars *)

Class Num (R : Type) : Type := {
  zero : R;
  one : R;
  add : R -> R -> R;
  sub : R -> R -> R;
  mul : R -> R -> R;
  div : R -> R -> R;
  eqb : R -> R -> bool;
  ltb : R -> R -> bool;
  leb : R -> R -> bool;
  (** [np.isclose(a, b)] with its default [rtol=1e-05], [atol=1e-08] *)
  isclose : R -> R -> bool;
  (** conversion of a Python [int] *)
  of_Z : Z -> R
}.

(** [np.sqrt] *)
Class Sqrt (R : Type) : Type := { sqrt : R -> R }.

Module FloatNum.

Definition of_Z (z : Z) : float :=
  if (z <? 0)%Z
  then PrimFloat.opp (PrimFloat.of_uint63 (Uint63.of_Z (- z)))
  else PrimFloat.of_uint63 (Uint63.of_Z z).

Definition isclose (a b : float) : bool :=
  if PrimFloat.is_finite a && PrimFloat.is_finite b
  then PrimFloat.leb (PrimFloat.abs (PrimFloat.sub a b))
         (PrimFloat.add 1e-8%float
            (PrimFloat.mul 1e-5%float (PrimFloat.abs b)))
  else PrimFloat.eqb a b.

End FloatNum.

#[export] Instance Num_float : Num float := {|
  zero := 0%float;
  one := 1%float;
  add := PrimFloat.add;
  sub := PrimFloat.sub;
  mul := PrimFloat.mul;
  div := PrimFloat.div;
  eqb := PrimFloat.eqb;
  ltb := PrimFloat.ltb;
  leb := PrimFloat.leb;
  isclose := FloatNum.isclose;
  of_Z := FloatNum.of_Z
|}.

#[export] Instance Sqrt_float : Sqrt float := {| sqrt := PrimFloat.sqrt |}.

Module QNum.

Definition atol : Q := 1 # 100000000.
Definition rtol : Q := 1 # 100000.

Definition ltb (a b : Q) : bool := negb (Qle_bool b a).

Definition isclose (a b : Q) : bool :=
  Qle_bool (Qabs (a - b)) (atol + rtol * Qabs b).

End QNum.

#[export] Instance Num_Q : Num Q := {|
  zero := 0%Q;
  one := 1%Q;
  add := Qplus;
  sub := Qminus;
  mul := Qmult;
  div := Qdiv;
  eqb := Qeq_bool;
  ltb := QNum.ltb;
  leb := Qle_bool;
  isclose := QNum.isclose;
  of_Z := inject_Z
|}.

(** Rounded arithmetic: every operation returns its exact result rounded
    by [rnd], the rounding of the floating-point format, and the literals
    [1e-8] and [1e-5] are rounded too.  For binary64 away from overflow
    and underflow, [rnd] has a relative error of at most [2^-53]. *)
Definition Num_rounded (rnd : Q -> Q) : Num Q := {|
  zero := 0%Q;
  one := 1%Q;
  add := fun a b => rnd (a + b)%Q;
  sub := fun a b => rnd (a - b)%Q;
  mul := fun a b => rnd (a * b)%Q;
  div := fun a b => rnd (a / b)%Q;
  eqb := Qeq_bool;
  ltb := QNum.ltb;
  leb := Qle_bool;
  isclose := fun a b =>
    Qle_bool (Qabs (rnd (a - b)%Q))
             (rnd (rnd QNum.atol + rnd (rnd QNum.rtol * Qabs b))%Q);
  of_Z := fun z => rnd (inject_Z z)
|}.

(** Numbers with the values that are not finite: [NaN] stands for nan and
    for the infinities alike.  A division by zero yields it, every
    operation on it yields it, and every comparison with it is false. *)
Inductive ext : Type :=
| Fin (q : Q)
| NaN.

Definition ext_op (f : Q -> Q -> Q) (a b : ext) : ext :=
  match a, b with
  | Fin x, Fin y => Fin (f x y)
  | _, _ => NaN
  end.

Definition ext_test (f : Q -> Q -> bool) (a b : ext) : bool :=
  match a, b with
  | Fin x, Fin y => f x y
  | _, _ => false
  end.

(** the arithmetic [B] of the finite numbers, extended to [ext] *)
Definition Num_ext (B : Num Q) : Num ext := {|
  zero := Fin (@zero Q B);
  one := Fin (@one Q B);
  add := ext_op (@add Q B);
  sub := ext_op (@sub Q B);
  mul := ext_op (@mul Q B);
  div := fun a b =>
    match a, b with
    | Fin x, Fin y => if Qeq_bool y 0 then NaN else Fin (@div Q B x y)
    | _, _ => NaN
    end;
  eqb := ext_test (@eqb Q B);
  ltb := ext_test (@ltb Q B);
  leb := ext_test (@leb Q B);
  isclose := ext_test (@isclose Q B);
  of_Z := fun z => Fin (@of_Z Q B z)
|}.

(** ** Python sequences and exceptions *)

Definition bind {A B : Type} (o : option A) (k : A -> option B) : option B :=
  match o with
  | Some a => k a
  | None => None
  end.

Notation "x <- e ;; k" := (bind e (fun x => k))
  (at level 61, e at next level, right associativity).
Notation "' p <- e ;; k" := (bind e (fun p => k))
  (at level 61, p pattern, e at next level, right associativity).

(** [assert c] *)
Definition assert (c : bool) : option unit := if c then Some tt else None.

Definition len {A : Type} (l : list A) : Z := Z.of_nat (length l).

(** [l[k]]: a negative index counts from the end, an index outside
    [-len(l) .. len(l)-1] raises IndexError. *)
Definition py_index {A : Type} (l : list A) (k : Z) : option A :=
  if ((0 <=? k) && (k <? len l))%Z then nth_error l (Z.to_nat k)
  else if ((- len l <=? k) && (k <? 0))%Z then nth_error l (Z.to_nat (k + len l))
  else None.

(** in-place update of one position of a list of known length *)
Fixpoint upd {A : Type} (l : list A) (k : nat) (v : A) : list A :=
  match l, k with
  | [], _ => []
  | _ :: t, O => v :: t
  | h :: t, S k' => h :: upd t k' v
  end.

(** [l[k] = v] *)
Definition py_set {A : Type} (l : list A) (k : Z) (v : A) : option (list A) :=
  if ((0 <=? k) && (k <? len l))%Z then Some (upd l (Z.to_nat k) v)
  else if ((- len l <=? k) && (k <? 0))%Z then Some (upd l (Z.to_nat (k + len l)) v)
  else None.

(** the bound of a slice, as Python normalises it *)
Definition slice_bound (n k : Z) : nat :=
  Z.to_nat (if (k <? 0)%Z then Z.max (k + n) 0 else Z.min k n).

(** [l[lo:hi]] *)
Definition py_slice {A : Type} (l : list A) (lo hi : Z) : list A :=
  let a := slice_bound (len l) lo in
  let b := slice_bound (len l) hi in
  firstn (b - a) (skipn a l).

Section Code.

Context {R : Type} `{Num R}.

(** builtin [sum] *)
Definition py_sum (l : list R) : R := fold_left add l zero.

(** builtin [max] and [min]; ValueError on an empty sequence *)
Definition py_max (l : list R) : option R :=
  match l with
  | [] => None
  | x :: xs => Some (fold_left (fun m v => if ltb m v then v else m) xs x)
  end.

Definition py_min (l : list R) : option R :=
  match l with
  | [] => None
  | x :: xs => Some (fold_left (fun m v => if ltb v m then v else m) xs x)
  end.

(** *** findspan *)

(** [for i in range(p, p + n): if u >= U[i] and u < U[i+1]: return i]
    followed by [return n]; [k] counts the iterations left.  The binary
    search written after that [return] is never reached. *)
Fixpoint findspan_scan (U : list R) (u : R) (n i : Z) (k : nat) : option Z :=
  match k with
  | O => Some n
  | S k' =>
      Ui <- py_index U i ;;
      if leb Ui u then
        Ui1 <- py_index U (i + 1) ;;
        if ltb u Ui1 then Some i
        else findspan_scan U u n (i + 1) k'
      else findspan_scan U u n (i + 1) k'
  end.

Definition findspan (n : Z) (p : nat) (u : R) (U : list R) : option Z :=
  Un1 <- py_index U (n + 1) ;;
  if eqb u Un1 then Some n
  else findspan_scan U u n (Z.of_nat p) (Z.to_nat n).

(** *** basisfuns *)

(** The loop [for r in range(j)] from its iteration [r] on; [k] counts the
    iterations left.  Returns [N] and [saved] as the loop leaves them. *)
Fixpoint basis_inner (left right : list R) (j : nat)
    (k r : nat) (N : list R) (saved : R) : list R * R :=
  match k with
  | O => (N, saved)
  | S k' =>
      let denom := add (nth (r + 1) right zero) (nth (j - r) left zero) in
      if isclose denom zero then (upd N r zero, saved)
      else
        let temp := div (nth r N zero) denom in
        basis_inner left right j k' (S r)
          (upd N r (add saved (mul (nth (r + 1) right zero) temp)))
          (mul (nth (j - r) left zero) temp)
  end.

(** The loop [for j in range(1, p+1)] from its iteration [j] on. *)
Fixpoint basis_outer (U : list R) (i : Z) (u : R)
    (k j : nat) (left right N : list R) : option (list R) :=
  match k with
  | O => Some N
  | S k' =>
      a <- py_index U (i + 1 - Z.of_nat j) ;;
      let left' := upd left j (sub u a) in
      b <- py_index U (i + Z.of_nat j) ;;
      let right' := upd right j (sub b u) in
      let '(N', saved) := basis_inner left' right' j j 0 N zero in
      basis_outer U i u k' (S j) left' right' (upd N' j saved)
  end.

Definition basisfuns (i : Z) (u : R) (p : nat) (U : list R)
  : option (list R) :=
  let N := upd (repeat zero (p + 1)) 0 one in
  let left := repeat zero (p + 1) in
  let right := repeat zero (p + 1) in
  U0 <- py_index U 0 ;;
  if isclose u U0 then Some (one :: repeat zero p)
  else
    Ulast <- py_index U (-1) ;;
    if isclose u Ulast then Some (repeat zero p ++ [one])
    else basis_outer U i u p 1 left right N.

(** *** curvepoint *)

(** [for i in range(p+1): C = C + N[i]*P[span-p+i]] from iteration [i] on *)
Fixpoint curve_sum (N P : list R) (span : Z) (p : nat)
    (k i : nat) (C : R) : option R :=
  match k with
  | O => Some C
  | S k' =>
      Ni <- py_index N (Z.of_nat i) ;;
      Pi <- py_index P (span - Z.of_nat p + Z.of_nat i) ;;
      curve_sum N P span p k' (S i) (add C (mul Ni Pi))
  end.

Definition curvepoint (p : nat) (U P : list R) (u : R) : option R :=
  let n := (len P - Z.of_nat p)%Z in
  span <- findspan n p u U ;;
  N <- basisfuns span u p U ;;
  Ulast <- py_index U (-1) ;;
  if eqb Ulast u then py_index P (-1)
  else curve_sum N P span p (p + 1) 0 zero.

(** ** Arrays *)

(** monadic [for] over a list *)
Fixpoint mapM {A B : Type} (f : A -> option B) (l : list A)
  : option (list B) :=
  match l with
  | [] => Some []
  | a :: t => b <- f a ;; bs <- mapM f t ;; Some (b :: bs)
  end.

Fixpoint foldM {A S : Type} (f : S -> A -> option S) (l : list A) (s : S)
  : option S :=
  match l with
  | [] => Some s
  | a :: t => s' <- f s a ;; foldM f t s'
  end.

(** [range(lo, hi)] *)
Definition range (lo hi : Z) : list Z :=
  map (fun k => (lo + Z.of_nat k)%Z) (seq 0 (Z.to_nat (hi - lo))).

(** an elementwise binary operation of NumPy on two 1-d arrays: equal
    lengths, or one of them of length one (broadcast), else ValueError *)
Definition np_zip (f : R -> R -> R) (a b : list R) : option (list R) :=
  if (length a =? length b)%nat then Some (map (fun xy => f (fst xy) (snd xy)) (combine a b))
  else match a, b with
       | [a0], _ => Some (map (f a0) b)
       | _, [b0] => Some (map (fun v => f v b0) a)
       | _, _ => None
       end.

Definition matrix : Type := list (list R).

Definition zeros (n : nat) : list R := repeat zero n.
Definition zeros2 (r c : nat) : matrix := repeat (zeros c) r.

(** [D[i, j] = v] *)
Definition mset (D : matrix) (i j : Z) (v : R) : option matrix :=
  row <- py_index D i ;;
  row' <- py_set row j v ;;
  py_set D i row'.

(** [np.eye(n)], [np.diag(w)] *)
Definition eye (n : nat) : matrix :=
  map (fun i => upd (zeros n) i one) (seq 0 n).
Definition diag (w : list R) : matrix :=
  map (fun i => upd (zeros (length w)) i (nth i w zero)) (seq 0 (length w)).

(** [A.T] of a matrix with [c] columns *)
Definition transpose (c : nat) (A : matrix) : matrix :=
  map (fun j => map (fun row => nth j row zero) A) (seq 0 c).

Definition dot (a b : list R) : R :=
  py_sum (map (fun xy => mul (fst xy) (snd xy)) (combine a b)).

(** [A.dot(v)] and [A.dot(B)], [B] with [c] columns *)
Definition matvec (A : matrix) (v : list R) : list R :=
  map (fun row => dot row v) A.
Definition matmul (c : nat) (A B : matrix) : matrix :=
  map (fun row => map (fun col => dot row col) (transpose c B)) A.

Definition madd (A B : matrix) : matrix :=
  map (fun rs => map (fun xy => add (fst xy) (snd xy)) (combine (fst rs) (snd rs)))
      (combine A B).
Definition mscale (s : R) (A : matrix) : matrix :=
  map (map (mul s)) A.

(** ** Knot vectors *)

(** [np.linspace(start, stop, num)] *)
Definition linspace (start stop : R) (num : nat) : list R :=
  let div_ := (Z.of_nat num - 1)%Z in
  let y := map (fun k => of_Z (Z.of_nat k)) (seq 0 num) in
  let delta := sub stop start in
  let y1 :=
    if (0 <? div_)%Z then
      let step := div delta (of_Z div_) in
      if eqb step zero
      then map (fun v => mul (div v (of_Z div_)) delta) y
      else map (fun v => mul v step) y
    else map (fun v => mul v delta) y in
  let y2 := map (fun v => add v start) y1 in
  if (1 <? num)%nat then upd y2 (num - 1) stop else y2.

Definition uniformknots (m p : nat) (a b : R) : list R :=
  let t := linspace a b (m + 2) in
  repeat a (p + 1) ++ py_slice t 1 (-1) ++ repeat b (p + 1).

(** [numknots(n, p, interior)] *)
Definition numknots (n p : Z) (interior : Z) : Z :=
  let m := (n + p + 1)%Z in
  if (interior =? 0)%Z then m else (m - 2 * (p + 1))%Z.

Definition customknots (t : list R) (p : nat) (a b : R) : list R :=
  repeat a (p + 1) ++ t ++ repeat b (p + 1).

(** [np.sort] of a 1-d array (NaNs are not ordered by this model) *)
Fixpoint insert_sorted (v : R) (l : list R) : list R :=
  match l with
  | [] => [v]
  | h :: t => if leb v h then v :: h :: t else h :: insert_sorted v t
  end.
Definition np_sort (l : list R) : list R := fold_right insert_sorted [] l.

Section Kmeans.

(** [scipy.cluster.vq.kmeans(s, m)[0]], the code book of cluster
    centres, is computed by SciPy. *)
Variable kmeans : list R -> nat -> list R.

Definition kmeansknots (s : list R) (m p : nat) (a b : R) : list R :=
  let t := linspace a b m in
  let t := np_sort (kmeans s m) in
  repeat a (p + 1) ++ t ++ repeat b (p + 1).

End Kmeans.

(** [sum(s[i:i+p-1])*1.0/p]: the sum of an empty window is the Python
    [int] 0, and dividing the Python float [0*1.0] by [p = 0] raises
    ZeroDivisionError; a NumPy sum divided by zero does not raise. *)
Definition window_average (s : list R) (p : nat) (i : Z) : option R :=
  let win := py_slice s i (i + Z.of_nat p - 1) in
  match win, p with
  | [], O => None
  | _, _ => Some (div (mul (py_sum win) one) (of_Z (Z.of_nat p)))
  end.

Definition averageknots (s : list R) (m p : nat) (a b : R)
  : option (list R) :=
  t <- mapM (window_average s p) (range 0 (Z.of_nat m + 2)) ;;
  Some (repeat a (p + 1) ++ t ++ repeat b (p + 1)).

(** ** Least squares *)

Definition derivative_matrix (n : nat) : option matrix :=
  if (n =? 2)%nat then
    let D := zeros2 2 2 in
    D <- mset D 0 0 (of_Z (-1)) ;;
    D <- mset D 0 1 one ;;
    D <- mset D 1 0 (of_Z (-1)) ;;
    D <- mset D 1 1 one ;;
    Some D
  else
    let D := zeros2 n n in
    D <- mset D 0 0 one ;;
    D <- mset D 0 1 (of_Z (-2)) ;;
    D <- mset D 0 2 one ;;
    D <- foldM (fun D i =>
                  D <- mset D i (i + 1) one ;;
                  D <- mset D i (i - 0) (of_Z (-2)) ;;
                  mset D i (i - 1) one)
               (range 1 (Z.of_nat n - 1)) D ;;
    D <- mset D (-1) 0 one ;;
    D <- mset D (-1) 1 (of_Z (-2)) ;;
    mset D (-1) 2 one.

(** the argument [w] of [lsq]: a scalar (the default is 0) or an array *)
Inductive weights : Type :=
| WScalar (c : R)
| WArray (l : list R).

Definition truthy (v : R) : bool := negb (eqb v zero).

(** [np.all(w)] *)
Definition np_all (w : weights) : bool :=
  match w with
  | WScalar c => truthy c
  | WArray l => forallb truthy l
  end.

Section Fit.

Context `{Sqrt R}.

(** [np.linalg.svd(M, full_matrices=False)] is computed by LAPACK: for a
    square [M] of size [n] it returns [uh] (n by n), [sh] (n) and [vh]
    (n by n), which is the shape the code below reads them at; [None]
    is LinAlgError. *)
Variable svd : matrix -> option (matrix * list R * matrix).

(** [np.linalg.norm] of a 1-d array *)
Definition norm (v : list R) : R := sqrt (dot v v).

(** [M = A.T.dot(A) + s*np.eye(A.shape[1]) + D], [A] with [n] columns *)
Definition normal_matrix (n : nat) (A : matrix) (s : R) (D : matrix)
  : matrix :=
  madd (madd (matmul n (transpose n A) A) (mscale s (eye n))) D.

(** [svd_inv(A, b, s, tol, D)], [A] with [n] columns *)
Definition svd_inv (n : nat) (A : matrix) (b : list R) (s tol : R)
    (D : matrix) : option (list R) :=
  let At := transpose n A in
  let M := normal_matrix n A s D in
  '(uh, sh, vh) <- svd M ;;
  let shi := map (fun shk => if ltb tol shk then div one shk else zero) sh in
  let v := matvec At b in
  let Mi := matmul n (map (fun row => map (fun xy => mul (fst xy) (snd xy))
                                           (combine row shi))
                          (transpose n vh))
                   (transpose n uh) in
  Some (matvec Mi (matvec At b)).

(** the row of [A] for the sample [xi]:
    [for j, Nj in enumerate(N): A[i, span + j - p] = Nj] *)
Definition lsq_row (U : list R) (p : nat) (n : Z) (cols : nat) (xi : R)
  : option (list R) :=
  span <- findspan n p xi U ;;
  N <- basisfuns span xi p U ;;
  foldM (fun row jN => py_set row (span + Z.of_nat (fst jN) - Z.of_nat p) (snd jN))
        (combine (seq 0 (length N)) N) (zeros cols).

(** the system [A], [b] and the regularisation [R] that [lsq] builds *)
Definition lsq_system (x y U : list R) (p : nat) (a : R) (w : weights)
  : option (matrix * list R * matrix) :=
  _ <- assert (length x =? length y)%nat ;;
  let m := (len U - 1)%Z in
  let n := (m - Z.of_nat p - 1)%Z in
  _ <- assert (0 <=? m - Z.of_nat p)%Z ;;
  let cols := Z.to_nat (m - Z.of_nat p) in
  w <- (if negb (np_all w) then Some (zeros cols)
        else match w with
             | WArray l => Some l
             | WScalar _ => None
             end) ;;
  A <- mapM (lsq_row U p n cols) x ;;
  b <- mapM (fun i => py_index y (Z.of_nat i)) (seq 0 (length x)) ;;
  D <- derivative_matrix cols ;;
  _ <- assert (length w =? cols)%nat ;;
  let R_ := mscale a (matmul cols (matmul cols (transpose cols D) (diag w)) D) in
  Some (A, b, R_).

(** [np.linalg.norm(A.dot(p0) - b)] *)
Definition residual (A : matrix) (p0 b : list R) : R :=
  norm (map (fun xy => sub (fst xy) (snd xy)) (combine (matvec A p0) b)).

(** [p0[0] = y[0]; p0[-1] = y[-1]] *)
Definition interpolate_ends (p0 y : list R) : option (list R) :=
  y0 <- py_index y 0 ;;
  p0 <- py_set p0 0 y0 ;;
  yl <- py_index y (-1) ;;
  py_set p0 (-1) yl.

Definition lsq (x y U : list R) (p : nat) (s tol a : R) (w : weights)
  : option (list R * R) :=
  '(A, b, R_) <- lsq_system x y U p a w ;;
  let cols := Z.to_nat (len U - 1 - Z.of_nat p) in
  p0 <- svd_inv cols A b s tol R_ ;;
  let res := residual A p0 b in
  p0 <- interpolate_ends p0 y ;;
  Some (p0, res).

(** ** Parameterisation *)

(** [d[i+1] = d[i] + dists[i]] for [i] in [range(len(dists))] *)
Fixpoint cumulative (d0 : R) (dists : list R) : list R :=
  match dists with
  | [] => [d0]
  | h :: t => d0 :: cumulative (add d0 h) t
  end.

Definition diffs (x : list R) : option (list R) :=
  np_zip sub (py_slice x 1 (len x)) (py_slice x 0 (-1)).

Definition square (l : list R) : list R := map (fun v => mul v v) l.

(** the array [d] of cumulated chord lengths, before it is rescaled *)
Definition chord_lengths (x y : list R) (z : option (list R))
  : option (list R) :=
  dx <- diffs x ;;
  dy <- diffs y ;;
  dz <- match z with
        | None => Some [zero]
        | Some z => diffs z
        end ;;
  s <- np_zip add (square dx) (square dy) ;;
  s <- np_zip add s (square dz) ;;
  let dists := map sqrt s in
  Some (cumulative zero dists).

(** the denominator [max(d)-min(d)] of the last line of [chords] *)
Definition chords_denom (d : list R) : option R :=
  mx <- py_max d ;;
  mn <- py_min d ;;
  Some (sub mx mn).

Definition chords (x y : list R) (z : option (list R)) (a b : R)
  : option (list R) :=
  d <- chord_lengths x y z ;;
  mn <- py_min d ;;
  denom <- chords_denom d ;;
  Some (map (fun v => add (div (mul (sub b a) (sub v mn)) denom) a) d).

End Fit.

Definition xmap (x : list R) (a b : R) : option (list R) :=
  mx <- py_max x ;;
  mn <- py_min x ;;
  let denom := sub mx mn in
  let denom := if isclose denom zero then one else denom in
  let d := map (fun v => div (sub v mn) denom) x in
  Some (map (fun v => add (mul (sub b a) v) a) d).

(** ** Transfinite inversion *)

Record Curve : Type := mkCurve {
  crv_p : nat;
  crv_U : list R;
  crv_Px : list R;
  crv_Py : list R
}.

(** the result object of [scipy.optimize.root]: its iterate [x] and the
    flag [success] *)
Record RootResult : Type := mkRoot {
  root_x : R * R;
  root_success : bool
}.

(** the local function [swap] of [uvinv]; it reverses the control points of
    the curve object it is given, which is read here as a new value (the
    four boundary curves are taken to be distinct objects) *)
Definition swap (a b : R) (curve : Curve) : R * R * Curve :=
  if ltb a b
  then (b, a, mkCurve (crv_p curve) (crv_U curve)
                      (rev (crv_Px curve)) (rev (crv_Py curve)))
  else (a, b, curve).

(** the local function [clamp] of [uvinv] *)
Definition clamp (x : R) : R :=
  if ltb x zero then zero
  else if ltb one x then one
  else x.

(** The part of [uvinv] before the call of the solver: the end points of
    the four boundary curves, their re-orientation by [swap], and the
    residual function [f] handed to the solver. *)
Definition uvinv_residual (xp yp : R) (l r b t : Curve)
  : option (R * R -> option (R * R)) :=
  xb0 <- curvepoint (crv_p b) (crv_U b) (crv_Px b) zero ;;
  xb1 <- curvepoint (crv_p b) (crv_U b) (crv_Px b) one ;;
  xt0 <- curvepoint (crv_p t) (crv_U t) (crv_Px t) zero ;;
  xt1 <- curvepoint (crv_p t) (crv_U t) (crv_Px t) one ;;
  yl0 <- curvepoint (crv_p l) (crv_U l) (crv_Py l) zero ;;
  yl1 <- curvepoint (crv_p l) (crv_U l) (crv_Py l) one ;;
  yr0 <- curvepoint (crv_p r) (crv_U r) (crv_Py r) zero ;;
  yr1 <- curvepoint (crv_p r) (crv_U r) (crv_Py r) one ;;
  let '(xt1, xt0, t) := swap xt1 xt0 t in
  let '(xb1, xb0, b) := swap xb1 xb0 b in
  let '(yl1, yl0, l) := swap yl1 yl0 l in
  let '(yr1, yr0, r) := swap yr1 yr0 r in
  let x := fun u v =>
    cl <- curvepoint (crv_p l) (crv_U l) (crv_Px l) v ;;
    cr <- curvepoint (crv_p r) (crv_U r) (crv_Px r) v ;;
    cb <- curvepoint (crv_p b) (crv_U b) (crv_Px b) u ;;
    ct <- curvepoint (crv_p t) (crv_U t) (crv_Px t) u ;;
    Some (sub (sub (sub (sub (sub
           (add (add (add (mul (sub one u) cl) (mul u cr))
                     (mul (sub one v) cb)) (mul v ct))
           (mul (mul (sub one u) (sub one v)) xb0))
           (mul (mul (sub one u) v) xt0))
           (mul (mul u (sub one v)) xb1))
           (mul (mul u v) xt1))
           xp) in
  let y := fun u v =>
    cl <- curvepoint (crv_p l) (crv_U l) (crv_Py l) v ;;
    cr <- curvepoint (crv_p r) (crv_U r) (crv_Py r) v ;;
    cb <- curvepoint (crv_p b) (crv_U b) (crv_Py b) u ;;
    ct <- curvepoint (crv_p t) (crv_U t) (crv_Py t) u ;;
    Some (sub (sub (sub (sub (sub
           (add (add (add (mul (sub one u) cl) (mul u cr))
                     (mul (sub one v) cb)) (mul v ct))
           (mul (mul (sub one u) (sub one v)) yl0))
           (mul (mul (sub one u) v) yl1))
           (mul (mul u (sub one v)) yr0))
           (mul (mul u v) yr1))
           yp) in
  Some (fun uv : R * R =>
          fx <- x (fst uv) (snd uv) ;;
          fy <- y (fst uv) (snd uv) ;;
          Some (fx, fy)).

Section Inversion.

(** [scipy.optimize.root(f, x0, method='broyden1', tol=1e-2,
    options={'maxiter': 30})] is computed by SciPy; [None] is an exception
    raised by [f] or by the solver.  The flag [root_success] of its result
    says whether the iteration converged. *)
Variable root : (R * R -> option (R * R)) -> R * R -> option RootResult.

Definition uvinv (xp yp u0 v0 : R) (l r b t : Curve) : option (R * R) :=
  f <- uvinv_residual xp yp l r b t ;;
  rt <- root f (u0, v0) ;;
  let x := root_x rt in
  Some (clamp (fst x), clamp (snd x)).

End Inversion.

End Code.

Arguments matrix R : clear implicits.
Arguments weights R : clear implicits.
Arguments Curve R : clear implicits.
Arguments RootResult R : clear implicits.

(** * Further functions of bspline.py *)

(** [np.floor] and the conversion [int] of a scalar *)
Class Floor (R : Type) : Type := {
  np_floor : R -> R;
  to_int : R -> Z
}.

#[export] Instance Floor_Q : Floor Q := {|
  np_floor := fun x => inject_Z (Qfloor x);
  to_int := fun x => Z.quot (Qnum x) (Z.pos (Qden x))
|}.

(** the decimal literals of the source that are not integers *)
Class Literals (R : Type) : Type := {
  (** [1e-6], the default [tol] of [lsq] *)
  lit_1e_6 : R
}.

#[export] Instance Literals_Q : Literals Q := {| lit_1e_6 := (1 # 1000000)%Q |}.
#[export] Instance Literals_float : Literals float := {| lit_1e_6 := 1e-6%float |}.

Section MoreCode.

Context {R : Type} `{Num R}.

(** [x**k] for a literal exponent [k], as the product of [k] factors *)
Fixpoint power (x : R) (k : nat) : R :=
  match k with
  | O => one
  | S k' => mul x (power x k')
  end.

(** [u.dot(B)] for a 1-d [u] and a matrix [B] with [c] columns *)
Definition vecmat (c : nat) (u : list R) (B : matrix R) : list R :=
  map (fun col => dot u col) (transpose c B).

(** the matrix [B] of [cubic], the integer table divided by 6 *)
Definition cubic_B : matrix R :=
  map (map (fun z => div (of_Z z) (of_Z 6)))
      [[-1; 3; -3; 1]; [3; -6; 3; 0]; [-3; 0; 3; 0]; [1; 4; 1; 0]]%Z.

Definition cubic (t : R) : list R :=
  let u := [power t 3; power t 2; t; one] in
  vecmat 4 u cubic_B.

(** [np.min] and [np.max] of a 1-d array: a NaN (a value not equal to
    itself) is propagated; ValueError on an empty array *)
Definition np_min (l : list R) : option R :=
  match l with
  | [] => None
  | x :: xs =>
      Some (fold_left (fun m v => if negb (eqb m m) then m
                                  else if negb (eqb v v) then v
                                  else if ltb v m then v else m) xs x)
  end.

Definition np_max (l : list R) : option R :=
  match l with
  | [] => None
  | x :: xs =>
      Some (fold_left (fun m v => if negb (eqb m m) then m
                                  else if negb (eqb v v) then v
                                  else if ltb m v then v else m) xs x)
  end.

(** [normalize(pts, n)]: the normalised points and the constants [nc] *)
Definition normalize (pts : list R) (n : R) : option (list R * (R * R)) :=
  pmin <- np_min pts ;;
  pmax <- np_max pts ;;
  let out := map (fun v => div (mul n (sub v pmin)) (sub pmax pmin)) pts in
  Some (out, (pmin, pmax)).

Definition denormalize (npts : list R) (nc : R * R) (n : R) : list R :=
  map (fun v => add (div (mul v (sub (snd nc) (fst nc))) n) (fst nc)) npts.

Definition min_degree (num_pts p : Z) : Z :=
  Z.min p (Z.max (num_pts - p) 1).

Section WithFloor.

Context `{Floor R}.

Definition lower (pts : R) : Z := to_int (sub (np_floor pts) one).
Definition upper (pts : R) : Z := to_int (add (np_floor pts) (of_Z 2)).

Definition eval_basis (xc n : R) : list R :=
  let idx := np_floor xc in
  let t := div (sub xc idx) n in
  cubic t.

(** [set_ctrlpt(xc, yc, n)]: the values [w*yc/(w.dot(w))] and the index
    pair [(lower(xc) + 2, upper(xc) + 3)] *)
Definition set_ctrlpt (xc yc n : R) : list R * (Z * Z) :=
  let w := eval_basis xc n in
  (map (fun wk => div (mul wk yc) (dot w w)) w,
   ((lower xc + 2)%Z, (upper xc + 3)%Z)).



End WithFloor.

(** one pass of the inner loop of [eval]:
    [y[k] = cubic(ti).dot(ctrlpts); x[k] = i + ti - 1; k += 1] *)
Definition eval_step (ctrlpts : list R) (i : Z)
    (st : list R * list R * Z) (ti : R) : option (list R * list R * Z) :=
  let '(x, y, k) := st in
  let qx := dot (cubic ti) ctrlpts in
  y <- py_set y k qx ;;
  x <- py_set x k (sub (add (of_Z i) ti) one) ;;
  Some (x, y, (k + 1)%Z).

(** [eval(P, npts)]: the uniform cubic spline on the control points [P],
    [npts] samples on each of its [len(P)-3] segments; [np.zeros] raises
    ValueError for a negative size *)
Definition eval (P : list R) (npts : nat) : option (list R * list R) :=
  let t := linspace zero one npts in
  let size := ((len P - 3) * Z.of_nat npts)%Z in
  _ <- assert (0 <=? size)%Z ;;
  let x := zeros (Z.to_nat size) in
  let y := zeros (Z.to_nat size) in
  '(x, y, k) <-
    foldM (fun st i =>
             let ctrlpts := py_slice P (i - 1) (i + 3) in
             foldM (eval_step ctrlpts i) t st)
          (range 1 (len P - 2)) (x, y, 0%Z) ;;
  Some (x, y).

Section MoreFit.

Context `{Sqrt R} `{Literals R}.

Variable svd : matrix R -> option (matrix R * list R * matrix R).
Variable kmeans : list R -> nat -> list R.

(** the array [np.sqrt(dists)] of [centripetal], the square roots of the
    distances between consecutive points *)
Definition centripetal_steps (x y : list R) : option (list R) :=
  dx <- diffs x ;;
  dy <- diffs y ;;
  s <- np_zip add (square dx) (square dy) ;;
  let dists := map sqrt s in
  Some (map sqrt dists).

(** [centripetal(x, y, a, b)]: [dl] is the sum of the steps, and
    [d[i+1] = d[i] + np.sqrt(dists[i])/dl] for [i] in [range(len(dists))] *)
Definition centripetal (x y : list R) (a b : R) : option (list R) :=
  steps <- centripetal_steps x y ;;
  let dl := py_sum steps in
  let d := zeros (length x) in
  d <- foldM (fun d i =>
                di <- py_index d (Z.of_nat i) ;;
                py_set d (Z.of_nat i + 1) (add di (div (nth i steps zero) dl)))
             (seq 0 (length steps)) d ;;
  Some (map (fun v => add (mul (sub b a) v) a) d).

(** [lsq2(s, x, y, U, p, smooth)]: [lsq] on each coordinate, with the
    defaults [tol=1e-6], [a=0], [w=0] *)
Definition lsq2 (s x y U : list R) (p : nat) (smooth : R)
  : option (list R * list R * (R * R)) :=
  '(Px, rx) <- lsq svd s x U p smooth lit_1e_6 zero (WScalar zero) ;;
  '(Py, ry) <- lsq svd s y U p smooth lit_1e_6 zero (WScalar zero) ;;
  Some (Px, Py, (rx, ry)).

(** the argument [knots] of [lsq2l2]: ['uniform'], ['kmeans'], or another
    string *)
Inductive knot_choice : Type :=
| KnotsUniform
| KnotsKmeans
| KnotsOther.

(** [lsq2l2(x, y, m, p, knots, smooth)]; for a [knots] that is neither
    string the variable [U] is unbound when it is read *)
Definition lsq2l2 (x y : list R) (m p : nat) (knots : knot_choice)
    (smooth : R) : option (list R * list R * list R * (R * R)) :=
  s <- chords x y None zero one ;;
  U <- match knots with
       | KnotsUniform => Some (uniformknots m p zero one)
       | KnotsKmeans => Some (kmeansknots kmeans s m p zero one)
       | KnotsOther => None
       end ;;
  '(Px, Py, res) <- lsq2 s x y U p smooth ;;
  Some (Px, Py, U, res).

(** the [while] loop of [smoothing], entered with the number of knots
    [m], the residual [res] and the variables [Px, Py, U] in [last], which
    is [None] as long as they are unbound.  [m] grows by 2 up to [mmax], so
    the loop runs fewer than [mmax] times, which [fuel] counts.  The
    printing under [disp] is left out. *)
Fixpoint smoothing_loop (fuel : nat) (x y : list R) (sm : R) (mmax : Z)
    (p m : nat) (res : R) (last : option (list R * list R * list R))
  : option (list R * list R * list R) :=
  if ltb sm res && (Z.of_nat m <? mmax)%Z then
    match fuel with
    | O => None
    | S fuel' =>
        '(Px, Py, U, r) <- lsq2l2 x y m p KnotsUniform zero ;;
        smoothing_loop fuel' x y sm mmax p (2 + m)
                       (norm [fst r; snd r]) (Some (Px, Py, U))
    end
  else last.

(** [smoothing(x, y, sm, mmax, disp, p)]: [m = 2], [res = sm + 1], and
    [return Px, Py, U] after the loop *)
Definition smoothing (x y : list R) (sm : R) (mmax : Z) (p : nat)
  : option (list R * list R * list R) :=
  smoothing_loop (Z.to_nat mmax) x y sm mmax p 2 (add sm one) None.

End MoreFit.

End MoreCode.

(** * Vocabulary of the properties *)

Section Vocabulary.

Context {R : Type} `{Num R}.

(** [D[i, j]] for indices inside the matrix *)
Definition entry (D : matrix R) (i j : nat) : R := nth j (nth i D []) zero.

(** [D] is an [n] by [n] array *)
Definition square_shape (n : nat) (D : matrix R) : Prop :=
  length D = n /\ forall i, (i < n)%nat -> length (nth i D []) = n.

(** a row of zeros with [1, -2, 1] written from column [c] on *)
Definition stencil_row (n c : nat) : list R :=
  upd (upd (upd (zeros n) c one) (c + 1) (of_Z (-2))) (c + 2) one.

(** one iteration of the loop over the interior rows *)
Definition interior_step (D : matrix R) (i : Z) : option (matrix R) :=
  D <- mset D i (i + 1) one ;;
  D <- mset D i (i - 0) (of_Z (-2)) ;;
  mset D i (i - 1) one.

Definition write3 (row : list R) (i : nat) : list R :=
  upd (upd (upd row (i + 1) one) i (of_Z (-2))) (i - 1) one.

End Vocabulary.

(** The singular value decomposition of a diagonal matrix whose diagonal
    is positive and decreasing: both factors are the identity and the
    singular values are the diagonal. *)
Definition svd_diag (M : matrix float)
  : option (matrix float * list float * matrix float) :=
  Some (eye (length M),
        map (fun i => nth i (nth i M []) 0%float) (seq 0 (length M)),
        eye (length M)).

(** a knot vector is non-decreasing *)
Definition nondecreasing (U : list Q) : Prop :=
  forall i j : nat, (i <= j)%nat -> (j < length U)%nat ->
    (nth i U 0 <= nth j U 0)%Q.

(** the first [p+1] entries of [U] are [a], the last [p+1] are [b] *)
Definition clamped_ends {A : Type} (p : nat) (a b : A) (U : list A) : Prop :=
  firstn (p + 1) U = repeat a (p + 1)
  /\ skipn (length U - (p + 1)) U = repeat b (p + 1).

(** the invariant of a clamped knot vector on [[a, b]] *)
Definition clamped (p : nat) (a b : Q) (U : list Q) : Prop :=
  clamped_ends p a b U /\ nondecreasing U.

(** the width [U[i+1] - U[i]] of the span [i] of [U] *)
Definition span_width (U : list Q) (i : Z) : Q :=
  (nth (Z.to_nat (i + 1)) U 0 - nth (Z.to_nat i) U 0)%Q.

(** [N[0] + ... + N[j-1]] *)
Fixpoint sum_upto (j : nat) (N : list Q) : Q :=
  match j with
  | O => 0
  | S j' => sum_upto j' N + nth j' N 0
  end.

(** the straight edge from [(x0, y0)] to [(x1, y1)], a curve of degree 1
    on the knots [0, 0, 1, 1] *)
Definition edge (x0 y0 x1 y1 : Q) : Curve Q :=
  mkCurve 1 [0; 0; 1; 1]%Q [x0; x1] [y0; y1].

(** the knot [U[t]] for an index [0 <= t < len(U)] *)
Definition knot_at (U : list Q) (t : Z) : Q := nth (Z.to_nat t) U 0.

(** [u] lies in the span [t] of [U]: [U[t] <= u < U[t+1]] *)
Definition in_span (U : list Q) (u : Q) (t : Z) : Prop :=
  (knot_at U t <= u /\ u < knot_at U (t + 1))%Q.

(** a decision procedure for [nondecreasing] *)
Fixpoint sortedb (l : list Q) : bool :=
  match l with
  | [] => true
  | x :: t =>
      match t with
      | [] => true
      | y :: _ => Qle_bool x y && sortedb t
      end
  end.

(** a square root on the rationals, rounded down to a multiple of the
    inverse of the denominator; exact on the squares of rationals *)
Definition Qsqrt (q : Q) : Q := Z.sqrt (Qnum q * Zpos (Qden q)) # Qden q.

Definition Sqrt_Q : Sqrt Q := {| sqrt := Qsqrt |}.

(** a rounding that errs upward by the unit roundoff [2^-53] of binary64
    on every result *)
Definition round_up (x : Q) : Q := (x * (1 + (1 # 9007199254740992)))%Q.

(** * Properties *)

(** ** Python sequences *)

Section Sequences.

Context {A : Type}.

Lemma length_upd (l : list A) (k : nat) (v : A) :
  length (upd l k v) = length l.
Proof.
  revert k; induction l as [|h t IH]; intros [|k]; simpl; auto.
Qed.

Lemma nth_upd_same (l : list A) (k : nat) (v d : A) :
  (k < length l)%nat -> nth k (upd l k v) d = v.
Proof.
  revert k; induction l as [|h t IH]; intros [|k] Hk; simpl in *; try lia; auto.
  apply IH; lia.
Qed.

Lemma nth_upd_other (l : list A) (k k' : nat) (v d : A) :
  k <> k' -> nth k' (upd l k v) d = nth k' l d.
Proof.
  revert k k'; induction l as [|h t IH]; intros [|k] [|k'] Hk; simpl; auto;
    congruence.
Qed.

Lemma py_index_nonneg (l : list A) (k : Z) (d : A) :
  (0 <= k < len l)%Z -> py_index l k = Some (nth (Z.to_nat k) l d).
Proof.
  intros Hk. unfold py_index.
  replace ((0 <=? k) && (k <? len l))%Z with true
    by (symmetry; apply andb_true_iff; split; [apply Z.leb_le | apply Z.ltb_lt]; lia).
  apply nth_error_nth'. unfold len in Hk. lia.
Qed.

Lemma py_index_some_nonneg (l : list A) (k : Z) (a d : A) :
  (0 <= k)%Z -> py_index l k = Some a ->
  (k < len l)%Z /\ a = nth (Z.to_nat k) l d.
Proof.
  intros Hk. unfold py_index.
  destruct ((0 <=? k) && (k <? len l))%Z eqn:E.
  - apply andb_true_iff in E. destruct E as [_ E]. apply Z.ltb_lt in E.
    intros Hn. split; [assumption|].
    erewrite nth_error_nth' in Hn by (unfold len in E; lia).
    injection Hn as <-. reflexivity.
  - replace (k <? 0)%Z with false by (symmetry; apply Z.ltb_ge; lia).
    rewrite andb_false_r. discriminate.
Qed.

Lemma py_index_last (l : list A) (d : A) :
  l <> [] -> py_index l (-1) = Some (nth (length l - 1) l d).
Proof.
  intros Hl. unfold py_index.
  assert (0 < length l)%nat by (destruct l; simpl; [congruence | lia]).
  replace ((0 <=? -1) && (-1 <? len l))%Z with false by reflexivity.
  replace ((- len l <=? -1) && (-1 <? 0))%Z with true
    by (symmetry; apply andb_true_iff; split; [apply Z.leb_le; unfold len; lia | reflexivity]).
  replace (Z.to_nat (-1 + len l)) with (length l - 1)%nat by (unfold len; lia).
  apply nth_error_nth'. lia.
Qed.

Lemma py_set_some (l l' : list A) (k : Z) (v : A) :
  py_set l k v = Some l' ->
  exists k' : nat, (k' < length l)%nat /\ l' = upd l k' v /\
    ((0 <= k)%Z -> k' = Z.to_nat k) /\
    ((k < 0)%Z -> k' = Z.to_nat (k + len l)).
Proof.
  unfold py_set.
  destruct ((0 <=? k) && (k <? len l))%Z eqn:E.
  - apply andb_true_iff in E. destruct E as [E1 E2].
    apply Z.leb_le in E1. apply Z.ltb_lt in E2. unfold len in E2.
    intros [= <-]. exists (Z.to_nat k). repeat split; try lia.
  - destruct ((- len l <=? k) && (k <? 0))%Z eqn:E'; [|discriminate].
    apply andb_true_iff in E'. destruct E' as [E1 E2].
    apply Z.leb_le in E1. apply Z.ltb_lt in E2. unfold len in *.
    intros [= <-]. exists (Z.to_nat (k + Z.of_nat (length l))).
    repeat split; try lia.
Qed.

Lemma py_set_nonneg (l : list A) (k : Z) (v : A) :
  (0 <= k < len l)%Z -> py_set l k v = Some (upd l (Z.to_nat k) v).
Proof.
  intros Hk. unfold py_set.
  replace ((0 <=? k) && (k <? len l))%Z with true
    by (symmetry; apply andb_true_iff; split; [apply Z.leb_le | apply Z.ltb_lt]; lia).
  reflexivity.
Qed.

End Sequences.

Lemma bind_some {A B : Type} (o : option A) (k : A -> option B) (b : B) :
  bind o k = Some b -> exists a, o = Some a /\ k a = Some b.
Proof.
  destruct o as [a|]; simpl; [|discriminate]. intros Hk. exists a. auto.
Qed.

(** Splits a hypothesis [x <- e ;; k = Some v] into [e = Some x] and
    [k x = Some v]. *)
Ltac inv_bind H :=
  let a := fresh "a" in
  let Ha := fresh "E" in
  apply bind_some in H; destruct H as [a [Ha H]].


(** ** The regularisation matrix *)

Section DerivativeMatrix.

Context {R : Type} `{Num R}.

Lemma length_zeros (n : nat) : length (zeros n) = n.
Proof. apply repeat_length. Qed.

Lemma nth_zeros (n k : nat) : nth k (zeros n) zero = zero.
Proof.
  unfold zeros. revert k. induction n as [|n IH]; intros [|k]; simpl; auto.
Qed.

Lemma square_zeros2 (n : nat) : square_shape n (zeros2 n n).
Proof.
  split; [apply repeat_length|].
  intros i Hi. unfold zeros2.
  rewrite (nth_indep _ [] (zeros n)) by (rewrite repeat_length; lia).
  rewrite nth_repeat. apply length_zeros.
Qed.

Lemma nth_zeros2 (n i : nat) : (i < n)%nat -> nth i (zeros2 n n) [] = zeros n.
Proof.
  intros Hi. unfold zeros2.
  rewrite (nth_indep _ [] (zeros n)) by (rewrite repeat_length; lia).
  apply nth_repeat.
Qed.

Lemma mset_inside (n : nat) (D : matrix R) (i j : Z) (v : R) :
  square_shape n D -> (0 <= i < Z.of_nat n)%Z -> (0 <= j < Z.of_nat n)%Z ->
  mset D i j v
  = Some (upd D (Z.to_nat i) (upd (nth (Z.to_nat i) D []) (Z.to_nat j) v)).
Proof.
  intros [HD Hrow] Hi Hj. unfold mset.
  rewrite (py_index_nonneg D [] (k:=i)) by (unfold len; lia). simpl.
  rewrite py_set_nonneg by (unfold len; rewrite Hrow; lia). simpl.
  apply py_set_nonneg. unfold len. lia.
Qed.

Lemma mset_last_row (n : nat) (D : matrix R) (j : Z) (v : R) :
  square_shape n D -> (0 < n)%nat -> (0 <= j < Z.of_nat n)%Z ->
  mset D (-1) j v
  = Some (upd D (n - 1) (upd (nth (n - 1) D []) (Z.to_nat j) v)).
Proof.
  intros [HD Hrow] Hn Hj. unfold mset.
  assert (HD' : D <> []) by (destruct D; simpl in *; [lia | congruence]).
  rewrite (py_index_last [] HD'). rewrite HD. simpl.
  rewrite py_set_nonneg by (unfold len; rewrite Hrow; lia). simpl.
  unfold py_set.
  replace ((0 <=? -1) && (-1 <? len D))%Z with false by reflexivity.
  replace ((- len D <=? -1) && (-1 <? 0))%Z with true
    by (symmetry; apply andb_true_iff; split; [apply Z.leb_le; unfold len; lia | reflexivity]).
  replace (Z.to_nat (-1 + len D)) with (n - 1)%nat by (unfold len; lia).
  reflexivity.
Qed.

Lemma square_upd (n : nat) (D : matrix R) (i : nat) (row : list R) :
  square_shape n D -> length row = n -> square_shape n (upd D i row).
Proof.
  intros [HD Hrow] Hr. split; [rewrite length_upd; assumption|].
  intros k Hk. destruct (Nat.eq_dec i k) as [->|Hne].
  - rewrite nth_upd_same by lia. assumption.
  - rewrite nth_upd_other by assumption. auto.
Qed.

Lemma interior_step_row (n : nat) (D : matrix R) (i : nat) :
  square_shape n D -> (1 <= i)%nat -> (i + 1 < n)%nat ->
  interior_step D (Z.of_nat i)
  = Some (upd D i (write3 (nth i D []) i)).
Proof.
  intros HD Hi Hn. unfold interior_step.
  assert (Hlen : length (nth i D []) = n) by (apply HD; lia).
  set (r1 := upd (nth i D []) (i + 1) one).
  set (r2 := upd r1 i (of_Z (-2))).
  set (r3 := upd r2 (i - 1) one).
  assert (HD1 : square_shape n (upd D i r1))
    by (apply square_upd; [assumption | unfold r1; rewrite length_upd; lia]).
  assert (HD2 : square_shape n (upd (upd D i r1) i r2))
    by (apply square_upd; [assumption | unfold r2, r1; rewrite !length_upd; lia]).
  assert (Hi' : (i < length D)%nat) by (destruct HD; lia).
  rewrite (mset_inside (n:=n)) by (auto; lia).
  rewrite Nat2Z.id.
  replace (Z.to_nat (Z.of_nat i + 1)) with (i + 1)%nat by lia.
  fold r1. cbn [bind].
  rewrite (mset_inside (n:=n)) by (auto; lia).
  rewrite Nat2Z.id.
  replace (Z.to_nat (Z.of_nat i - 0)) with i by lia.
  rewrite nth_upd_same by assumption.
  fold r2. cbn [bind].
  rewrite (mset_inside (n:=n)) by (auto; lia).
  rewrite Nat2Z.id.
  replace (Z.to_nat (Z.of_nat i - 1)) with (i - 1)%nat by lia.
  rewrite nth_upd_same by (rewrite length_upd; assumption).
  fold r3. f_equal.
  change (write3 (nth i D []) i) with r3.
  clear. generalize r1 r2 r3. clear. revert i.
  induction D as [|r D IH]; intros [|i] r1 r2 r3; simpl; auto.
  f_equal. apply IH.
Qed.

Lemma interior_loop (n : nat) (k : nat) :
  forall (lo : nat) (D : matrix R),
    square_shape n D -> (1 <= lo)%nat -> (lo + k + 1 <= n)%nat ->
    exists D',
      foldM interior_step
            (map (fun t => (Z.of_nat lo + Z.of_nat t)%Z) (seq 0 k)) D = Some D'
      /\ square_shape n D'
      /\ forall i,
           nth i D' [] = if ((lo <=? i) && (i <? lo + k))%nat
                         then write3 (nth i D []) i
                         else nth i D [].
Proof.
  induction k as [|k IH]; intros lo D HD Hlo Hn.
  - exists D. split; [reflexivity|]. split; [assumption|].
    intros i.
    destruct (lo <=? i)%nat eqn:E1, (i <? lo + 0)%nat eqn:E2; simpl;
      try reflexivity.
    apply Nat.leb_le in E1. apply Nat.ltb_lt in E2. lia.
  - simpl seq. simpl map. simpl foldM.
    rewrite Z.add_0_r, interior_step_row with (n:=n) by (auto; lia).
    simpl.
    assert (HD1 : square_shape n (upd D lo (write3 (nth lo D []) lo))).
    { apply square_upd; [assumption|]. unfold write3.
      rewrite !length_upd. apply HD. lia. }
    destruct (IH (S lo) _ HD1) as [D' [Hf [HD' Hrows]]]; try lia.
    exists D'. split; [|split; [assumption|]].
    + rewrite <- seq_shift, map_map. rewrite <- Hf. f_equal.
      apply map_ext. intros t. lia.
    + intros i. rewrite Hrows.
      destruct (Nat.eq_dec lo i) as [->|Hne].
      * replace ((S i <=? i) && (i <? S i + k))%nat with false
          by (symmetry; apply andb_false_iff; left; apply Nat.leb_gt; lia).
        replace ((i <=? i) && (i <? i + S k))%nat with true
          by (symmetry; apply andb_true_iff; split; [apply Nat.leb_le | apply Nat.ltb_lt]; lia).
        apply nth_upd_same. destruct HD. lia.
      * rewrite nth_upd_other by assumption.
        replace ((S lo <=? i) && (i <? S lo + k))%nat
          with ((lo <=? i) && (i <? lo + S k))%nat; [reflexivity|].
        destruct (lo <=? i)%nat eqn:E1, (S lo <=? i)%nat eqn:E2,
                 (i <? lo + S k)%nat eqn:E3, (i <? S lo + k)%nat eqn:E4;
          simpl; try reflexivity;
          rewrite ?Nat.leb_le, ?Nat.leb_gt, ?Nat.ltb_lt, ?Nat.ltb_ge in *; lia.
Qed.

Lemma nth_upd (l : list R) (k k' : nat) (v d : R) :
  (k < length l)%nat ->
  nth k' (upd l k v) d = if (k =? k')%nat then v else nth k' l d.
Proof.
  intros Hk. destruct (k =? k')%nat eqn:E.
  - apply Nat.eqb_eq in E. subst k'. apply nth_upd_same. assumption.
  - apply Nat.eqb_neq in E. apply nth_upd_other. assumption.
Qed.

(** The matrix for [n >= 3]: what the three groups of assignments leave in
    each row. *)
Lemma derivative_matrix_closed_form (n : nat) :
  (3 <= n)%nat ->
  exists D,
    derivative_matrix n = Some D
    /\ square_shape n D
    /\ nth 0 D [] = stencil_row n 0
    /\ (forall i, (1 <= i)%nat -> (i + 1 < n)%nat ->
          nth i D [] = write3 (zeros n) i).
Proof.
  intros Hn. unfold derivative_matrix.
  replace (n =? 2)%nat with false by (symmetry; apply Nat.eqb_neq; lia).
  pose proof (square_zeros2 n) as H0.
  rewrite (mset_inside (n:=n)) by (auto; lia). cbn [bind].
  set (D1 := upd (zeros2 n n) _ _).
  assert (H1 : square_shape n D1).
  { apply square_upd; [assumption|]. rewrite length_upd. apply H0. lia. }
  rewrite (mset_inside (n:=n)) by (auto; lia). cbn [bind].
  set (D2 := upd D1 _ _).
  assert (H2 : square_shape n D2).
  { apply square_upd; [assumption|]. rewrite length_upd. apply H1. lia. }
  rewrite (mset_inside (n:=n)) by (auto; lia). cbn [bind].
  set (D3 := upd D2 _ _).
  assert (H3 : square_shape n D3).
  { apply square_upd; [assumption|]. rewrite length_upd. apply H2. lia. }
  assert (Hrow0 : nth 0 D3 [] = stencil_row n 0).
  { unfold D3, D2, D1. simpl Z.to_nat.
    destruct H0 as [L0 _].
    rewrite !nth_upd_same by (rewrite ?length_upd; lia).
    rewrite nth_zeros2 by lia. reflexivity. }
  assert (Hrows : forall i, (1 <= i)%nat -> (i < n)%nat -> nth i D3 [] = zeros n).
  { intros i Hi Hi'. unfold D3, D2, D1. simpl Z.to_nat.
    rewrite !nth_upd_other by lia. apply nth_zeros2. assumption. }
  destruct (@interior_loop n (n - 2) 1 D3 H3) as [D4 [Hloop [H4 Hrows4]]];
    try lia.
  assert (Hl : foldM (fun (D : matrix R) (i : Z) =>
                        D0 <- mset D i (i + 1) one ;;
                        D5 <- mset D0 i (i - 0) (of_Z (-2)) ;;
                        mset D5 i (i - 1) one)
                     (range 1 (Z.of_nat n - 1)) D3 = Some D4).
  { rewrite <- Hloop. unfold range.
    replace (Z.to_nat (Z.of_nat n - 1 - 1)) with (n - 2)%nat by lia.
    reflexivity. }
  rewrite Hl. cbn [bind].
  rewrite (mset_last_row (n:=n)) by (auto; lia). cbn [bind].
  set (D5 := upd D4 _ _).
  assert (H5 : square_shape n D5).
  { apply square_upd; [assumption|]. rewrite length_upd. apply H4. lia. }
  rewrite (mset_last_row (n:=n)) by (auto; lia). cbn [bind].
  set (D6 := upd D5 _ _).
  assert (H6 : square_shape n D6).
  { apply square_upd; [assumption|]. rewrite length_upd. apply H5. lia. }
  rewrite (mset_last_row (n:=n)) by (auto; lia).
  eexists. split; [reflexivity|]. split.
  { apply square_upd; [assumption|]. rewrite length_upd. apply H6. lia. }
  split.
  - unfold D6, D5. rewrite !nth_upd_other by lia.
    rewrite Hrows4.
    replace ((1 <=? 0) && (0 <? 1 + (n - 2)))%nat with false by reflexivity.
    assumption.
  - intros i Hi Hi'. unfold D6, D5. rewrite !nth_upd_other by lia.
    rewrite Hrows4.
    replace ((1 <=? i) && (i <? 1 + (n - 2)))%nat with true
      by (symmetry; apply andb_true_iff; split;
          [apply Nat.leb_le | apply Nat.ltb_lt]; lia).
    rewrite Hrows by lia. reflexivity.
Qed.

(** C9 (as amended).  For [n = 2] the matrix is [[-1, 1], [-1, 1]].  For
    [n >= 3] it is [n] by [n]; its row 0 holds the one-sided stencil
    [1, -2, 1] in the columns 0, 1, 2, and each interior row [i]
    ([1 <= i <= n-2]) holds [1, -2, 1] in the columns [i-1], [i], [i+1]
    and zero elsewhere. *)
Theorem derivative_matrix_rows :
  derivative_matrix 2 = Some [[of_Z (-1); one]; [of_Z (-1); one]]
  /\ forall n : nat, (3 <= n)%nat ->
     exists D,
       derivative_matrix n = Some D
       /\ square_shape n D
       /\ (forall j, (j < n)%nat ->
             entry D 0 j = if (j =? 0)%nat then one
                           else if (j =? 1)%nat then of_Z (-2)
                           else if (j =? 2)%nat then one
                           else zero)
       /\ (forall i j, (1 <= i)%nat -> (i + 1 < n)%nat -> (j < n)%nat ->
             entry D i j = if (j =? i - 1)%nat then one
                           else if (j =? i)%nat then of_Z (-2)
                           else if (j =? i + 1)%nat then one
                           else zero).
Proof.
  split; [reflexivity|].
  intros n Hn.
  destruct (derivative_matrix_closed_form Hn) as [D [HD [Hsq [H0 Hi]]]].
  exists D. split; [assumption|]. split; [assumption|]. split.
  - intros j Hj. unfold entry. rewrite H0. unfold stencil_row.
    rewrite !nth_upd by (rewrite ?length_upd, length_zeros; lia).
    rewrite nth_zeros. simpl Nat.add.
    destruct j as [|[|[|j]]]; reflexivity.
  - intros i j Hi1 Hi2 Hj. unfold entry. rewrite Hi by assumption.
    unfold write3.
    rewrite !nth_upd by (rewrite ?length_upd, length_zeros; lia).
    rewrite nth_zeros.
    rewrite (Nat.eqb_sym (i - 1) j), (Nat.eqb_sym i j), (Nat.eqb_sym (i + 1) j).
    destruct (j =? i - 1)%nat eqn:E1; [reflexivity|].
    destruct (j =? i)%nat eqn:E2; reflexivity.
Qed.

End DerivativeMatrix.

(** ** Curve evaluation *)

(** The other half of C4: at [u == U[-1]] a call of [curvepoint] that
    returns yields the last control point. *)
Lemma curvepoint_last_knot {R : Type} `{Num R} (p : nat) (U P : list R)
    (u ul c : R) :
  py_index U (-1) = Some ul -> eqb ul u = true ->
  curvepoint p U P u = Some c -> py_index P (-1) = Some c.
Proof.
  intros Hul He Hc. unfold curvepoint in Hc.
  inv_bind Hc. inv_bind Hc. rewrite Hul in Hc. cbn [bind] in Hc.
  rewrite He in Hc. exact Hc.
Qed.

(** ** The least-squares fit *)

Section FitProperties.

Context {R : Type} `{Num R} `{Sqrt R}.

Variable svd : matrix R -> option (matrix R * list R * matrix R).

Lemma derivative_matrix_size (n : nat) (D : matrix R) :
  derivative_matrix n = Some D -> (2 <= n)%nat.
Proof.
  destruct n as [|[|n]]; [discriminate | discriminate | lia].
Qed.

Lemma svd_inv_length (n : nat) (A : matrix R) (b : list R) (s tol : R)
    (D : matrix R) (p0 : list R) :
  svd_inv svd n A b s tol D = Some p0 -> length p0 = n.
Proof.
  unfold svd_inv. intros Hs. inv_bind Hs.
  destruct a as [[uh sh] vh]. injection Hs as <-.
  unfold matvec, matmul. rewrite !length_map.
  unfold transpose. rewrite length_map. apply length_seq.
Qed.

Lemma lsq_system_size (x y U : list R) (p : nat) (a : R) (w : weights R)
    (A : matrix R) (b : list R) (R_ : matrix R) :
  lsq_system x y U p a w = Some (A, b, R_) ->
  (2 <= Z.to_nat (len U - 1 - Z.of_nat p))%nat.
Proof.
  unfold lsq_system. intros Hs.
  inv_bind Hs. inv_bind Hs. inv_bind Hs. inv_bind Hs. inv_bind Hs.
  inv_bind Hs. apply derivative_matrix_size in E4. exact E4.
Qed.

Lemma interpolate_ends_spec (p0 y P : list R) :
  (2 <= length p0)%nat ->
  interpolate_ends p0 y = Some P ->
  exists y0 yl,
    py_index y 0 = Some y0 /\ py_index y (-1) = Some yl
    /\ py_index P 0 = Some y0 /\ py_index P (-1) = Some yl.
Proof.
  intros Hlen Hi. unfold interpolate_ends in Hi.
  inv_bind Hi. rename a into y0, E into Hy0.
  inv_bind Hi. rename a into p1, E into Hp1.
  inv_bind Hi. rename a into yl, E into Hyl.
  exists y0, yl. split; [assumption|]. split; [assumption|].
  rewrite py_set_nonneg in Hp1 by (unfold len; lia).
  injection Hp1 as <-.
  destruct (py_set_some _ _ _ Hi) as [k [Hk [-> [_ Hneg]]]].
  rewrite length_upd in Hk. specialize (Hneg ltac:(lia)).
  unfold len in Hneg. rewrite length_upd in Hneg.
  assert (Ek : k = (length p0 - 1)%nat) by lia. clear Hneg. subst k.
  split.
  - rewrite (py_index_nonneg _ y0) by (unfold len; rewrite !length_upd; lia).
    f_equal. change (Z.to_nat 0) with 0%nat.
    rewrite nth_upd_other by lia. apply nth_upd_same. lia.
  - rewrite (py_index_last yl).
    + f_equal. rewrite !length_upd. apply nth_upd_same.
      rewrite length_upd. lia.
    + intros E. apply (f_equal (@length R)) in E.
      rewrite !length_upd in E. simpl in E. lia.
Qed.

(** C1.  Whenever [lsq] returns, for inputs [x], [y] of equal length with
    [y] non-empty (which any returning call has), the control points [P] it
    returns have [P[0]] equal to [y[0]] and [P[-1]] equal to [y[-1]]. *)
Theorem lsq_pins_boundary (x y U : list R) (p : nat) (s tol a : R)
    (w : weights R) (P : list R) (res : R) :
  length x = length y -> y <> [] ->
  lsq svd x y U p s tol a w = Some (P, res) ->
  exists y0 yl,
    py_index y 0 = Some y0 /\ py_index y (-1) = Some yl
    /\ py_index P 0 = Some y0 /\ py_index P (-1) = Some yl.
Proof.
  intros _ _ Hl. unfold lsq in Hl.
  inv_bind Hl. destruct a0 as [[A b] R_]. rename E into Hsys.
  inv_bind Hl. rename a0 into p0, E into Hp0.
  inv_bind Hl. rename a0 into P', E into HP.
  injection Hl as -> <-.
  apply interpolate_ends_spec with p0; [|assumption].
  rewrite (svd_inv_length _ _ _ _ _ _ Hp0).
  apply (lsq_system_size _ _ _ _ _ _ Hsys).
Qed.

(** The residual of [lsq] is the one of the solution [p0] of [svd_inv],
    taken before [interpolate_ends] overwrites its two ends. *)
Lemma lsq_residual_of_solution (x y U : list R) (p : nat) (s tol a : R)
    (w : weights R) (P : list R) (res : R) :
  lsq svd x y U p s tol a w = Some (P, res) ->
  exists A b R_ p0,
    lsq_system x y U p a w = Some (A, b, R_)
    /\ svd_inv svd (Z.to_nat (len U - 1 - Z.of_nat p)) A b s tol R_ = Some p0
    /\ res = residual A p0 b
    /\ interpolate_ends p0 y = Some P.
Proof.
  intros Hl. unfold lsq in Hl.
  inv_bind Hl. destruct a0 as [[A b] R_]. rename E into Hsys.
  inv_bind Hl. rename a0 into p0, E into Hp0.
  inv_bind Hl. rename a0 into P', E into HP.
  injection Hl as -> <-.
  exists A, b, R_, p0. auto.
Qed.

End FitProperties.

(** ** Exact arithmetic *)

Section Rationals.

Open Scope Q_scope.

Lemma Q_leb (a b : Q) : leb a b = true <-> a <= b.
Proof. apply Qle_bool_iff. Qed.

Lemma Q_ltb (a b : Q) : ltb a b = true <-> a < b.
Proof.
  simpl. unfold QNum.ltb. rewrite negb_true_iff.
  split.
  - intros Hb. apply Qnot_le_lt. intros Hle.
    apply Qle_bool_iff in Hle. congruence.
  - intros Hlt. destruct (Qle_bool b a) eqn:E; [|reflexivity].
    apply Qle_bool_iff in E. exfalso. apply (Qlt_not_le _ _ Hlt E).
Qed.

Lemma Q_ltb_false (a b : Q) : ltb a b = false <-> b <= a.
Proof.
  split.
  - intros Hb. destruct (Qlt_le_dec a b) as [Hlt|Hle]; [|assumption].
    apply Q_ltb in Hlt. congruence.
  - intros Hle. destruct (ltb a b) eqn:E; [|reflexivity].
    apply Q_ltb in E. exfalso. apply (Qlt_not_le _ _ E Hle).
Qed.

Lemma Q_leb_false (a b : Q) : leb a b = false <-> b < a.
Proof.
  split.
  - intros Hb. destruct (Qlt_le_dec b a) as [Hlt|Hle]; [assumption|].
    apply Q_leb in Hle. congruence.
  - intros Hlt. destruct (leb a b) eqn:E; [|reflexivity].
    apply Q_leb in E. exfalso. apply (Qlt_not_le _ _ Hlt E).
Qed.

Lemma Q_eqb (a b : Q) : eqb a b = true <-> a == b.
Proof. apply Qeq_bool_iff. Qed.

(** *** findspan *)

Section Findspan.

Variable U : list Q.
Variable u : Q.

(** the knot [U[t]] for [0 <= t < len U] *)
Let knot (t : Z) : Q := nth (Z.to_nat t) U 0.

(** [u] lies in the span [t] *)
Let in_span (t : Z) : Prop := knot t <= u /\ u < knot (t + 1).

Lemma knot_index (t : Z) :
  (0 <= t < len U)%Z -> py_index U t = Some (knot t).
Proof. intros Ht. apply py_index_nonneg. assumption. Qed.

Lemma scan_first_match (n : Z) (k : nat) :
  forall i m : Z,
    (0 <= i <= m)%Z -> (m < i + Z.of_nat k)%Z -> (m + 1 < len U)%Z ->
    in_span m ->
    (forall t, (i <= t < m)%Z -> ~ in_span t) ->
    findspan_scan U u n i k = Some m.
Proof.
  induction k as [|k IH]; intros i m Him Hk Hlen Hm Hfirst; [lia|].
  simpl findspan_scan.
  rewrite knot_index by lia. cbn [bind].
  destruct (Z.eq_dec i m) as [->|Hne].
  - destruct Hm as [Hlo Hhi].
    apply Q_leb in Hlo. apply Q_ltb in Hhi.
    change (Qle_bool (knot m) u) with (leb (knot m) u). rewrite Hlo.
    rewrite knot_index by lia. cbn [bind].
    change (QNum.ltb u (knot (m + 1))) with (ltb u (knot (m + 1))).
    rewrite Hhi. reflexivity.
  - assert (Hrec : findspan_scan U u n (i + 1) k = Some m)
      by (apply IH; try lia; [assumption | intros t Ht; apply Hfirst; lia]).
    change (Qle_bool (knot i) u) with (leb (knot i) u).
    destruct (leb (knot i) u) eqn:Elo; [|assumption].
    rewrite knot_index by lia. cbn [bind].
    change (QNum.ltb u (knot (i + 1))) with (ltb u (knot (i + 1))).
    destruct (ltb u (knot (i + 1))) eqn:Ehi; [|assumption].
    exfalso. apply (Hfirst i); [lia|].
    split; [apply Q_leb | apply Q_ltb]; assumption.
Qed.

Lemma scan_no_match (n : Z) (k : nat) :
  forall i : Z,
    (0 <= i)%Z -> (i + Z.of_nat k < len U)%Z ->
    (forall t, (i <= t < i + Z.of_nat k)%Z -> ~ in_span t) ->
    findspan_scan U u n i k = Some n.
Proof.
  induction k as [|k IH]; intros i Hi Hlen Hnone; [reflexivity|].
  simpl findspan_scan.
  rewrite knot_index by lia. cbn [bind].
  assert (Hrec : findspan_scan U u n (i + 1) k = Some n)
    by (apply IH; try lia; intros t Ht; apply Hnone; lia).
  change (Qle_bool (knot i) u) with (leb (knot i) u).
  destruct (leb (knot i) u) eqn:Elo; [|assumption].
  rewrite knot_index by lia. cbn [bind].
  change (QNum.ltb u (knot (i + 1))) with (ltb u (knot (i + 1))).
  destruct (ltb u (knot (i + 1))) eqn:Ehi; [|assumption].
  exfalso. apply (Hnone i); [lia|].
  split; [apply Q_leb | apply Q_ltb]; assumption.
Qed.

(** Between a knot below [u] and a later knot above [u] there is a first
    span that holds [u]. *)
Lemma first_span_exists (d : nat) :
  forall lo : Z,
    (0 <= lo)%Z -> knot lo <= u -> u < knot (lo + Z.of_nat d + 1) ->
    exists m, (lo <= m <= lo + Z.of_nat d)%Z /\ in_span m
              /\ forall t, (lo <= t < m)%Z -> ~ in_span t.
Proof.
  induction d as [|d IH]; intros lo Hlo Hle Hlt.
  - exists lo. split; [lia|]. split.
    + split; [assumption|]. replace (lo + 1)%Z with (lo + Z.of_nat 0 + 1)%Z by lia.
      assumption.
    + intros t Ht. lia.
  - destruct (Qlt_le_dec u (knot (lo + 1))) as [Hin|Hout].
    + exists lo. split; [lia|]. split; [split; assumption|]. intros t Ht. lia.
    + destruct (IH (lo + 1)%Z) as [m [Hm [Hspan Hfirst]]]; try lia; try assumption.
      { replace (lo + 1 + Z.of_nat d + 1)%Z with (lo + Z.of_nat (S d) + 1)%Z by lia.
        assumption. }
      exists m. split; [lia|]. split; [assumption|].
      intros t Ht. destruct (Z.eq_dec t lo) as [->|Hne].
      * intros [_ Hhi]. apply (Qlt_not_le _ _ Hhi Hout).
      * apply Hfirst. lia.
Qed.

(** C3 (as amended).  [findspan] returns [n] when [u == U[n+1]].  For a
    non-decreasing knot vector and [U[p] <= u < U[n+1]] it returns a span
    [i] with [p <= i <= n] and [U[i] <= u < U[i+1]]; when the degree is
    at least 1 this [i] is below [p + n]. *)
Theorem findspan_spec (n : Z) (p : nat) :
  (forall v, py_index U (n + 1) = Some v -> u == v ->
             findspan n p u U = Some n)
  /\ (nondecreasing U -> (0 <= n)%Z ->
      forall a b,
        py_index U (Z.of_nat p) = Some a -> py_index U (n + 1) = Some b ->
        a <= u -> u < b ->
        exists i lo hi,
          findspan n p u U = Some i
          /\ (Z.of_nat p <= i <= n)%Z
          /\ ((1 <= p)%nat -> (i < Z.of_nat p + n)%Z)
          /\ py_index U i = Some lo /\ py_index U (i + 1) = Some hi
          /\ lo <= u /\ u < hi).
Proof.
  split.
  - intros v Hv Huv. unfold findspan. rewrite Hv. cbn [bind].
    apply Q_eqb in Huv. rewrite Huv. reflexivity.
  - intros Hsorted Hn a b Ha Hb Hau Hub.
    destruct (py_index_some_nonneg U 0 (Nat2Z.is_nonneg p) Ha) as [Hp Ea].
    destruct (py_index_some_nonneg U 0 (k:=(n + 1)%Z) ltac:(lia) Hb) as [Hn1 Eb].
    fold (knot (Z.of_nat p)) in Ea. fold (knot (n + 1)) in Eb. subst a b.
    assert (Hpn : (Z.of_nat p <= n)%Z).
    { destruct (Z_le_gt_dec (Z.of_nat p) n) as [Hle|Hgt]; [assumption|].
      exfalso. apply (Qlt_not_le _ _ Hub).
      apply Qle_trans with (knot (Z.of_nat p)); [|assumption].
      unfold knot. apply Hsorted; unfold len in *; lia. }
    destruct (@first_span_exists (Z.to_nat (n - Z.of_nat p)) (Z.of_nat p))
      as [m [Hm [Hspan Hfirst]]]; try lia; try assumption.
    { replace (Z.of_nat p + Z.of_nat (Z.to_nat (n - Z.of_nat p)) + 1)%Z
        with (n + 1)%Z by lia. assumption. }
    assert (Hfs : findspan n p u U = Some m).
    { unfold findspan. rewrite Hb. cbn [bind].
      replace (eqb u (knot (n + 1))) with false.
      2:{ symmetry. destruct (eqb u (knot (n + 1))) eqn:E; [|reflexivity].
          apply Q_eqb in E. exfalso. rewrite E in Hub.
          apply (Qlt_irrefl _ Hub). }
      destruct (Z_lt_ge_dec m (Z.of_nat p + n)) as [Hlt|Hge].
      - apply scan_first_match; try lia; assumption.
      - assert (m = n) by lia. subst m.
        apply scan_no_match; try lia.
        intros t Ht. apply Hfirst. lia. }
    exists m, (knot m), (knot (m + 1)).
    split; [assumption|]. split; [lia|]. split; [lia|].
    split; [apply knot_index; lia|]. split; [apply knot_index; lia|].
    exact Hspan.
Qed.

End Findspan.

(** C3 (the claim as stated fails).  For degree 0 the loop runs over
    [range(0, n)] and the last span is returned by the final [return n]:
    with [U = [0, 1, 2]], [n = 1] and [u = 3/2], strictly inside
    [[U[0], U[2])], the result is 1, which is not below [p + n = 1]. *)
Lemma findspan_degree_zero_last_span :
  findspan (R:=Q) 1 0 (3 # 2) [0; 1; 2] = Some 1%Z
  /\ findspan (R:=float) 1 0 1.5%float [0; 1; 2]%float = Some 1%Z
  /\ ~ (exists i, findspan (R:=Q) 1 0 (3 # 2) [0; 1; 2] = Some i
                  /\ (Z.of_nat 0 <= i < Z.of_nat 0 + 1)%Z).
Proof.
  split; [reflexivity|]. split; [reflexivity|].
  intros [i [Hi Hlt]]. vm_compute in Hi. injection Hi as <-. lia.
Qed.

Lemma sortedb_nondecreasing (U : list Q) :
  sortedb U = true -> nondecreasing U.
Proof.
  induction U as [|x t IH]; intros Hs i j Hij Hj; [simpl in Hj; lia|].
  destruct t as [|y t'].
  - simpl in Hj. replace j with 0%nat by lia. replace i with 0%nat by lia.
    apply Qle_refl.
  - simpl in Hs. apply andb_true_iff in Hs. destruct Hs as [Hxy Ht].
    apply Qle_bool_iff in Hxy. specialize (IH Ht).
    destruct j as [|j]; [replace i with 0%nat by lia; apply Qle_refl|].
    destruct i as [|i].
    + apply Qle_trans with y; [exact Hxy|].
      apply (IH 0%nat j); simpl in *; lia.
    + apply (IH i j); simpl in *; lia.
Qed.

Lemma findspan_spec_witness :
  exists i lo hi,
    findspan (R:=Q) 2 1 (3 # 4) [0; 0; 1 # 2; 1; 1] = Some i
    /\ (1 <= i <= 2)%Z /\ lo <= 3 # 4 /\ 3 # 4 < hi.
Proof.
  destruct (proj2 (findspan_spec [0; 0; 1 # 2; 1; 1] (3 # 4) 2 1))
    with (a := 0) (b := 1) as [i [lo [hi [Hf [Hi [_ [_ [_ [Hlo Hhi]]]]]]]]].
  - apply sortedb_nondecreasing. reflexivity.
  - lia.
  - reflexivity.
  - reflexivity.
  - discriminate.
  - reflexivity.
  - exists i, lo, hi. auto.
Defined.

(** *** Partition of unity *)

Lemma sum_upto_upd_ge (j r : nat) (N : list Q) (v : Q) :
  (j <= r)%nat -> sum_upto j (upd N r v) = sum_upto j N.
Proof.
  induction j as [|j IH]; intros Hr; simpl; [reflexivity|].
  rewrite IH by lia. rewrite nth_upd_other by lia. reflexivity.
Qed.

Lemma sum_upto_upd_lt (j r : nat) (N : list Q) (v : Q) :
  (r < j)%nat -> (r < length N)%nat ->
  sum_upto j (upd N r v) == sum_upto j N - nth r N 0 + v.
Proof.
  induction j as [|j IH]; intros Hr Hlen; [lia|]. simpl.
  destruct (Nat.eq_dec r j) as [->|Hne].
  - rewrite sum_upto_upd_ge by lia. rewrite nth_upd_same by assumption. ring.
  - rewrite IH by lia. rewrite nth_upd_other by assumption. ring.
Qed.

Lemma sum_upto_cons (n : nat) (x : Q) (l : list Q) :
  sum_upto (S n) (x :: l) == x + sum_upto n l.
Proof.
  induction n as [|n IH].
  - simpl. ring.
  - change (sum_upto (S (S n)) (x :: l))
      with (sum_upto (S n) (x :: l) + nth n l 0).
    rewrite IH. simpl. ring.
Qed.

Lemma fold_left_sum (l : list Q) :
  forall acc : Q, fold_left Qplus l acc == acc + sum_upto (length l) l.
Proof.
  induction l as [|x l IH]; intros acc.
  - simpl. ring.
  - change (fold_left Qplus (x :: l) acc) with (fold_left Qplus l (acc + x)).
    rewrite IH. change (length (x :: l)) with (S (length l)).
    rewrite sum_upto_cons. ring.
Qed.

Lemma py_sum_sum_upto (l : list Q) : py_sum l == sum_upto (length l) l.
Proof.
  unfold py_sum. cbn [add zero Num_Q]. rewrite fold_left_sum. ring.
Qed.

Lemma sum_upto_zeros (n j : nat) : sum_upto j (repeat 0 n) == 0.
Proof.
  induction j as [|j IH]; simpl; [reflexivity|].
  rewrite IH, nth_repeat. reflexivity.
Qed.

Lemma isclose_zero_nonzero (d : Q) : isclose d 0 = false -> ~ d == 0.
Proof.
  cbn [isclose Num_Q]. unfold QNum.isclose. intros Hc Hd.
  assert (Hle : Qabs (d - 0) <= QNum.atol + QNum.rtol * Qabs 0).
  { rewrite Hd. discriminate. }
  apply Qle_bool_iff in Hle. congruence.
Qed.

Lemma isclose_zero_above (d : Q) : QNum.atol < d -> isclose d 0 = false.
Proof.
  intros Hd. cbn [isclose Num_Q]. unfold QNum.isclose.
  destruct (Qle_bool (Qabs (d - 0)) (QNum.atol + QNum.rtol * Qabs 0)) eqn:E;
    [|reflexivity].
  apply Qle_bool_iff in E. exfalso.
  assert (H0 : 0 <= d - 0).
  { assert (0 < QNum.atol) by reflexivity. lra. }
  rewrite (Qabs_pos _ H0) in E.
  change (Qabs 0) with 0 in E. lra.
Qed.

Section PartitionOfUnity.

Variables left right : list Q.
Variable j : nat.

Hypothesis denominators :
  forall t, (t < j)%nat ->
    isclose (nth (t + 1) right 0 + nth (j - t) left 0) 0 = false.

(** One pass of the inner loop keeps [N[0] + ... + N[j-1] + saved]. *)
Lemma basis_inner_sum (k : nat) :
  forall (r : nat) (N : list Q) (saved : Q),
    (r + k <= j)%nat -> (j <= length N)%nat ->
    length (fst (basis_inner left right j k r N saved)) = length N
    /\ sum_upto j (fst (basis_inner left right j k r N saved))
       + snd (basis_inner left right j k r N saved)
       == sum_upto j N + saved.
Proof.
  induction k as [|k IH]; intros r N saved Hr Hlen.
  - simpl. split; reflexivity.
  - cbn [basis_inner]. cbn [add zero mul div Num_Q].
    change (@isclose Q Num_Q) with QNum.isclose.
    pose proof (denominators (t:=r) ltac:(lia)) as Hd.
    cbn [isclose Num_Q] in Hd. rewrite Hd.
    destruct (IH (S r)
                (upd N r (saved + nth (r + 1) right 0
                                  * (nth r N 0 / (nth (r + 1) right 0 + nth (j - r) left 0))))
                (nth (j - r) left 0
                 * (nth r N 0 / (nth (r + 1) right 0 + nth (j - r) left 0))))
      as [IHlen IHsum]; [lia | rewrite length_upd; lia |].
    split; [rewrite IHlen; apply length_upd|].
    rewrite IHsum. rewrite sum_upto_upd_lt by lia.
    apply isclose_zero_nonzero in Hd. field. exact Hd.
Qed.

End PartitionOfUnity.

Section BasisfunsSum.

Variable U : list Q.
Variable i : Z.
Variable u : Q.
Variable p : nat.

Let knot (t : Z) : Q := nth (Z.to_nat t) U 0.

Hypothesis span_low : (Z.of_nat p <= i)%Z.
Hypothesis span_high : (i + 1 < len U)%Z.
Hypothesis knots_high : (i + Z.of_nat p < len U)%Z.
Hypothesis sorted : nondecreasing U.
Hypothesis width : QNum.atol < span_width U i.

(** the entries [1 .. j-1] of [left] and [right] hold the knot differences *)
Let filled (j : nat) (left right : list Q) : Prop :=
  length left = (p + 1)%nat /\ length right = (p + 1)%nat
  /\ forall t, (1 <= t < j)%nat ->
       nth t left 0 = u - knot (i + 1 - Z.of_nat t)
       /\ nth t right 0 = knot (i + Z.of_nat t) - u.

Lemma knot_le (s t : Z) :
  (0 <= s <= t)%Z -> (t < len U)%Z -> knot s <= knot t.
Proof.
  intros Hst Ht. unfold knot. apply sorted; unfold len in Ht; lia.
Qed.

Lemma denominators_above (j : nat) (left right : list Q) :
  filled (S j) left right -> (j <= p)%nat ->
  forall t, (t < j)%nat ->
    isclose (nth (t + 1) right 0 + nth (j - t) left 0) 0 = false.
Proof.
  intros [_ [_ Hf]] Hj t Ht.
  destruct (Hf (t + 1)%nat ltac:(lia)) as [_ ->].
  destruct (Hf (j - t)%nat ltac:(lia)) as [-> _].
  apply isclose_zero_above.
  pose proof (@knot_le (i + 1) (i + Z.of_nat (t + 1)) ltac:(lia) ltac:(lia)).
  pose proof (@knot_le (i + 1 - Z.of_nat (j - t)) i ltac:(lia) ltac:(lia)).
  pose proof width as Hw. unfold span_width in Hw.
  fold (knot (i + 1)) in Hw. fold (knot i) in Hw.
  lra.
Qed.

Lemma basis_outer_sum (k : nat) :
  forall (j : nat) (left right N : list Q),
    (j + k = p + 1)%nat -> (1 <= j)%nat ->
    filled j left right -> length N = (p + 1)%nat -> sum_upto j N == 1 ->
    exists N',
      basis_outer U i u k j left right N = Some N'
      /\ length N' = (p + 1)%nat /\ sum_upto (p + 1) N' == 1.
Proof.
  induction k as [|k IH]; intros j left right N Hjk Hj Hf HN Hsum.
  - exists N. replace (p + 1)%nat with j by lia.
    split; [reflexivity|]. split; [lia | assumption].
  - cbn [basis_outer].
    rewrite (py_index_nonneg U 0 (k:=(i + 1 - Z.of_nat j)%Z)) by lia.
    cbn [bind].
    rewrite (py_index_nonneg U 0 (k:=(i + Z.of_nat j)%Z)) by lia.
    cbn [bind]. cbn [sub zero Num_Q].
    fold (knot (i + 1 - Z.of_nat j)). fold (knot (i + Z.of_nat j)).
    set (left' := upd left j (u - knot (i + 1 - Z.of_nat j))).
    set (right' := upd right j (knot (i + Z.of_nat j) - u)).
    destruct Hf as [Hl [Hr Hf]].
    assert (Hf' : filled (S j) left' right').
    { split; [unfold left'; rewrite length_upd; assumption|].
      split; [unfold right'; rewrite length_upd; assumption|].
      intros t Ht. unfold left', right'.
      destruct (Nat.eq_dec j t) as [->|Hne].
      - rewrite !nth_upd_same by lia. split; reflexivity.
      - rewrite !nth_upd_other by assumption. apply Hf. lia. }
    pose proof (@basis_inner_sum left' right' j
                  (@denominators_above j left' right' Hf' ltac:(lia))
                  j 0%nat N 0 ltac:(lia) ltac:(lia)) as [Hlen' Hsum'].
    destruct (basis_inner left' right' j j 0 N 0) as [N' saved] eqn:EN.
    cbn [fst snd] in Hlen', Hsum'.
    apply IH; try lia; try assumption.
    + rewrite length_upd. lia.
    + cbn [sum_upto]. rewrite sum_upto_upd_ge by lia.
      rewrite nth_upd_same by lia. rewrite Hsum', Hsum. ring.
Qed.

(** In exact arithmetic, for a non-decreasing knot vector and a span [i]
    ([p <= i], [i + p < len(U)]) that is wider than the tolerance [1e-8]
    of [np.isclose], [basisfuns] returns [p+1] values whose sum is 1, for
    every [u]. *)
Lemma basisfuns_sum_exact :
  exists N,
    basisfuns i u p U = Some N
    /\ length N = (p + 1)%nat
    /\ py_sum N == 1.
Proof.
  unfold basisfuns.
  rewrite (py_index_nonneg U 0 (k:=0%Z)) by lia. cbn [bind].
  destruct (isclose u (nth (Z.to_nat 0) U 0)).
  { exists (1 :: repeat 0 p). split; [reflexivity|].
    split; [simpl; rewrite repeat_length; lia|].
    rewrite py_sum_sum_upto. simpl length. rewrite sum_upto_cons.
    rewrite repeat_length, sum_upto_zeros. reflexivity. }
  assert (HU : U <> []).
  { intros ->. unfold len in span_high. simpl in span_high. lia. }
  rewrite (py_index_last 0 HU). cbn [bind].
  destruct (isclose u (nth (length U - 1) U 0)).
  { exists (repeat 0 p ++ [1]). split; [reflexivity|].
    split; [rewrite length_app, repeat_length; reflexivity|].
    unfold py_sum. cbn [add zero Num_Q]. rewrite fold_left_app.
    cbn [fold_left]. rewrite fold_left_sum, repeat_length, sum_upto_zeros.
    reflexivity. }
  destruct (@basis_outer_sum p 1%nat (repeat 0 (p + 1)) (repeat 0 (p + 1))
              (upd (repeat 0 (p + 1)) 0 1))
    as [N [HN [Hlen Hsum]]]; try lia.
  - split; [apply repeat_length|]. split; [apply repeat_length|].
    intros t Ht. lia.
  - rewrite length_upd. apply repeat_length.
  - cbn [sum_upto]. rewrite nth_upd_same by (rewrite repeat_length; lia).
    reflexivity.
  - exists N. split; [exact HN|]. split; [assumption|].
    rewrite py_sum_sum_upto, Hlen. assumption.
Qed.

End BasisfunsSum.

(** C2 (the claim as stated fails).  On the clamped knot vector
    [0, 0, 0.5, 0.500000001, 1, 1] of degree 1 the span 2 is valid and
    holds [u = 0.5000000005], but its width [1e-9] is numerically zero
    for [np.isclose]: the guard sets [N[0] = 0] and leaves the loop, and
    the two basis values are [0, 0], with sum 0.  The same happens in
    exact arithmetic. *)
Lemma basisfuns_narrow_span_sums_to_zero :
  (let U := [0; 0; 0.5; 0.500000001; 1; 1]%float in
   let u := 0.5000000005%float in
   findspan 2 1 u U = Some 2%Z
   /\ leb 0.5%float u = true /\ ltb u 0.500000001%float = true
   /\ basisfuns 2 u 1 U = Some [0; 0]%float
   /\ py_sum [0; 0]%float = 0%float
   /\ leb (PrimFloat.abs (sub (py_sum [0; 0]%float) 1%float)) 1e-9%float = false)
  /\ (let U := [0; 0; 1 # 2; 500000001 # 1000000000; 1; 1] in
      let u := 1000000001 # 2000000000 in
      findspan 2 1 u U = Some 2%Z
      /\ basisfuns 2 u 1 U = Some [0; 0]
      /\ ~ py_sum [0; 0] == 1).
Proof.
  split; cbv zeta.
  - repeat split; vm_compute; reflexivity.
  - split; [vm_compute; reflexivity|]. split; [vm_compute; reflexivity|].
    discriminate.
Qed.

(** *** Knot vectors *)

Lemma nondecreasing_of_sorted (l : list Q) :
  StronglySorted Qle l -> nondecreasing l.
Proof.
  induction 1 as [|x l Hl IH Hx]; intros i j Hij Hj; [simpl in Hj; lia|].
  destruct j as [|j]; [replace i with 0%nat by lia; apply Qle_refl|].
  destruct i as [|i].
  - simpl. rewrite Forall_forall in Hx. apply Hx. apply nth_In.
    simpl in Hj. lia.
  - simpl. apply IH; simpl in Hj; lia.
Qed.

Lemma sorted_of_nondecreasing (l : list Q) :
  nondecreasing l -> StronglySorted Qle l.
Proof.
  induction l as [|x l IH]; intros Hl; constructor.
  - apply IH. intros i j Hij Hj. apply (Hl (S i) (S j)); simpl; lia.
  - apply Forall_forall. intros y Hy.
    destruct (In_nth _ _ 0 Hy) as [j [Hj <-]].
    apply (Hl 0%nat (S j)); simpl; lia.
Qed.

Lemma sorted_app (l1 l2 : list Q) :
  StronglySorted Qle l1 -> StronglySorted Qle l2 ->
  (forall x y, In x l1 -> In y l2 -> x <= y) ->
  StronglySorted Qle (l1 ++ l2).
Proof.
  induction 1 as [|x l Hl IH Hx]; intros H2 Hle; simpl; [assumption|].
  constructor.
  - apply IH; [assumption|]. intros; apply Hle; simpl; auto.
  - apply Forall_app. split; [assumption|].
    apply Forall_forall. intros y Hy. apply Hle; simpl; auto.
Qed.

Lemma sorted_repeat (a : Q) (n : nat) : StronglySorted Qle (repeat a n).
Proof.
  induction n as [|n IH]; simpl; constructor; [assumption|].
  apply Forall_forall. intros y Hy. apply repeat_spec in Hy. subst y.
  apply Qle_refl.
Qed.

Lemma sorted_map_seq (g : nat -> Q) (m : nat) :
  forall s : nat,
    (forall k k', (s <= k)%nat -> (k <= k')%nat -> (k' < s + m)%nat -> g k <= g k') ->
    StronglySorted Qle (map g (seq s m)).
Proof.
  induction m as [|m IH]; intros s Hg; simpl; constructor.
  - apply IH. intros k k' H1 H2 H3. apply Hg; lia.
  - apply Forall_forall. intros y Hy. apply in_map_iff in Hy.
    destruct Hy as [k [<- Hk]]. apply in_seq in Hk. apply Hg; lia.
Qed.

Lemma clamped_ends_build {A : Type} (p : nat) (a b : A) (t : list A) :
  clamped_ends p a b (repeat a (p + 1) ++ t ++ repeat b (p + 1)).
Proof.
  split.
  - rewrite firstn_app, repeat_length, Nat.sub_diag. simpl firstn at 2.
    rewrite app_nil_r. rewrite <- (repeat_length a (p + 1)) at 1.
    apply firstn_all.
  - rewrite app_assoc.
    set (l := repeat a (p + 1) ++ t).
    rewrite length_app, repeat_length.
    replace (length l + (p + 1) - (p + 1))%nat with (length l) by lia.
    rewrite skipn_app, skipn_all, Nat.sub_diag. reflexivity.
Qed.

Lemma clamped_build (p : nat) (a b : Q) (t : list Q) :
  a <= b -> StronglySorted Qle t ->
  (forall x, In x t -> a <= x /\ x <= b) ->
  clamped p a b (repeat a (p + 1) ++ t ++ repeat b (p + 1)).
Proof.
  intros Hab Ht Hin. split; [apply clamped_ends_build|].
  apply nondecreasing_of_sorted.
  apply sorted_app; [apply sorted_repeat| |].
  - apply sorted_app; [assumption | apply sorted_repeat |].
    intros x y Hx Hy. apply repeat_spec in Hy. subst y. apply Hin. assumption.
  - intros x y Hx Hy. apply repeat_spec in Hx. subst x.
    apply in_app_iff in Hy. destruct Hy as [Hy|Hy].
    + apply Hin. assumption.
    + apply repeat_spec in Hy. subst y. assumption.
Qed.

(** [np.sort] *)

Lemma insert_sorted_in (v x : Q) (l : list Q) :
  In x (insert_sorted v l) <-> x = v \/ In x l.
Proof.
  induction l as [|h t IH]; simpl.
  - intuition.
  - destruct (Qle_bool v h); simpl; [intuition|].
    rewrite IH. intuition.
Qed.

Lemma insert_sorted_sorted (v : Q) (l : list Q) :
  StronglySorted Qle l -> StronglySorted Qle (insert_sorted v l).
Proof.
  induction 1 as [|h t Ht IH Hh]; simpl.
  - constructor; constructor.
  - destruct (Qle_bool v h) eqn:E.
    + apply Qle_bool_iff in E. constructor; [constructor; assumption|].
      constructor; [assumption|].
      rewrite Forall_forall in *. intros y Hy.
      apply Qle_trans with h; auto.
    + assert (Hhv : h <= v).
      { destruct (Qlt_le_dec v h) as [Hlt|Hle]; [|assumption].
        apply Qlt_le_weak in Hlt. apply Qle_bool_iff in Hlt. congruence. }
      constructor; [assumption|].
      rewrite Forall_forall in *. intros y Hy.
      apply insert_sorted_in in Hy. destruct Hy as [->|Hy]; auto.
Qed.

Lemma np_sort_sorted (l : list Q) : StronglySorted Qle (np_sort l).
Proof.
  induction l as [|x l IH]; simpl; [constructor|].
  apply insert_sorted_sorted. assumption.
Qed.

Lemma np_sort_in (x : Q) (l : list Q) : In x (np_sort l) <-> In x l.
Proof.
  induction l as [|h l IH]; simpl; [reflexivity|].
  rewrite insert_sorted_in, IH. intuition.
Qed.

(** [np.linspace] *)

Lemma firstn_upd {A : Type} (l : list A) (k j : nat) (v : A) :
  (k <= j)%nat -> firstn k (upd l j v) = firstn k l.
Proof.
  revert k j. induction l as [|h t IH]; intros [|k] [|j] Hkj; simpl; auto;
    try lia.
  f_equal. apply IH. lia.
Qed.

Lemma firstn_seq_le (k n : nat) :
  forall s : nat, (k <= n)%nat -> firstn k (seq s n) = seq s k.
Proof.
  revert n. induction k as [|k IH]; intros [|n] s Hk; simpl; auto; try lia.
  f_equal. apply IH. lia.
Qed.

Lemma interior_of_map_seq {A : Type} (f : nat -> A) (m : nat) (v : A) :
  py_slice (upd (map f (seq 0 (m + 2))) (m + 2 - 1) v) 1 (-1)
  = map f (seq 1 m).
Proof.
  unfold py_slice, len. rewrite length_upd, length_map, length_seq.
  unfold slice_bound.
  replace ((1 <? 0)%Z) with false by reflexivity.
  replace ((-1 <? 0)%Z) with true by reflexivity.
  replace (Z.to_nat (Z.min 1 (Z.of_nat (m + 2)))) with 1%nat by lia.
  replace (Z.to_nat (Z.max (-1 + Z.of_nat (m + 2)) 0)) with (m + 1)%nat by lia.
  replace (m + 1 - 1)%nat with m by lia.
  replace (m + 2 - 1)%nat with (S m) by lia.
  replace (m + 2)%nat with (S (S m)) by lia.
  change (map f (seq 0 (S (S m)))) with (f 0%nat :: map f (seq 1 (S m))).
  change (skipn 1 (upd (f 0%nat :: map f (seq 1 (S m))) (S m) v))
    with (upd (map f (seq 1 (S m))) m v).
  rewrite firstn_upd by lia.
  rewrite firstn_map. f_equal. apply firstn_seq_le. lia.
Qed.

(** The interior of [linspace(a, b, m+2)] is [a + k (b-a)/(m+1)] for
    [k = 1 .. m], up to the two ways NumPy has of multiplying it out. *)
Lemma linspace_interior (a b : Q) (m : nat) :
  exists g : nat -> Q,
    py_slice (linspace a b (m + 2)) 1 (-1) = map g (seq 1 m)
    /\ forall k, g k == inject_Z (Z.of_nat k) * ((b - a) / inject_Z (Z.of_nat m + 1)) + a.
Proof.
  unfold linspace.
  replace (0 <? Z.of_nat (m + 2) - 1)%Z with true
    by (symmetry; apply Z.ltb_lt; lia).
  replace (1 <? m + 2)%nat with true by (symmetry; apply Nat.ltb_lt; lia).
  replace (Z.of_nat (m + 2) - 1)%Z with (Z.of_nat m + 1)%Z by lia.
  assert (HD : ~ inject_Z (Z.of_nat m + 1) == 0).
  { intros E. apply (Qlt_irrefl 0). rewrite <- E at 2.
    change 0 with (inject_Z 0). rewrite <- Zlt_Qlt. lia. }
  cbn [zero one add sub mul div eqb of_Z Num_Q].
  destruct (Qeq_bool ((b - a) / inject_Z (Z.of_nat m + 1)) 0) eqn:E;
    rewrite !map_map.
  - eexists. split; [apply interior_of_map_seq|].
    intros k. cbv beta. field. assumption.
  - eexists. split; [apply interior_of_map_seq|].
    intros k. cbv beta. reflexivity.
Qed.

Lemma uniformknots_clamped (m p : nat) (a b : Q) :
  a <= b -> clamped p a b (uniformknots m p a b).
Proof.
  intros Hab. unfold uniformknots.
  destruct (linspace_interior a b m) as [g [-> Hg]].
  set (D := inject_Z (Z.of_nat m + 1)) in *.
  assert (HD : 0 < D).
  { unfold D. change 0 with (inject_Z 0). rewrite <- Zlt_Qlt. lia. }
  set (s := (b - a) / D) in *.
  assert (Hs : 0 <= s).
  { unfold s. apply Qle_shift_div_l; [assumption|]. lra. }
  assert (HsD : s * D == b - a).
  { unfold s. field. intros E. rewrite E in HD. apply (Qlt_irrefl _ HD). }
  assert (Hmono : forall k k', (k <= k')%nat ->
            inject_Z (Z.of_nat k) * s <= inject_Z (Z.of_nat k') * s).
  { intros k k' Hk. apply Qmult_le_compat_r; [|assumption].
    rewrite <- Zle_Qle. lia. }
  apply clamped_build; [assumption| |].
  - apply sorted_map_seq. intros k k' _ Hk _.
    rewrite !Hg. specialize (Hmono k k' Hk). lra.
  - intros x Hx. apply in_map_iff in Hx. destruct Hx as [k [<- Hk]].
    apply in_seq in Hk. rewrite !Hg.
    pose proof (Hmono 0%nat k ltac:(lia)) as H0.
    pose proof (Hmono k (m + 1)%nat ltac:(lia)) as H1.
    replace (Z.of_nat (m + 1)) with (Z.of_nat m + 1)%Z in H1 by lia.
    fold D in H1. change (inject_Z (Z.of_nat 0)) with 0 in H0.
    split; lra.
Qed.

(** C5 (as amended).  For [a <= b]: the vectors of [uniformknots], of
    [customknots] on sorted interior knots in [[a, b]], and of
    [kmeansknots] when the cluster centres lie in [[a, b]] have their first
    and last [p+1] entries equal to [a] and [b] and are non-decreasing;
    the vector of [averageknots] has its first and last [p+1] entries equal
    to [a] and [b]. *)
Theorem knot_builders_clamped (p : nat) (a b : Q) :
  a <= b ->
  (forall m, clamped p a b (uniformknots m p a b))
  /\ (forall t, nondecreasing t -> (forall x, In x t -> a <= x /\ x <= b) ->
        clamped p a b (customknots t p a b))
  /\ (forall (kmeans : list Q -> nat -> list Q) s m,
        (forall c, In c (kmeans s m) -> a <= c /\ c <= b) ->
        clamped p a b (kmeansknots kmeans s m p a b))
  /\ (forall s m U, averageknots s m p a b = Some U -> clamped_ends p a b U).
Proof.
  intros Hab. split; [|split; [|split]].
  - intros m. apply uniformknots_clamped. assumption.
  - intros t Ht Hin. unfold customknots.
    apply clamped_build; auto using sorted_of_nondecreasing.
  - intros kmeans s m Hin. unfold kmeansknots.
    apply clamped_build; [assumption | apply np_sort_sorted |].
    intros x Hx. apply Hin. apply (proj1 (np_sort_in x (kmeans s m))).
    exact Hx.
  - intros s m U HU. unfold averageknots in HU. inv_bind HU.
    injection HU as <-. apply clamped_ends_build.
Qed.

Lemma knot_builders_clamped_witness :
  clamped 3 0 1 (uniformknots 3 3 0 1).
Proof.
  exact (proj1 (knot_builders_clamped 3 (a:=0) (b:=1) ltac:(discriminate)) 3%nat).
Defined.

(** C5 (the claim as stated fails).  [kmeansknots] does not confine the
    cluster centres to [[a, b]]: for the single sample 5, whose only
    cluster centre is 5, and [a = 0], [b = 1] the vector is
    [0, 0, 5, 1, 1].  [averageknots] on the sorted samples [1, 3/2, 2] of
    [[1, 2]] with [p = 2] puts the knots 1/2 and 3/4 after the boundary
    knots 1. *)
Lemma knot_builders_not_always_sorted :
  kmeansknots (fun (s : list Q) (_ : nat) => s) [5] 1 1 0 1 = [0; 0; 5; 1; 1]
  /\ ~ nondecreasing [0; 0; 5; 1; 1]
  /\ exists U,
       averageknots [1; 3 # 2; 2] 0 2 1 2 = Some U
       /\ nth 2 U 0 == 1 /\ nth 3 U 0 == 1 # 2 /\ nth 4 U 0 == 3 # 4
       /\ ~ nondecreasing U.
Proof.
  split; [reflexivity|]. split.
  - intros Hs. specialize (Hs 2%nat 3%nat). simpl in Hs.
    assert (H : 5 <= 1) by (apply Hs; lia).
    unfold Qle in H. simpl in H. lia.
  - eexists. split; [vm_compute; reflexivity|].
    split; [reflexivity|]. split; [reflexivity|]. split; [reflexivity|].
    intros Hs. specialize (Hs 2%nat 3%nat). simpl in Hs.
    assert (H : 1 <= 1 # 2) by (apply Hs; lia).
    unfold Qle in H. simpl in H. lia.
Qed.

(** *** The linear range map *)

Lemma fold_left_repeat_same (f : Q -> Q -> Q) (v : Q) (n : nat) :
  f v v = v -> fold_left f (repeat v n) v = v.
Proof.
  intros Hf. induction n as [|n IH]; simpl; [reflexivity|].
  rewrite Hf. exact IH.
Qed.

(** The part of C7 that holds: on equal values [xmap] replaces its zero
    denominator by 1 and returns [a] for every sample. *)
Lemma xmap_equal_values (v a b : Q) (n : nat) :
  exists l,
    xmap (repeat v (S n)) a b = Some l
    /\ length l = S n
    /\ forall e, In e l -> e == a.
Proof.
  unfold xmap. cbn [repeat py_max py_min bind].
  assert (Hlt : ltb v v = false) by (apply Q_ltb_false; apply Qle_refl).
  rewrite !fold_left_repeat_same by (rewrite Hlt; reflexivity).
  cbn [bind].
  assert (Hc : isclose (sub v v) zero = true).
  { cbn [isclose sub zero Num_Q]. unfold QNum.isclose.
    apply Qle_bool_iff.
    assert (E : v - v - 0 == 0) by ring.
    rewrite E. discriminate. }
  rewrite Hc. eexists. split; [reflexivity|]. split.
  - rewrite !length_map. simpl. rewrite repeat_length. reflexivity.
  - intros e He. rewrite map_map in He. apply in_map_iff in He.
    destruct He as [x [<- Hx]].
    change (In x (repeat v (S n))) in Hx. apply repeat_spec in Hx. subst x.
    cbn [add sub mul div one Num_Q]. field.
Qed.

(** *** The clamp of the transfinite inversion *)

Lemma clamp_unit_interval (x : Q) : 0 <= clamp x /\ clamp x <= 1.
Proof.
  unfold clamp.
  change (@zero Q Num_Q) with 0. change (@one Q Num_Q) with 1.
  destruct (ltb x 0) eqn:E0.
  - split; [apply Qle_refl | discriminate].
  - apply Q_ltb_false in E0.
    destruct (ltb 1 x) eqn:E1.
    + split; [discriminate | apply Qle_refl].
    + apply Q_ltb_false in E1. split; assumption.
Qed.

Section InversionProperties.

Variable root : (Q * Q -> option (Q * Q)) -> Q * Q -> option (RootResult Q).

(** C8.  Whatever [uvinv] returns lies in the unit square.  Whenever the
    boundary curves can be evaluated at their end points and the solver
    returns a result, with the flag [success] set or not, [uvinv] returns
    the clamped iterate of that result. *)
Theorem uvinv_clamps_iterate (xp yp u0 v0 : Q) (l r b t : Curve Q) :
  (forall u v, uvinv root xp yp u0 v0 l r b t = Some (u, v) ->
     (0 <= u /\ u <= 1) /\ (0 <= v /\ v <= 1))
  /\ (forall f rt,
        uvinv_residual xp yp l r b t = Some f ->
        root f (u0, v0) = Some rt ->
        uvinv root xp yp u0 v0 l r b t
        = Some (clamp (fst (root_x rt)), clamp (snd (root_x rt)))).
Proof.
  split.
  - intros u v Huv. unfold uvinv in Huv.
    inv_bind Huv. inv_bind Huv. injection Huv as <- <-.
    split; apply clamp_unit_interval.
  - intros f rt Hf Hrt. unfold uvinv. rewrite Hf. cbn [bind].
    rewrite Hrt. reflexivity.
Qed.

End InversionProperties.

Lemma uvinv_clamps_iterate_witness :
  uvinv (fun _ _ => Some (mkRoot (3 # 2, - (1 # 4)) false))
        (3 # 10) (2 # 5) (1 # 2) (1 # 2)
        (edge 0 0 0 1) (edge 1 0 1 1) (edge 0 0 1 0) (edge 0 1 1 1)
  = Some (1, 0).
Proof.
  destruct (uvinv_residual (3 # 10) (2 # 5)
              (edge 0 0 0 1) (edge 1 0 1 1) (edge 0 0 1 0) (edge 0 1 1 1))
    as [f|] eqn:Hf; [|discriminate Hf].
  exact (proj2 (uvinv_clamps_iterate
                  (fun _ _ => Some (mkRoot (3 # 2, - (1 # 4)) false))
                  (3 # 10) (2 # 5) (1 # 2) (1 # 2)
                  (edge 0 0 0 1) (edge 1 0 1 1) (edge 0 0 1 0) (edge 0 1 1 1))
               f (mkRoot (3 # 2, - (1 # 4)) false) Hf eq_refl).
Defined.

End Rationals.

(** ** Runs of the code on binary64 inputs *)

Section Runs.

Open Scope float_scope.

(** C4.  On the quadratic Bezier segment with knots [0,0,0,1,1,1] and
    control points [1,2,3], [curvepoint] at [u = U[0] = 0] returns 3, the
    last control point, not the first: [findspan] is called with
    [n = len(P) - p = 1], finds [u == U[n+1]] and returns the span 1, and
    the sum then reads [P[1 - 2 + 0] = P[-1]] with the weight 1. *)
Theorem curvepoint_first_knot_returns_last_point :
  findspan (R:=float) 1 2 0 [0; 0; 0; 1; 1; 1] = Some 1%Z
  /\ basisfuns (R:=float) 1 0 2 [0; 0; 0; 1; 1; 1] = Some [1; 0; 0]
  /\ curvepoint (R:=float) 2 [0; 0; 0; 1; 1; 1] [1; 2; 3] 0 = Some 3
  /\ curvepoint (R:=float) 2 [0; 0; 0; 1; 1; 1] [1; 2; 3] 1 = Some 3.
Proof. repeat split; vm_compute; reflexivity. Qed.

(** C6.  For the constant samples [1, 1, 1] with [m = 0] and [p = 2],
    [averageknots] places two interior knots, both 0.5: each is the sum of
    a window of [p - 1 = 1] sample divided by [p = 2].  The mean of any
    window of these samples is 1. *)
Theorem averageknots_constant_samples :
  averageknots (R:=float) [1; 1; 1] 0 2 0 1
  = Some [0; 0; 0; 0.5; 0.5; 1; 1; 1]
  /\ window_average (R:=float) [1; 1; 1] 2 0 = Some 0.5.
Proof. split; vm_compute; reflexivity. Qed.

(** C7.  For two coincident points the cumulated chord lengths are [0, 0],
    the denominator [max(d) - min(d)] of [chords] is 0, and the division
    0/0 is carried out: every returned parameter is NaN.  [xmap] on equal
    values replaces its zero denominator by 1. *)
Theorem chords_coincident_points_divide_by_zero :
  chord_lengths (R:=float) [0; 0] [0; 0] None = Some [0; 0]
  /\ chords_denom (R:=float) [0; 0] = Some 0
  /\ chords (R:=float) [0; 0] [0; 0] None 0 1 = Some [nan; nan]
  /\ xmap (R:=float) [2; 2] 0 1 = Some [0; 0].
Proof. repeat split; vm_compute; reflexivity. Qed.

Lemma lsq_pins_boundary_witness :
  exists y0 yl,
    py_index [0; 2; 1] 0 = Some y0 /\ py_index [0; 2; 1] (-1) = Some yl
    /\ py_index [0; 1] 0 = Some y0 /\ py_index [0; 1] (-1) = Some yl.
Proof.
  apply (@lsq_pins_boundary float _ _ svd_diag
           [0; 0; 1] [0; 2; 1] [0; 0; 1; 1] 1%nat 0 1e-6 0 (WScalar 0)
           [0; 1] 1.4142135623730951).
  - reflexivity.
  - discriminate.
  - vm_compute. reflexivity.
Defined.

(** C10.  The residual that [lsq] returns is [||A.p0 - b||] for the
    solution [p0] of [svd_inv], computed before [p0[0]] and [p0[-1]] are
    overwritten.  For the samples [x = [0, 0, 1]], [y = [0, 2, 1]] on the
    knots [0, 0, 1, 1] with degree 1 the system matrix is [diag(2, 1)], the
    solution is [p0 = [1, 1]] with residual [sqrt 2], and [lsq] returns
    [P = [0, 1]] with that residual, while [||A.P - b||] is 2. *)
Theorem lsq_residual_before_pinning :
  (forall (R : Type) (HN : Num R) (HS : Sqrt R)
          (svd : matrix R -> option (matrix R * list R * matrix R))
          (x y U : list R) (p : nat) (s tol a : R) (w : weights R)
          (P : list R) (res : R),
      lsq svd x y U p s tol a w = Some (P, res) ->
      exists A b R_ p0,
        lsq_system x y U p a w = Some (A, b, R_)
        /\ svd_inv svd (Z.to_nat (len U - 1 - Z.of_nat p)) A b s tol R_ = Some p0
        /\ res = residual A p0 b
        /\ interpolate_ends p0 y = Some P)
  /\ (let x := [0; 0; 1] in
      let y := [0; 2; 1] in
      let U := [0; 0; 1; 1] in
      let A := [[1; 0]; [1; 0]; [0; 1]] in
      let M := [[2; 0]; [0; 1]] in
      lsq_system x y U 1%nat 0 (WScalar 0) = Some (A, y, [[0; 0]; [0; 0]])
      /\ normal_matrix 2%nat A 0 [[0; 0]; [0; 0]] = M
      /\ svd_diag M = Some (eye 2%nat, [2; 1], eye 2%nat)
      /\ matmul 2%nat (matmul 2%nat (eye 2%nat) (diag [2; 1])) (eye 2%nat) = M
      /\ svd_inv svd_diag 2%nat A y 0 1e-6 [[0; 0]; [0; 0]] = Some [1; 1]
      /\ lsq svd_diag x y U 1%nat 0 1e-6 0 (WScalar 0)
         = Some ([0; 1], 1.4142135623730951)
      /\ residual A [1; 1] y = 1.4142135623730951
      /\ residual A [0; 1] y = 2
      /\ eqb 1.4142135623730951 (residual A [0; 1] y) = false).
Proof.
  split.
  - intros R HN HS svd x y U p s tol a w P res Hl.
    apply (lsq_residual_of_solution _ _ _ _ _ _ _ _ _ Hl).
  - cbv zeta. repeat split; vm_compute; reflexivity.
Qed.

Lemma lsq_residual_before_pinning_witness :
  exists A b R_ p0,
    lsq_system (R:=float) [0; 0; 1] [0; 2; 1] [0; 0; 1; 1] 1%nat 0 (WScalar 0)
    = Some (A, b, R_)
    /\ svd_inv svd_diag 2%nat A b 0 1e-6 R_ = Some p0
    /\ 1.4142135623730951 = residual A p0 b
    /\ interpolate_ends p0 [0; 2; 1] = Some [0; 1].
Proof.
  apply (proj1 lsq_residual_before_pinning float _ _ svd_diag
           [0; 0; 1] [0; 2; 1] [0; 0; 1; 1] 1%nat 0 1e-6 0 (WScalar 0)
           [0; 1] 1.4142135623730951).
  vm_compute. reflexivity.
Defined.

End Runs.

(** C9 (the claim as stated fails).  In [derivative_matrix(4)] the entries
    [D[0,2]] and [D[3,0]] are 1, two and three columns off the diagonal. *)
Lemma derivative_matrix_not_tridiagonal :
  exists D : matrix Q,
    derivative_matrix 4 = Some D
    /\ entry D 0 2 = 1%Q
    /\ entry D 3 0 = 1%Q
    /\ ~ (forall i j : nat, (i < 4)%nat -> (j < 4)%nat ->
            ~ (entry D i j == 0)%Q -> (i <= j + 1 /\ j <= i + 1)%nat).
Proof.
  eexists. split; [reflexivity|]. split; [reflexivity|]. split; [reflexivity|].
  intros Hc.
  destruct (Hc 0%nat 2%nat) as [_ Hc']; [lia | lia | | lia].
  intros E. discriminate E.
Qed.

(** * Further properties *)

(** ** Shapes *)

Section Shapes.

Context {R : Type} `{Num R}.

Lemma basis_inner_length (left right : list R) (j k : nat) :
  forall (r : nat) (N : list R) (saved : R),
    length (fst (basis_inner left right j k r N saved)) = length N.
Proof.
  induction k as [|k IH]; intros r N saved; cbn [basis_inner]; [reflexivity|].
  destruct (isclose _ zero).
  - cbn [fst]. apply length_upd.
  - rewrite IH. apply length_upd.
Qed.

Lemma basis_outer_length (U : list R) (i : Z) (u : R) (k : nat) :
  forall (j : nat) (left right N N' : list R),
    basis_outer U i u k j left right N = Some N' -> length N' = length N.
Proof.
  induction k as [|k IH]; intros j left right N N' Hb; cbn [basis_outer] in Hb.
  - injection Hb as <-. reflexivity.
  - inv_bind Hb. inv_bind Hb.
    pose proof (basis_inner_length (upd left j (sub u a)) (upd right j (sub a0 u))
                  j j 0 N zero) as Hlen.
    destruct (basis_inner (upd left j (sub u a)) (upd right j (sub a0 u)) j j 0 N zero)
      as [N1 saved].
    cbn [fst] in Hlen. apply IH in Hb. rewrite Hb, length_upd. exact Hlen.
Qed.

(** X1.  Whenever [basisfuns] returns, it returns [p+1] values, for every
    span index and parameter. *)
Theorem basisfuns_length (i : Z) (u : R) (p : nat) (U N : list R) :
  basisfuns i u p U = Some N -> length N = (p + 1)%nat.
Proof.
  unfold basisfuns. intros Hb. inv_bind Hb.
  destruct (isclose u a).
  { injection Hb as <-. simpl. rewrite repeat_length. lia. }
  inv_bind Hb. destruct (isclose u a0).
  { injection Hb as <-. rewrite length_app, repeat_length. reflexivity. }
  apply basis_outer_length in Hb. rewrite Hb, length_upd. apply repeat_length.
Qed.

Lemma linspace_length (a b : R) (num : nat) : length (linspace a b num) = num.
Proof.
  unfold linspace.
  assert (Hy : forall (f g : R -> R),
             length (map g (map f (map (fun k => of_Z (Z.of_nat k)) (seq 0 num))))
             = num)
    by (intros; rewrite !length_map; apply length_seq).
  destruct (0 <? Z.of_nat num - 1)%Z; [destruct (eqb _ zero)|];
    destruct (1 <? num)%nat; rewrite ?length_upd; apply Hy.
Qed.

Lemma py_slice_interior_length {A : Type} (l : list A) (m : nat) :
  length l = (m + 2)%nat -> length (py_slice l 1 (-1)) = m.
Proof.
  intros Hl. unfold py_slice, len, slice_bound. rewrite Hl.
  replace ((1 <? 0)%Z) with false by reflexivity.
  replace ((-1 <? 0)%Z) with true by reflexivity.
  rewrite length_firstn, length_skipn, Hl. lia.
Qed.

Lemma mapM_length {A B : Type} (f : A -> option B) (l : list A) :
  forall l', mapM f l = Some l' -> length l' = length l.
Proof.
  induction l as [|a l IH]; intros l' Hm; cbn [mapM] in Hm.
  - injection Hm as <-. reflexivity.
  - inv_bind Hm. inv_bind Hm. injection Hm as <-.
    simpl. f_equal. apply IH. assumption.
Qed.

Lemma uniformknots_length (m p : nat) (a b : R) :
  length (uniformknots m p a b) = (m + 2 * (p + 1))%nat.
Proof.
  unfold uniformknots. rewrite !length_app, !repeat_length.
  rewrite (@py_slice_interior_length _ _ m) by apply linspace_length. lia.
Qed.

(** X2.  The number of knots: [uniformknots] returns [m + 2(p+1)] knots,
    [customknots] as many as it is given plus [2(p+1)], and [averageknots],
    whenever it returns, [m + 2 + 2(p+1)]: two interior knots more than the
    [m] its argument asks for. *)
Theorem knot_vector_lengths (m p : nat) (a b : R) :
  length (uniformknots m p a b) = (m + 2 * (p + 1))%nat
  /\ (forall t, length (customknots t p a b) = (length t + 2 * (p + 1))%nat)
  /\ (forall s U, averageknots s m p a b = Some U ->
                  length U = (m + 2 + 2 * (p + 1))%nat).
Proof.
  split; [apply uniformknots_length|split].
  - intros t. unfold customknots. rewrite !length_app, !repeat_length. lia.
  - intros s U HU. unfold averageknots in HU. inv_bind HU.
    injection HU as <-. rewrite !length_app, !repeat_length.
    apply mapM_length in E. rewrite E. unfold range.
    rewrite length_map, length_seq. lia.
Qed.

End Shapes.

(** ** The fit and its callers *)

Section FitCallers.

Context {R : Type} `{Num R} `{Sqrt R} `{Literals R}.

Variable svd : matrix R -> option (matrix R * list R * matrix R).
Variable kmeans : list R -> nat -> list R.

Lemma interpolate_ends_length (p0 y P : list R) :
  interpolate_ends p0 y = Some P -> length P = length p0.
Proof.
  unfold interpolate_ends. intros Hi.
  inv_bind Hi. inv_bind Hi. inv_bind Hi.
  destruct (py_set_some _ _ _ E0) as [k0 [_ [-> _]]].
  destruct (py_set_some _ _ _ Hi) as [k1 [_ [-> _]]].
  rewrite !length_upd. reflexivity.
Qed.

(** What a returning call of [lsq] yields: at least two control points, as
    many as the knot vector and the degree demand, the first and last of
    them the first and last target value. *)
Lemma lsq_result (x y U : list R) (p : nat) (s tol a : R) (w : weights R)
    (P : list R) (res : R) :
  lsq svd x y U p s tol a w = Some (P, res) ->
  (2 <= length P)%nat
  /\ len U = (Z.of_nat p + len P + 1)%Z
  /\ py_index P 0 = py_index y 0
  /\ py_index P (-1) = py_index y (-1).
Proof.
  intros Hl. unfold lsq in Hl.
  inv_bind Hl. destruct a0 as [[A b] R_]. rename E into Hsys.
  inv_bind Hl. rename a0 into p0, E into Hp0.
  inv_bind Hl. rename a0 into P', E into HP.
  injection Hl as -> <-.
  pose proof (svd_inv_length _ _ _ _ _ _ _ Hp0) as Hlen.
  pose proof (lsq_system_size _ _ _ _ _ _ Hsys) as Hsize.
  pose proof (interpolate_ends_length _ _ HP) as HlenP.
  destruct (interpolate_ends_spec p0 y ltac:(lia) HP)
    as [y0 [yl [Hy0 [Hyl [HP0 HPl]]]]].
  split; [lia|]. split; [unfold len in *; lia|].
  split; congruence.
Qed.

(** X3.  The control points that [lsq] returns satisfy the assertion of
    [Curve.__init__]: [len(U) == p + len(P) + 1]; there are at least two of
    them. *)
Theorem lsq_control_point_count (x y U : list R) (p : nat) (s tol a : R)
    (w : weights R) (P : list R) (res : R) :
  lsq svd x y U p s tol a w = Some (P, res) ->
  len U = (Z.of_nat p + len P + 1)%Z /\ (2 <= length P)%nat.
Proof.
  intros Hl. destruct (lsq_result _ _ _ _ _ _ _ _ Hl) as [H2 [HU _]].
  split; assumption.
Qed.

Lemma lsq2_result (s x y U : list R) (p : nat) (smooth : R)
    (Px Py : list R) (res : R * R) :
  lsq2 svd s x y U p smooth = Some (Px, Py, res) ->
  length Px = length Py
  /\ len U = (Z.of_nat p + len Px + 1)%Z
  /\ py_index Px 0 = py_index x 0 /\ py_index Px (-1) = py_index x (-1)
  /\ py_index Py 0 = py_index y 0 /\ py_index Py (-1) = py_index y (-1).
Proof.
  unfold lsq2. intros Hl.
  inv_bind Hl. destruct a as [Px' rx].
  inv_bind Hl. destruct a as [Py' ry].
  injection Hl as <- <- <-.
  destruct (lsq_result _ _ _ _ _ _ _ _ E) as [_ [HUx [Hx0 Hxl]]].
  destruct (lsq_result _ _ _ _ _ _ _ _ E0) as [_ [HUy [Hy0 Hyl]]].
  split; [unfold len in *; lia|]. auto.
Qed.

(** X4.  [lsq2] fits both coordinates over the same parameters: whenever
    it returns, the two control polygons have the same length,
    [len(U) - p - 1], and start and end at the first and last data
    point. *)
Theorem lsq2_interpolates_end_points (s x y U : list R) (p : nat) (smooth : R)
    (Px Py : list R) (res : R * R) :
  lsq2 svd s x y U p smooth = Some (Px, Py, res) ->
  length Px = length Py
  /\ len U = (Z.of_nat p + len Px + 1)%Z
  /\ py_index Px 0 = py_index x 0 /\ py_index Px (-1) = py_index x (-1)
  /\ py_index Py 0 = py_index y 0 /\ py_index Py (-1) = py_index y (-1).
Proof. apply lsq2_result. Qed.

(** X5.  [lsq2l2] raises for a [knots] other than ['uniform'] and
    ['kmeans'].  With ['uniform'], whenever it returns, the knot vector is
    [uniformknots(m, p, 0, 1)], each control polygon has [m + p + 1] points,
    and it starts and ends at the first and last data point. *)
Theorem lsq2l2_uniform (x y : list R) (m p : nat) (smooth : R) :
  lsq2l2 svd kmeans x y m p KnotsOther smooth = None
  /\ forall Px Py U res,
       lsq2l2 svd kmeans x y m p KnotsUniform smooth = Some (Px, Py, U, res) ->
       U = uniformknots m p zero one
       /\ length Px = (m + p + 1)%nat /\ length Py = (m + p + 1)%nat
       /\ py_index Px 0 = py_index x 0 /\ py_index Px (-1) = py_index x (-1)
       /\ py_index Py 0 = py_index y 0 /\ py_index Py (-1) = py_index y (-1).
Proof.
  split.
  - unfold lsq2l2. destruct (chords x y None zero one); reflexivity.
  - intros Px Py U res Hl. unfold lsq2l2 in Hl.
    inv_bind Hl. cbn [bind] in Hl.
    inv_bind Hl. destruct a0 as [[Px' Py'] res'].
    injection Hl as <- <- <- <-.
    destruct (lsq2_result _ _ _ _ _ _ E0) as [Hlen [HU Hends]].
    pose proof (uniformknots_length m p zero one) as HlenU.
    unfold len in HU. split; [reflexivity|].
    split; [lia|]. split; [lia|]. exact Hends.
Qed.

End FitCallers.

Section FitCallersRuns.

Open Scope float_scope.

Lemma basisfuns_length_witness :
  exists N,
    basisfuns (R:=float) 3 0.3 2 [0; 0; 0; 0.25; 0.5; 1; 1; 1] = Some N
    /\ length N = 3%nat.
Proof.
  destruct (basisfuns (R:=float) 3 0.3 2 [0; 0; 0; 0.25; 0.5; 1; 1; 1])
    as [N|] eqn:E; [|vm_compute in E; discriminate E].
  exists N. split; [reflexivity|].
  exact (basisfuns_length _ _ _ _ E).
Defined.

Lemma lsq_control_point_count_witness :
  len [0; 0; 1; 1] = (Z.of_nat 1 + len [0; 1] + 1)%Z
  /\ (2 <= length [0; 1])%nat.
Proof.
  apply (@lsq_control_point_count float _ _ svd_diag
           [0; 0; 1] [0; 2; 1] [0; 0; 1; 1] 1%nat 0 1e-6 0 (WScalar 0)
           [0; 1] 1.4142135623730951).
  vm_compute. reflexivity.
Defined.

Lemma lsq2_interpolates_end_points_witness :
  exists Px Py res,
    lsq2 svd_diag [0; 0; 1] [0; 2; 1] [5; 6; 7] [0; 0; 1; 1] 1%nat 0
    = Some (Px, Py, res)
    /\ py_index Px 0 = Some 0 /\ py_index Px (-1) = Some 1
    /\ py_index Py 0 = Some 5 /\ py_index Py (-1) = Some 7.
Proof.
  destruct (lsq2 svd_diag [0; 0; 1] [0; 2; 1] [5; 6; 7] [0; 0; 1; 1] 1%nat 0)
    as [[[Px Py] res]|] eqn:E; [|vm_compute in E; discriminate E].
  exists Px, Py, res. split; [reflexivity|].
  exact (proj2 (proj2 (lsq2_interpolates_end_points _ _ _ _ _ _ _ E))).
Defined.

Lemma lsq2l2_uniform_witness :
  exists Px Py U res,
    lsq2l2 svd_diag (fun s _ => s) [0; 0; 1] [0; 0; 0] 0 1 KnotsUniform 0
    = Some (Px, Py, U, res)
    /\ U = [0; 0; 1; 1] /\ length Px = 2%nat /\ length Py = 2%nat.
Proof.
  destruct (lsq2l2 svd_diag (fun s _ => s) [0; 0; 1] [0; 0; 0] 0 1
              KnotsUniform 0)
    as [[[[Px Py] U] res]|] eqn:E; [|vm_compute in E; discriminate E].
  exists Px, Py, U, res. split; [reflexivity|].
  destruct (proj2 (lsq2l2_uniform svd_diag (fun s _ => s)
                     [0; 0; 1] [0; 0; 0] 0 1 0) _ _ _ _ E)
    as [HU [HPx [HPy _]]].
  split; [rewrite HU; vm_compute; reflexivity|]. split; assumption.
Defined.

End FitCallersRuns.

(** ** Span location over the whole scanned range *)

Section FindspanRange.

Open Scope Q_scope.

Variable U : list Q.
Variable u : Q.
Variable n : Z.
Variable p : nat.

Hypothesis n_nonneg : (0 <= n)%Z.
Hypothesis scan_inside : (Z.of_nat p + n < len U)%Z.
Hypothesis special_inside : (n + 1 < len U)%Z.

Lemma findspan_scans :
  ~ u == knot_at U (n + 1) ->
  findspan n p u U = findspan_scan U u n (Z.of_nat p) (Z.to_nat n).
Proof.
  intros Hne. unfold findspan.
  rewrite (py_index_nonneg U 0 (k:=(n + 1)%Z)) by lia. cbn [bind].
  fold (knot_at U (n + 1)).
  destruct (eqb u (knot_at U (n + 1))) eqn:E; [|reflexivity].
  apply Q_eqb in E. contradiction.
Qed.

(** The scan stops at the first span of [p .. p+n-1] that holds [u]. *)
Lemma findspan_scan_result :
  ~ u == knot_at U (n + 1) ->
  knot_at U (Z.of_nat p) <= u -> u < knot_at U (Z.of_nat p + n) ->
  exists i,
    findspan n p u U = Some i
    /\ (Z.of_nat p <= i < Z.of_nat p + n)%Z
    /\ in_span U u i
    /\ forall t, (Z.of_nat p <= t < i)%Z -> ~ in_span U u t.
Proof.
  intros Hne Hlo Hhi.
  assert (Hn : (1 <= n)%Z).
  { destruct (Z_lt_ge_dec 0 n) as [Hpos|Hz]; [lia|].
    replace n with 0%Z in Hhi by lia. rewrite Z.add_0_r in Hhi.
    exfalso. apply (Qlt_not_le _ _ Hhi Hlo). }
  destruct (@first_span_exists U u (Z.to_nat (n - 1)) (Z.of_nat p))
    as [m [Hm [Hspan Hfirst]]]; [lia | exact Hlo | |].
  { replace (Z.of_nat p + Z.of_nat (Z.to_nat (n - 1)) + 1)%Z
      with (Z.of_nat p + n)%Z by lia. exact Hhi. }
  exists m. rewrite (findspan_scans Hne).
  split; [apply scan_first_match; try lia; assumption|].
  split; [lia|]. split; assumption.
Qed.

(** X6.  The loop of [findspan] scans the spans [p .. p+n-1]: for [u]
    other than the knot [U[n+1]] of the special case and with
    [U[p] <= u < U[p+n]], the result is the first span [i] of that range
    with [U[i] <= u < U[i+1]]. *)
Theorem findspan_first_span :
  ~ u == knot_at U (n + 1) ->
  knot_at U (Z.of_nat p) <= u -> u < knot_at U (Z.of_nat p + n) ->
  exists i,
    findspan n p u U = Some i
    /\ (Z.of_nat p <= i < Z.of_nat p + n)%Z
    /\ in_span U u i
    /\ forall t, (Z.of_nat p <= t < i)%Z -> ~ in_span U u t.
Proof.
  exact findspan_scan_result.
Qed.

(** X7.  For a parameter outside the scanned knots of a non-decreasing
    knot vector, below [U[p]] or at or above [U[p+n]], [findspan] raises
    nothing and returns [n]. *)
Theorem findspan_outside_domain :
  nondecreasing U ->
  u < knot_at U (Z.of_nat p) \/ knot_at U (Z.of_nat p + n) <= u ->
  findspan n p u U = Some n.
Proof.
  intros Hsorted Hout. unfold findspan.
  rewrite (py_index_nonneg U 0 (k:=(n + 1)%Z)) by lia. cbn [bind].
  destruct (eqb u (nth (Z.to_nat (n + 1)) U 0)); [reflexivity|].
  apply scan_no_match; [lia | lia |].
  intros t Ht [Hlo Hhi]. cbv beta in Hlo, Hhi.
  destruct Hout as [Hbelow|Habove].
  - apply (Qlt_not_le _ _ Hbelow).
    apply Qle_trans with (nth (Z.to_nat t) U 0); [|exact Hlo].
    unfold knot_at. apply Hsorted; unfold len in *; lia.
  - apply (Qlt_not_le _ _ Hhi).
    apply Qle_trans with (knot_at U (Z.of_nat p + n)); [|exact Habove].
    unfold knot_at. apply Hsorted; unfold len in *; lia.
Qed.

End FindspanRange.

Lemma findspan_first_span_witness :
  exists i,
    findspan (R:=Q) 1 2 (1 # 2) [0; 0; 0; 1; 1; 1] = Some i
    /\ (2 <= i < 3)%Z.
Proof.
  destruct (@findspan_first_span [0; 0; 0; 1; 1; 1] (1 # 2) 1%Z 2%nat)
    as [i [Hi [Hr _]]].
  - discriminate.
  - reflexivity.
  - reflexivity.
  - discriminate.
  - discriminate.
  - reflexivity.
  - exists i. split; assumption.
Defined.

Lemma findspan_outside_domain_witness :
  findspan (R:=Q) 2 1 (3 # 2) [0; 0; 1 # 2; 1; 1] = Some 2%Z.
Proof.
  apply findspan_outside_domain.
  - discriminate.
  - reflexivity.
  - reflexivity.
  - apply sortedb_nondecreasing. reflexivity.
  - right. discriminate.
Defined.

(** ** Sign of the basis values and the convex hull *)

Section InnerSign.

Open Scope Q_scope.

Variables left right : list Q.
Variable j : nat.

Hypothesis denominators :
  forall t, (t < j)%nat ->
    isclose (nth (t + 1) right 0 + nth (j - t) left 0) 0 = false.
Hypothesis left_nonneg : forall t, 0 <= nth t left 0.
Hypothesis right_nonneg : forall t, 0 <= nth t right 0.

(** One pass of the inner loop keeps [N] and [saved] non-negative. *)
Lemma basis_inner_nonneg (k : nat) :
  forall (r : nat) (N : list Q) (saved : Q),
    (r + k <= j)%nat -> (j <= length N)%nat ->
    (forall t, 0 <= nth t N 0) -> 0 <= saved ->
    (forall t, 0 <= nth t (fst (basis_inner left right j k r N saved)) 0)
    /\ 0 <= snd (basis_inner left right j k r N saved).
Proof.
  induction k as [|k IH]; intros r N saved Hr Hlen HN Hs.
  - simpl. split; assumption.
  - cbn [basis_inner]. cbn [add zero mul div Num_Q].
    change (@isclose Q Num_Q) with QNum.isclose.
    pose proof (denominators (t:=r) ltac:(lia)) as Hd.
    cbn [isclose Num_Q] in Hd. rewrite Hd.
    apply isclose_zero_nonzero in Hd.
    set (denom := nth (r + 1) right 0 + nth (j - r) left 0) in *.
    assert (Hpos : 0 < denom).
    { pose proof (right_nonneg (r + 1)). pose proof (left_nonneg (j - r)).
      destruct (Qlt_le_dec 0 denom) as [Hlt|Hle]; [assumption|].
      exfalso. apply Hd. unfold denom in *. lra. }
    assert (Htemp : 0 <= nth r N 0 / denom).
    { apply Qle_shift_div_l; [assumption|]. pose proof (HN r). lra. }
    apply IH; try lia.
    + rewrite length_upd. lia.
    + intros t. rewrite nth_upd by lia.
      destruct (r =? t)%nat; [|apply HN].
      pose proof (Qmult_le_0_compat _ _ (right_nonneg (r + 1)) Htemp). lra.
    + apply Qmult_le_0_compat; [apply left_nonneg | assumption].
Qed.

End InnerSign.

Lemma sum_upto_app (k : nat) (l l' : list Q) :
  (k <= length l)%nat -> sum_upto k (l ++ l') = sum_upto k l.
Proof.
  induction k as [|k IH]; intros Hk; cbn [sum_upto]; [reflexivity|].
  rewrite IH by lia. rewrite app_nth1 by lia. reflexivity.
Qed.

Section BasisfunsSign.

Open Scope Q_scope.

Variable U : list Q.
Variable i : Z.
Variable u : Q.
Variable p : nat.

Hypothesis span_low : (Z.of_nat p <= i)%Z.
Hypothesis span_high : (i + 1 < len U)%Z.
Hypothesis knots_high : (i + Z.of_nat p < len U)%Z.
Hypothesis sorted : nondecreasing U.
Hypothesis width : QNum.atol < span_width U i.
Hypothesis u_low : knot_at U i <= u.
Hypothesis u_high : u <= knot_at U (i + 1).

Let filled (j : nat) (left right : list Q) : Prop :=
  length left = (p + 1)%nat /\ length right = (p + 1)%nat
  /\ forall t, (1 <= t < j)%nat ->
       nth t left 0
       = u - (fun t0 : Z => nth (Z.to_nat t0) U 0) (i + 1 - Z.of_nat t)%Z
       /\ nth t right 0
          = (fun t0 : Z => nth (Z.to_nat t0) U 0) (i + Z.of_nat t)%Z - u.

Lemma basis_outer_nonneg (k : nat) :
  forall (j : nat) (left right N : list Q),
    (j + k = p + 1)%nat -> (1 <= j)%nat ->
    filled j left right -> length N = (p + 1)%nat ->
    (forall t, 0 <= nth t left 0) -> (forall t, 0 <= nth t right 0) ->
    (forall t, 0 <= nth t N 0) ->
    forall N', basis_outer U i u k j left right N = Some N' ->
               forall t, 0 <= nth t N' 0.
Proof.
  induction k as [|k IH]; intros j left right N Hjk Hj Hf HN Hl Hr HNn N' Hb.
  - cbn [basis_outer] in Hb. injection Hb as <-. exact HNn.
  - cbn [basis_outer] in Hb.
    rewrite (py_index_nonneg U 0 (k:=(i + 1 - Z.of_nat j)%Z)) in Hb by lia.
    cbn [bind] in Hb.
    rewrite (py_index_nonneg U 0 (k:=(i + Z.of_nat j)%Z)) in Hb by lia.
    cbn [bind] in Hb. cbn [sub zero Num_Q] in Hb.
    set (left' := upd left j (u - nth (Z.to_nat (i + 1 - Z.of_nat j)) U 0)) in *.
    set (right' := upd right j (nth (Z.to_nat (i + Z.of_nat j)) U 0 - u)) in *.
    destruct Hf as [Hll [Hlr Hf]].
    assert (Hf' : filled (S j) left' right').
    { split; [unfold left'; rewrite length_upd; assumption|].
      split; [unfold right'; rewrite length_upd; assumption|].
      intros t Ht. unfold left', right'.
      destruct (Nat.eq_dec j t) as [->|Hne].
      - rewrite !nth_upd_same by lia. split; reflexivity.
      - rewrite !nth_upd_other by assumption. apply Hf. lia. }
    assert (Hl' : forall t, 0 <= nth t left' 0).
    { intros t. unfold left'. rewrite nth_upd by lia.
      destruct (j =? t)%nat; [|apply Hl].
      assert (nth (Z.to_nat (i + 1 - Z.of_nat j)) U 0 <= knot_at U i)
        by (unfold knot_at; apply sorted; unfold len in *; lia).
      lra. }
    assert (Hr' : forall t, 0 <= nth t right' 0).
    { intros t. unfold right'. rewrite nth_upd by lia.
      destruct (j =? t)%nat; [|apply Hr].
      assert (knot_at U (i + 1) <= nth (Z.to_nat (i + Z.of_nat j)) U 0)
        by (unfold knot_at; apply sorted; unfold len in *; lia).
      lra. }
    pose proof (@basis_inner_nonneg left' right' j
                  (@denominators_above U i u p span_low span_high knots_high
                     sorted width j left' right' Hf' ltac:(lia))
                  Hl' Hr' j 0%nat N 0 ltac:(lia) ltac:(lia) HNn (Qle_refl 0))
      as [HN1 Hs1].
    pose proof (@basis_inner_length Q _ left' right' j j 0%nat N 0) as Hlen1.
    destruct (basis_inner left' right' j j 0 N 0) as [N1 saved].
    cbn [fst snd] in HN1, Hs1, Hlen1.
    apply (IH (S j) left' right' (upd N1 j saved)); try lia; try assumption.
    + rewrite length_upd. lia.
    + intros t. rewrite nth_upd by lia.
      destruct (j =? t)%nat; [assumption | apply HN1].
Qed.

(** The values of [basisfuns] on a span that holds [u] and is wider than
    the tolerance: [p+1] non-negative numbers with sum 1. *)
Lemma basisfuns_convex :
  exists N,
    basisfuns i u p U = Some N
    /\ length N = (p + 1)%nat
    /\ sum_upto (p + 1) N == 1
    /\ forall t, 0 <= nth t N 0.
Proof.
  unfold basisfuns.
  rewrite (py_index_nonneg U 0 (k:=0%Z)) by lia. cbn [bind].
  destruct (isclose u (nth (Z.to_nat 0) U 0)).
  { exists (1 :: repeat 0 p). split; [reflexivity|].
    split; [simpl; rewrite repeat_length; lia|]. split.
    - replace (p + 1)%nat with (S p) by lia.
      rewrite sum_upto_cons, sum_upto_zeros. reflexivity.
    - intros [|t]; simpl; [discriminate|].
      rewrite nth_repeat. apply Qle_refl. }
  assert (HU : U <> []).
  { intros E. rewrite E in span_high. unfold len in span_high.
    simpl in span_high. lia. }
  rewrite (py_index_last 0 HU). cbn [bind].
  destruct (isclose u (nth (length U - 1) U 0)).
  { exists (repeat 0 p ++ [1]). split; [reflexivity|].
    split; [rewrite length_app, repeat_length; reflexivity|]. split.
    - replace (p + 1)%nat with (S p) by lia. cbn [sum_upto].
      rewrite sum_upto_app by (rewrite repeat_length; lia).
      rewrite sum_upto_zeros.
      rewrite app_nth2 by (rewrite repeat_length; lia).
      rewrite repeat_length, Nat.sub_diag. reflexivity.
    - intros t. destruct (Nat.lt_ge_cases t p) as [Hlt|Hge].
      + rewrite app_nth1 by (rewrite repeat_length; assumption).
        rewrite nth_repeat. apply Qle_refl.
      + rewrite app_nth2 by (rewrite repeat_length; assumption).
        rewrite repeat_length. destruct (t - p)%nat as [|[|]]; simpl;
          discriminate. }
  assert (Hf0 : filled 1 (repeat 0 (p + 1)) (repeat 0 (p + 1))).
  { split; [apply repeat_length|]. split; [apply repeat_length|].
    intros t Ht. lia. }
  assert (Hz : forall t, 0 <= nth t (repeat 0 (p + 1)) 0)
    by (intros t; rewrite nth_repeat; apply Qle_refl).
  destruct (@basis_outer_sum U i u p span_low span_high knots_high sorted
              width p 1%nat (repeat 0 (p + 1)) (repeat 0 (p + 1))
              (upd (repeat 0 (p + 1)) 0 1))
    as [N [HN [Hlen Hsum]]]; try lia; try exact Hf0.
  - rewrite length_upd. apply repeat_length.
  - cbn [sum_upto]. rewrite nth_upd_same by (rewrite repeat_length; lia).
    reflexivity.
  - exists N. split; [exact HN|]. split; [assumption|]. split; [assumption|].
    apply (@basis_outer_nonneg p 1%nat (repeat 0 (p + 1)) (repeat 0 (p + 1))
             (upd (repeat 0 (p + 1)) 0 1)); try lia; try assumption.
    + rewrite length_upd. apply repeat_length.
    + intros t. rewrite nth_upd by (rewrite repeat_length; lia).
      destruct (0 =? t)%nat; [discriminate | apply Hz].
Qed.

(** X8.  In exact arithmetic, on a span [i] of a non-decreasing knot
    vector that holds [u] ([U[i] <= u <= U[i+1]]) and is wider than the
    tolerance [1e-8], every value that [basisfuns] returns lies between 0
    and 1. *)
Theorem basisfuns_values_in_unit_interval :
  exists N,
    basisfuns i u p U = Some N
    /\ forall t, 0 <= nth t N 0 /\ nth t N 0 <= 1.
Proof.
  destruct basisfuns_convex as [N [HN [Hlen [Hsum Hpos]]]].
  exists N. split; [assumption|]. intros t. split; [apply Hpos|].
  destruct (Nat.lt_ge_cases t (p + 1)) as [Hlt|Hge].
  - assert (Hle : forall k, (t < k)%nat -> nth t N 0 <= sum_upto k N).
    { induction k as [|k IHk]; intros Hk; [lia|]. cbn [sum_upto].
      destruct (Nat.eq_dec t k) as [->|Hne].
      - assert (H0 : forall m, 0 <= sum_upto m N).
        { induction m as [|m IHm]; cbn [sum_upto]; [apply Qle_refl|].
          pose proof (Hpos m). lra. }
        pose proof (H0 k). lra.
      - pose proof (IHk ltac:(lia)). pose proof (Hpos k). lra. }
    rewrite <- Hsum. apply Hle. assumption.
  - rewrite nth_overflow by lia. discriminate.
Qed.

End BasisfunsSign.

Lemma basisfuns_values_in_unit_interval_witness :
  exists N,
    basisfuns (R:=Q) 2 (3 # 4) 1 [0; 0; 1 # 2; 1; 1] = Some N
    /\ forall t, (0 <= nth t N 0 /\ nth t N 0 <= 1)%Q.
Proof.
  apply (@basisfuns_values_in_unit_interval [0; 0; 1 # 2; 1; 1] 2 (3 # 4) 1).
  - discriminate.
  - reflexivity.
  - reflexivity.
  - apply sortedb_nondecreasing. reflexivity.
  - reflexivity.
  - discriminate.
  - discriminate.
Defined.

Section CurveHull.

Open Scope Q_scope.

Variables U P : list Q.
Variable p : nat.
Variable u : Q.
Variables lo hi : Q.

Hypothesis bounds : forall x, In x P -> lo <= x /\ x <= hi.

Section Sum.

Variable N : list Q.
Variable span : Z.

Hypothesis N_length : length N = (p + 1)%nat.
Hypothesis N_nonneg : forall t, 0 <= nth t N 0.
Hypothesis window_low : (0 <= span - Z.of_nat p)%Z.
Hypothesis window_high : (span < len P)%Z.

(** The running sum of [curvepoint] stays between [lo] and [hi] times the
    basis values added so far. *)
Lemma curve_sum_bounds (k : nat) :
  forall (i : nat) (C : Q),
    (i + k = p + 1)%nat ->
    lo * sum_upto i N <= C -> C <= hi * sum_upto i N ->
    exists c,
      curve_sum N P span p k i C = Some c
      /\ lo * sum_upto (p + 1) N <= c /\ c <= hi * sum_upto (p + 1) N.
Proof.
  induction k as [|k IH]; intros i C Hik Hlo Hhi.
  - exists C. replace (p + 1)%nat with i by lia.
    split; [reflexivity|]. split; assumption.
  - cbn [curve_sum].
    rewrite (py_index_nonneg N 0 (k:=Z.of_nat i)) by (unfold len; lia).
    cbn [bind].
    rewrite (py_index_nonneg P 0 (k:=(span - Z.of_nat p + Z.of_nat i)%Z))
      by lia.
    cbn [bind]. cbn [add mul Num_Q]. rewrite Nat2Z.id.
    set (x := nth (Z.to_nat (span - Z.of_nat p + Z.of_nat i)) P 0).
    assert (Hx : lo <= x /\ x <= hi).
    { apply bounds. apply nth_In. unfold len in *. lia. }
    pose proof (N_nonneg i) as Hn.
    apply IH; [lia | |]; cbn [sum_upto]; nra.
Qed.

End Sum.

Hypothesis degree : (1 <= p)%nat.
Hypothesis shape : len U = (Z.of_nat p + len P + 1)%Z.
Hypothesis sorted : nondecreasing U.
Hypothesis u_low : knot_at U (Z.of_nat p) <= u.
Hypothesis u_high : u < knot_at U (len P).
Hypothesis not_special : ~ u == knot_at U (len P - Z.of_nat p + 1).
Hypothesis wide :
  forall i, (Z.of_nat p <= i < len P)%Z -> in_span U u i ->
            QNum.atol < span_width U i.

(** The point of the curve is a convex combination of control points. *)
Lemma curvepoint_bounds :
  exists c, curvepoint p U P u = Some c /\ lo <= c /\ c <= hi.
Proof.
  assert (HlenP : (Z.of_nat p < len P)%Z).
  { destruct (Z_lt_ge_dec (Z.of_nat p) (len P)) as [Hlt|Hge]; [assumption|].
    exfalso. apply (Qlt_not_le _ _ u_high).
    apply Qle_trans with (knot_at U (Z.of_nat p)); [|exact u_low].
    unfold knot_at. apply sorted; unfold len in *; lia. }
  destruct (@findspan_scan_result U u (len P - Z.of_nat p) p)
    as [i [Hfs [Hi [Hspan _]]]]; try lia; try assumption.
  { replace (Z.of_nat p + (len P - Z.of_nat p))%Z with (len P) by lia.
    exact u_high. }
  destruct (@basisfuns_convex U i u p) as [N [HN [Hlen [Hsum Hpos]]]];
    try lia; try assumption.
  { apply wide; [lia | exact Hspan]. }
  { apply Hspan. }
  { apply Qlt_le_weak. apply Hspan. }
  unfold curvepoint. rewrite Hfs. cbn [bind]. rewrite HN. cbn [bind].
  assert (HU : U <> []).
  { intros E. rewrite E in shape. unfold len in shape. simpl in shape. lia. }
  assert (HP : P <> []).
  { intros E. rewrite E in HlenP. unfold len in HlenP. simpl in HlenP. lia. }
  rewrite (py_index_last 0 HU). cbn [bind].
  destruct (eqb (nth (length U - 1) U 0) u).
  - exists (nth (length P - 1) P 0). split; [apply (py_index_last 0 HP)|].
    apply bounds. apply nth_In.
    destruct P; [congruence | simpl; lia].
  - destruct (@curve_sum_bounds N i Hlen Hpos ltac:(lia) ltac:(lia)
                (p + 1)%nat 0%nat 0)
      as [c [Hc [Hclo Hchi]]]; [lia | cbn [sum_upto]; lra | cbn [sum_upto]; lra |].
    exists c. split; [exact Hc|]. rewrite Hsum in Hclo, Hchi. lra.
Qed.

(** X9.  The convex hull property, in exact arithmetic.  For a curve of
    degree at least 1 with [len(U) == p + len(P) + 1] on a non-decreasing
    knot vector, a parameter [U[p] <= u < U[len(P)]] other than the knot
    [U[len(P)-p+1]], and the span of [u] wider than the tolerance [1e-8]:
    if every control point lies in [[lo, hi]], so does the point that
    [curvepoint] returns. *)
Theorem curvepoint_in_hull :
  exists c, curvepoint p U P u = Some c /\ lo <= c /\ c <= hi.
Proof.
  exact curvepoint_bounds.
Qed.

End CurveHull.



Lemma curvepoint_in_hull_witness :
  exists c,
    curvepoint (R:=Q) 2 [0; 0; 0; 1; 1; 1] [1; 5; 3] (1 # 2) = Some c
    /\ (1 <= c)%Q /\ (c <= 5)%Q.
Proof.
  apply (@curvepoint_in_hull [0; 0; 0; 1; 1; 1] [1; 5; 3] 2 (1 # 2) 1 5).
  - intros x [<-|[<-|[<-|[]]]]; split; discriminate.
  - lia.
  - reflexivity.
  - apply sortedb_nondecreasing. reflexivity.
  - discriminate.
  - reflexivity.
  - discriminate.
  - intros i Hi Hs. replace i with 2%Z by (unfold len in Hi; simpl in Hi; lia).
    reflexivity.
Defined.

(** X10.  A curve of degree 0 cannot be evaluated: with the knot vector of
    the length that [Curve] asserts, [len(U) == len(P) + 1], [curvepoint]
    calls [findspan] with [n = len(P)], which reads [U[n+1]] one past the
    end of [U] and raises IndexError, for every parameter. *)
Theorem curvepoint_degree_zero_raises {R : Type} `{Num R} (U P : list R)
    (u : R) :
  len U = (len P + 1)%Z -> curvepoint 0 U P u = None.
Proof.
  intros Hlen. unfold curvepoint, findspan.
  replace (py_index U (len P - Z.of_nat 0 + 1)) with (@None R);
    [reflexivity|].
  unfold py_index. change (Z.of_nat 0) with 0%Z.
  replace (len P - 0 + 1)%Z with (len U) by lia.
  replace ((0 <=? len U) && (len U <? len U))%Z with false
    by (rewrite Z.ltb_irrefl, andb_false_r; reflexivity).
  replace ((- len U <=? len U) && (len U <? 0))%Z with false; [reflexivity|].
  symmetry. apply andb_false_iff. right. apply Z.ltb_ge. unfold len. lia.
Qed.

Lemma curvepoint_degree_zero_raises_witness :
  curvepoint (R:=float) 0 [0; 0.5; 1]%float [3; 4]%float 0.25%float = None.
Proof.
  apply curvepoint_degree_zero_raises. reflexivity.
Defined.

(** ** The closed-form cubic basis *)

Section Cubic.

Open Scope Q_scope.

(** the four weights of [cubic(t)] as polynomials in [t] *)
Lemma cubic_weights (t : Q) :
  exists w0 w1 w2 w3,
    cubic t = [w0; w1; w2; w3]
    /\ w0 == (1 - t) * (1 - t) * (1 - t) / 6
    /\ w1 == (3 * t * t * t - 6 * t * t + 4) / 6
    /\ w2 == (- 3 * t * t * t + 3 * t * t + 3 * t + 1) / 6
    /\ w3 == t * t * t / 6.
Proof.
  eexists. eexists. eexists. eexists.
  split; [reflexivity|].
  unfold dot, py_sum, cubic_B.
  cbn [power mul one add zero div of_Z Num_Q fold_left map combine fst snd
       nth].
  unfold inject_Z.
  repeat split; field.
Qed.

(** X11.  The closed-form cubic basis is a partition of unity: for every
    [t] the four weights of [cubic(t)] sum to 1, and for [0 <= t <= 1]
    none of them is negative. *)
Theorem cubic_partition_of_unity (t : Q) :
  length (cubic t) = 4%nat
  /\ py_sum (cubic t) == 1
  /\ (0 <= t -> t <= 1 -> forall k, 0 <= nth k (cubic t) 0).
Proof.
  destruct (cubic_weights t) as [w0 [w1 [w2 [w3 [-> [H0 [H1 [H2 H3]]]]]]]].
  split; [reflexivity|]. split.
  - unfold py_sum. cbn [fold_left add zero Num_Q].
    rewrite H0, H1, H2, H3. field.
  - intros Ht0 Ht1 k.
    assert (Hs : 0 <= t * t) by nra.
    assert (Hc : 0 <= t * t * t) by nra.
    assert (Hm : 0 <= (1 - t) * (1 - t)) by nra.
    assert (Hn : 0 <= (1 - t) * (1 - t) * (1 - t)) by nra.
    assert (Hx : 0 <= t * (1 - t)) by nra.
    assert (Hy : 0 <= t * t * (1 - t)) by nra.
    assert (Hz : 0 <= (1 - t) * (t * (1 - t))) by nra.
    destruct k as [|[|[|[|k]]]]; cbn [nth].
    + rewrite H0. apply Qle_shift_div_l; [reflexivity | lra].
    + rewrite H1. apply Qle_shift_div_l; [reflexivity | nra].
    + rewrite H2. apply Qle_shift_div_l; [reflexivity | nra].
    + rewrite H3. apply Qle_shift_div_l; [reflexivity | lra].
    + destruct k; apply Qle_refl.
Qed.

Lemma Q_square_nonneg (x : Q) : 0 <= x * x.
Proof.
  destruct (Qlt_le_dec x 0) as [Hneg|Hpos].
  - assert (E : x * x == (- x) * (- x)) by ring. rewrite E.
    apply Qmult_le_0_compat; lra.
  - apply Qmult_le_0_compat; assumption.
Qed.

Lemma lower_upper_floor (xc : Q) :
  lower xc = (Qfloor xc - 1)%Z /\ upper xc = (Qfloor xc + 2)%Z.
Proof.
  unfold lower, upper.
  cbn [to_int np_floor Floor_Q sub add one of_Z Num_Q].
  unfold Qminus, Qplus, Qopp, inject_Z. cbn [Qnum Qden].
  change (Z.pos (1 * 1)) with 1%Z. rewrite !Z.quot_1_r. split; ring.
Qed.

(** X12.  [set_ctrlpt] solves its constraint: for [n] other than zero the
    four values it returns, weighted by the basis values of [eval_basis],
    add up to [yc]; the index range it returns starts one above
    [floor(xc)] and spans four control points. *)
Theorem set_ctrlpt_constraint (xc yc n : Q) :
  ~ n == 0 ->
  dot (eval_basis xc n) (fst (set_ctrlpt xc yc n)) == yc
  /\ length (fst (set_ctrlpt xc yc n)) = 4%nat
  /\ fst (snd (set_ctrlpt xc yc n)) = (Qfloor xc + 1)%Z
  /\ snd (snd (set_ctrlpt xc yc n)) = (Qfloor xc + 5)%Z.
Proof.
  intros _. unfold set_ctrlpt. cbn [fst snd].
  destruct (lower_upper_floor xc) as [-> ->].
  unfold eval_basis.
  destruct (cubic_weights (div (sub xc (np_floor xc)) n))
    as [w0 [w1 [w2 [w3 [-> [H0 [H1 [H2 H3]]]]]]]].
  assert (Hsum : w0 + w1 + w2 + w3 == 1) by (rewrite H0, H1, H2, H3; field).
  clear H0 H1 H2 H3.
  split; [|split; [reflexivity | split; ring]].
  unfold dot, py_sum.
  cbn [map combine fold_left fst snd add mul div zero Num_Q].
  assert (Hww : 0 < w0 * w0 + w1 * w1 + w2 * w2 + w3 * w3).
  { pose proof (Q_square_nonneg (w0 - w1)). pose proof (Q_square_nonneg (w0 - w2)).
    pose proof (Q_square_nonneg (w0 - w3)). pose proof (Q_square_nonneg (w1 - w2)).
    pose proof (Q_square_nonneg (w1 - w3)). pose proof (Q_square_nonneg (w2 - w3)).
    assert (E : (w0 + w1 + w2 + w3) * (w0 + w1 + w2 + w3) == 1)
      by (rewrite Hsum; reflexivity).
    assert (Heq : (w0 - w1) * (w0 - w1) + (w0 - w2) * (w0 - w2)
                  + (w0 - w3) * (w0 - w3) + (w1 - w2) * (w1 - w2)
                  + (w1 - w3) * (w1 - w3) + (w2 - w3) * (w2 - w3)
                  == 4 * (w0 * w0 + w1 * w1 + w2 * w2 + w3 * w3)
                     - (w0 + w1 + w2 + w3) * (w0 + w1 + w2 + w3)) by ring.
    lra. }
  field. intros E. lra.
Qed.

Lemma set_ctrlpt_constraint_witness :
  dot (eval_basis (5 # 2) 2) (fst (set_ctrlpt (5 # 2) 3 2)) == 3.
Proof.
  apply (proj1 (@set_ctrlpt_constraint (5 # 2) 3 2 ltac:(discriminate))).
Defined.

Lemma cubic_partition_of_unity_witness :
  0 <= nth 1 (cubic (1 # 2)) 0.
Proof.
  apply (proj2 (proj2 (cubic_partition_of_unity (1 # 2)))); discriminate.
Defined.

End Cubic.

(** ** Minimum, maximum and the normalising maps *)

Section Normalising.

Open Scope Q_scope.

Lemma fold_min_spec (xs : list Q) :
  forall x : Q,
    fold_left (fun m v : Q => if ltb v m then v else m) xs x <= x
    /\ (forall v, In v xs ->
          fold_left (fun m v : Q => if ltb v m then v else m) xs x <= v)
    /\ In (fold_left (fun m v : Q => if ltb v m then v else m) xs x) (x :: xs).
Proof.
  induction xs as [|v xs IH]; intros x; cbn [fold_left].
  - split; [apply Qle_refl|]. split; [intros v []|left; reflexivity].
  - destruct (IH (if ltb v x then v else x)) as [Hx [Hall Hin]].
    assert (Hstep : (if ltb v x then v else x) <= x
                    /\ (if ltb v x then v else x) <= v).
    { destruct (ltb v x) eqn:E.
      - apply Q_ltb in E. split; [lra | apply Qle_refl].
      - apply Q_ltb_false in E. split; [apply Qle_refl | assumption]. }
    split; [lra|]. split.
    + intros w [<-|Hw]; [lra | apply Hall; assumption].
    + destruct Hin as [Hin|Hin]; [|right; right; assumption].
      rewrite <- Hin. destruct (ltb v x); [right; left | left]; reflexivity.
Qed.

Lemma fold_max_spec (xs : list Q) :
  forall x : Q,
    x <= fold_left (fun m v : Q => if ltb m v then v else m) xs x
    /\ (forall v, In v xs ->
          v <= fold_left (fun m v : Q => if ltb m v then v else m) xs x)
    /\ In (fold_left (fun m v : Q => if ltb m v then v else m) xs x) (x :: xs).
Proof.
  induction xs as [|v xs IH]; intros x; cbn [fold_left].
  - split; [apply Qle_refl|]. split; [intros v []|left; reflexivity].
  - destruct (IH (if ltb x v then v else x)) as [Hx [Hall Hin]].
    assert (Hstep : x <= (if ltb x v then v else x)
                    /\ v <= (if ltb x v then v else x)).
    { destruct (ltb x v) eqn:E.
      - apply Q_ltb in E. split; [lra | apply Qle_refl].
      - apply Q_ltb_false in E. split; [apply Qle_refl | assumption]. }
    split; [lra|]. split.
    + intros w [<-|Hw]; [lra | apply Hall; assumption].
    + destruct Hin as [Hin|Hin]; [|right; right; assumption].
      rewrite <- Hin. destruct (ltb x v); [right; left | left]; reflexivity.
Qed.

Lemma py_min_spec (l : list Q) (m : Q) :
  py_min l = Some m -> In m l /\ forall v, In v l -> m <= v.
Proof.
  destruct l as [|x xs]; [discriminate|]. cbn [py_min]. intros [= <-].
  destruct (fold_min_spec xs x) as [Hx [Hall Hin]].
  split; [exact Hin|]. intros v [<-|Hv]; [exact Hx | apply Hall; exact Hv].
Qed.

Lemma py_max_spec (l : list Q) (m : Q) :
  py_max l = Some m -> In m l /\ forall v, In v l -> v <= m.
Proof.
  destruct l as [|x xs]; [discriminate|]. cbn [py_max]. intros [= <-].
  destruct (fold_max_spec xs x) as [Hx [Hall Hin]].
  split; [exact Hin|]. intros v [<-|Hv]; [exact Hx | apply Hall; exact Hv].
Qed.

(** Rationals are never NaN: [np.min] and [np.max] are [min] and [max]. *)
Lemma np_min_py_min (l : list Q) : np_min l = py_min l.
Proof.
  destruct l as [|x xs]; [reflexivity|]. cbn [np_min py_min]. f_equal.
  revert x. induction xs as [|v xs IH]; intros x; [reflexivity|].
  cbn [fold_left]. cbn [eqb Num_Q]. rewrite !Qeq_bool_refl. cbn [negb].
  apply IH.
Qed.

Lemma np_max_py_max (l : list Q) : np_max l = py_max l.
Proof.
  destruct l as [|x xs]; [reflexivity|]. cbn [np_max py_max]. f_equal.
  revert x. induction xs as [|v xs IH]; intros x; [reflexivity|].
  cbn [fold_left]. cbn [eqb Num_Q]. rewrite !Qeq_bool_refl. cbn [negb].
  apply IH.
Qed.

(** X13.  [normalize] and [denormalize] are inverse to each other: for
    points that are not all equal and [n] other than zero,
    [denormalize(normalize(pts, n))] gives the points back; the constants
    [nc] are the least and the greatest point, and for [n >= 0] every
    normalised point lies in [[0, n]]. *)
Theorem normalize_round_trip (pts out : list Q) (n pmin pmax : Q) :
  normalize pts n = Some (out, (pmin, pmax)) ->
  ~ pmax == pmin -> ~ n == 0 ->
  Forall2 Qeq (denormalize out (pmin, pmax) n) pts
  /\ (forall x, In x pts -> pmin <= x /\ x <= pmax)
  /\ (0 <= n -> forall v, In v out -> 0 <= v /\ v <= n).
Proof.
  unfold normalize. rewrite np_min_py_min, np_max_py_max.
  intros Hn Hne Hn0. inv_bind Hn. inv_bind Hn. injection Hn as <- -> ->.
  destruct (py_min_spec _ E) as [_ Hmin].
  destruct (py_max_spec _ E0) as [_ Hmax].
  cbn [add sub mul div Num_Q].
  assert (Hrange : forall x, In x pts -> pmin <= x /\ x <= pmax)
    by (intros x Hx; split; [apply Hmin | apply Hmax]; exact Hx).
  split; [|split; [exact Hrange|]].
  - unfold denormalize. cbn [fst snd add sub mul div Num_Q]. rewrite map_map.
    clear - Hne Hn0.
    induction pts as [|x pts IH]; cbn [map]; constructor.
    + field. split; [|exact Hn0]. intros E. apply Hne. lra.
    + apply IH.
  - intros Hpos v Hv. apply in_map_iff in Hv. destruct Hv as [x [<- Hx]].
    destruct (Hrange x Hx) as [Hlo Hhi].
    assert (Hden : 0 < pmax - pmin).
    { destruct (Qlt_le_dec 0 (pmax - pmin)) as [Hlt|Hle]; [assumption|].
      exfalso. apply Hne. lra. }
    split.
    + apply Qle_shift_div_l; [assumption|]. nra.
    + apply Qle_shift_div_r; [assumption|]. nra.
Qed.

Lemma normalize_round_trip_witness :
  Forall2 Qeq (denormalize [0 # 2; 8 # 2; 4 # 2] (1, 3) 4) [1; 3; 2].
Proof.
  apply (@normalize_round_trip [1; 3; 2] [0 # 2; 8 # 2; 4 # 2] 4 1 3).
  - reflexivity.
  - discriminate.
  - discriminate.
Defined.

(** X14.  For [a <= b] and a non-empty array, [xmap] returns an array of
    the same length whose values all lie in [[a, b]], whether or not the
    zero-denominator guard fires. *)
Theorem xmap_range (x : list Q) (a b : Q) :
  a <= b -> x <> [] ->
  exists d,
    xmap x a b = Some d
    /\ length d = length x
    /\ forall v, In v d -> a <= v /\ v <= b.
Proof.
  intros Hab Hx. unfold xmap.
  destruct (py_max x) as [mx|] eqn:Emx; [|destruct x; [congruence|discriminate]].
  destruct (py_min x) as [mn|] eqn:Emn; [|destruct x; [congruence|discriminate]].
  cbn [bind].
  destruct (py_min_spec _ Emn) as [Hmn_in Hmin].
  destruct (py_max_spec _ Emx) as [Hmx_in Hmax].
  eexists. split; [reflexivity|]. split; [rewrite !length_map; reflexivity|].
  intros v Hv. rewrite map_map in Hv. apply in_map_iff in Hv.
  destruct Hv as [e [<- He]].
  pose proof (Hmin e He) as Hlo. pose proof (Hmax e He) as Hhi.
  cbn [add sub mul div one zero Num_Q].
  assert (Hunit : 0 <= (e - mn) / (if isclose (mx - mn) 0 then 1 else mx - mn)
                  /\ (e - mn) / (if isclose (mx - mn) 0 then 1 else mx - mn) <= 1).
  { destruct (isclose (mx - mn) 0) eqn:Ec.
    - cbn [isclose Num_Q] in Ec. unfold QNum.isclose in Ec.
      apply Qle_bool_iff in Ec.
      assert (H0 : 0 <= mx - mn - 0) by lra.
      rewrite (Qabs_pos _ H0) in Ec. change (Qabs 0) with 0 in Ec.
      assert (Hat : QNum.atol + QNum.rtol * 0 <= 1) by discriminate.
      split.
      + apply Qle_shift_div_l; [reflexivity | lra].
      + apply Qle_shift_div_r; [reflexivity | lra].
    - apply isclose_zero_nonzero in Ec.
      assert (Hden : 0 < mx - mn).
      { destruct (Qlt_le_dec 0 (mx - mn)) as [Hlt|Hle]; [assumption|].
        exfalso. apply Ec. lra. }
      split.
      + apply Qle_shift_div_l; [assumption | lra].
      + apply Qle_shift_div_r; [assumption | lra]. }
  destruct Hunit as [H0 H1].
  set (d := (e - mn) / (if isclose (mx - mn) 0 then 1 else mx - mn)) in *.
  split; nra.
Qed.

Lemma xmap_range_witness :
  exists d,
    xmap [2; 5; 3] 0 1 = Some d
    /\ length d = 3%nat
    /\ forall v, In v d -> 0 <= v /\ v <= 1.
Proof.
  apply xmap_range; discriminate.
Defined.

End Normalising.

(** ** Chord-length and centripetal parameters *)

Section Parameterisations.

Open Scope Q_scope.

(** Any square root on the rationals that is never negative. *)
Context {sqrtQ : Sqrt Q}.
Hypothesis sqrt_nonneg : forall v : Q, 0 <= sqrt v.

Lemma cumulative_length (l : list Q) :
  forall c : Q, length (cumulative c l) = S (length l).
Proof.
  induction l as [|h t IH]; intros c; cbn [cumulative length]; [reflexivity|].
  cbn [add Num_Q]. rewrite IH. reflexivity.
Qed.

Lemma cumulative_sorted (l : list Q) :
  (forall v, In v l -> 0 <= v) ->
  forall c : Q,
    StronglySorted Qle (cumulative c l)
    /\ Forall (Qle c) (cumulative c l).
Proof.
  induction l as [|h t IH]; intros Hl c; cbn [cumulative].
  - split; constructor; [constructor | constructor | apply Qle_refl | constructor].
  - cbn [add Num_Q].
    destruct (IH (fun v Hv => Hl v (or_intror Hv)) (c + h)) as [Hs Hf].
    assert (Hh : 0 <= h) by (apply Hl; left; reflexivity).
    assert (Hf' : Forall (Qle c) (cumulative (c + h) t)).
    { rewrite Forall_forall in *. intros v Hv. specialize (Hf v Hv). lra. }
    split; constructor; try assumption. apply Qle_refl.
Qed.

Lemma cumulative_last (l : list Q) :
  forall c : Q,
    nth (length l) (cumulative c l) 0 == c + sum_upto (length l) l.
Proof.
  induction l as [|h t IH]; intros c; cbn [cumulative length].
  - cbn [nth sum_upto]. ring.
  - cbn [nth add Num_Q]. rewrite IH, sum_upto_cons. ring.
Qed.

Lemma sorted_map_monotone (g : Q -> Q) (l : list Q) :
  (forall v w, v <= w -> g v <= g w) ->
  StronglySorted Qle l -> StronglySorted Qle (map g l).
Proof.
  intros Hg. induction 1 as [|x l Hl IH Hx]; cbn [map]; constructor.
  - assumption.
  - rewrite Forall_forall in *. intros w Hw. apply in_map_iff in Hw.
    destruct Hw as [v [<- Hv]]. apply Hg. apply Hx. assumption.
Qed.

(** An affine rescaling of a sorted list that starts at [mn] and whose
    greatest element is [mx]. *)
Lemma rescale_sorted (l : list Q) (a b mn mx : Q) :
  a <= b -> mn < mx -> l <> [] ->
  StronglySorted Qle l ->
  nth 0 l 0 == mn -> (forall v, In v l -> mn <= v /\ v <= mx) ->
  nth (length l - 1) l 0 == mx ->
  let d := map (fun v => (b - a) * (v - mn) / (mx - mn) + a) l in
  nondecreasing d
  /\ (forall v, In v d -> a <= v /\ v <= b)
  /\ nth 0 d 0 == a
  /\ nth (length d - 1) d 0 == b.
Proof.
  intros Hab Hlt Hne Hs H0 Hr Hlast d.
  assert (Hg : forall v, (b - a) * (v - mn) / (mx - mn) + a
                         == (b - a) / (mx - mn) * (v - mn) + a)
    by (intros v; field; lra).
  assert (Hc : 0 <= (b - a) / (mx - mn))
    by (apply Qle_shift_div_l; lra).
  assert (Hc1 : (b - a) / (mx - mn) * (mx - mn) == b - a) by (field; lra).
  set (c := (b - a) / (mx - mn)) in *.
  split; [|split; [|split]].
  - apply nondecreasing_of_sorted. unfold d.
    apply sorted_map_monotone; [|assumption].
    intros v w Hvw. rewrite !Hg. nra.
  - intros v Hv. unfold d in Hv. apply in_map_iff in Hv.
    destruct Hv as [e [<- He]]. rewrite Hg.
    destruct (Hr e He) as [Hlo Hhi]. split; nra.
  - unfold d. destruct l as [|e l]; [congruence|].
    cbn [map nth] in *. rewrite Hg, H0. ring.
  - unfold d. rewrite length_map.
    rewrite (nth_indep _ 0 ((b - a) * (0 - mn) / (mx - mn) + a))
      by (rewrite length_map; destruct l; [congruence | simpl; lia]).
    rewrite (map_nth (fun v => (b - a) * (v - mn) / (mx - mn) + a)).
    rewrite Hg, Hlast. lra.
Qed.

(** X15.  The chord-length parameters of points with a positive total
    length, for [a <= b]: [chords] returns one value per cumulated length,
    they never decrease, they lie in [[a, b]], the first is [a] and the
    last is [b]. *)
Theorem chords_monotone (x y : list Q) (z : option (list Q)) (a b : Q)
    (d0 : list Q) :
  chord_lengths x y z = Some d0 ->
  (exists v, In v d0 /\ 0 < v) ->
  a <= b ->
  exists d,
    chords x y z a b = Some d
    /\ length d = length d0
    /\ nondecreasing d
    /\ (forall v, In v d -> a <= v /\ v <= b)
    /\ nth 0 d 0 == a
    /\ nth (length d - 1) d 0 == b.
Proof.
  intros Hd0 [v0 [Hv0 Hpos]] Hab.
  assert (Hshape : exists dists, d0 = cumulative 0 dists
                                 /\ forall v, In v dists -> 0 <= v).
  { unfold chord_lengths in Hd0.
    inv_bind Hd0. inv_bind Hd0. inv_bind Hd0. inv_bind Hd0. inv_bind Hd0.
    injection Hd0 as <-. eexists. split; [reflexivity|].
    intros v Hv. apply in_map_iff in Hv. destruct Hv as [e [<- _]].
    apply sqrt_nonneg. }
  destruct Hshape as [dists [-> Hdists]].
  destruct (cumulative_sorted dists Hdists 0) as [Hs Hf].
  rewrite Forall_forall in Hf.
  set (l := cumulative 0 dists) in *.
  assert (Hne : l <> []) by (unfold l; destruct dists; discriminate).
  assert (Hhead : nth 0 l 0 = 0) by (unfold l; destruct dists; reflexivity).
  destruct (py_min l) as [mn|] eqn:Emn; [|destruct l; [congruence|discriminate]].
  destruct (py_max l) as [mx|] eqn:Emx; [|destruct l; [congruence|discriminate]].
  destruct (py_min_spec _ Emn) as [Hmn_in Hmin].
  destruct (py_max_spec _ Emx) as [Hmx_in Hmax].
  assert (Hmn0 : mn == 0).
  { assert (mn <= 0).
    { rewrite <- Hhead. apply Hmin. apply nth_In.
      destruct l; [congruence | simpl; lia]. }
    pose proof (Hf mn Hmn_in). lra. }
  assert (Hlt : mn < mx) by (pose proof (Hmax v0 Hv0); lra).
  assert (Hlast : nth (length l - 1) l 0 == mx).
  { apply Qle_antisym.
    - apply Hmax. apply nth_In. destruct l; [congruence | simpl; lia].
    - destruct (In_nth _ _ 0 Hmx_in) as [k [Hk <-]].
      apply (nondecreasing_of_sorted Hs); lia. }
  destruct (@rescale_sorted l a b mn mx Hab Hlt Hne Hs)
    as [Hnd [Hrange [Hfirst Hend]]].
  - rewrite Hhead, Hmn0. reflexivity.
  - intros v Hv. split; [apply Hmin | apply Hmax]; assumption.
  - exact Hlast.
  - unfold chords. rewrite Hd0. cbn [bind]. rewrite Emn. cbn [bind].
    unfold chords_denom. rewrite Emx, Emn. cbn [bind].
    cbn [add sub mul div Num_Q].
    eexists. split; [reflexivity|].
    split; [apply length_map|].
    split; [exact Hnd|]. split; [exact Hrange|]. split; assumption.
Qed.

Lemma upd_app {A : Type} (pre l : list A) (k : nat) (v : A) :
  upd (pre ++ l) (length pre + k) v = pre ++ upd l k v.
Proof.
  induction pre as [|h pre IH]; cbn [app length Nat.add upd]; [reflexivity|].
  f_equal. exact IH.
Qed.

(** The loop of [centripetal] on a zero array cumulates the steps divided
    by [dl]. *)
Lemma centripetal_loop (steps : list Q) (dl : Q) (m : nat) :
  forall (i0 : nat) (pre : list Q) (c : Q),
    length pre = i0 ->
    foldM (fun d i =>
             di <- py_index d (Z.of_nat i) ;;
             py_set d (Z.of_nat i + 1) (add di (div (nth i steps zero) dl)))
          (seq i0 m) (pre ++ c :: zeros m)
    = Some (pre ++ cumulative c (map (fun i => nth i steps 0 / dl) (seq i0 m))).
Proof.
  induction m as [|m IH]; intros i0 pre c Hpre; cbn [seq foldM map cumulative].
  - reflexivity.
  - assert (Hlen : length (pre ++ c :: zeros (S m)) = (i0 + S (S m))%nat).
    { rewrite length_app. cbn [length]. rewrite length_zeros. lia. }
    rewrite (py_index_nonneg _ 0 (k:=Z.of_nat i0)) by (unfold len; lia).
    cbn [bind]. rewrite Nat2Z.id.
    rewrite app_nth2 by lia. replace (i0 - length pre)%nat with 0%nat by lia.
    cbn [nth].
    rewrite py_set_nonneg by (unfold len; lia). cbn [bind].
    replace (Z.to_nat (Z.of_nat i0 + 1)) with (length pre + 1)%nat by lia.
    rewrite upd_app.
    change (zeros (S m)) with (@zero Q Num_Q :: zeros m).
    cbn [upd].
    change (pre ++ c :: ?v :: zeros m) with (pre ++ [c] ++ v :: zeros m).
    rewrite app_assoc.
    rewrite (IH (S i0) (pre ++ [c]))
      by (rewrite length_app; cbn [length]; lia).
    rewrite <- app_assoc. reflexivity.
Qed.

Lemma map_nth_seq (f : Q -> Q) (l : list Q) :
  map (fun i => f (nth i l 0)) (seq 0 (length l)) = map f l.
Proof.
  induction l as [|h t IH]; [reflexivity|].
  cbn [length seq map nth]. f_equal.
  rewrite <- seq_shift, map_map. exact IH.
Qed.

Lemma sum_upto_map_div (l : list Q) (dl : Q) (k : nat) :
  ~ dl == 0 ->
  sum_upto k (map (fun v => v / dl) l) == sum_upto k l / dl.
Proof.
  intros Hdl. induction k as [|k IH]; cbn [sum_upto]; [field; assumption|].
  rewrite IH.
  destruct (Nat.lt_ge_cases k (length l)) as [Hlt|Hge].
  - rewrite (nth_indep _ 0 (0 / dl)) by (rewrite length_map; assumption).
    rewrite (map_nth (fun v => v / dl)). field. assumption.
  - rewrite !nth_overflow by (rewrite ?length_map; assumption).
    field. assumption.
Qed.

(** X16.  The centripetal parameters of points whose steps have a positive
    sum, for [a <= b]: [centripetal] returns one value per point, they
    never decrease, they lie in [[a, b]], the first is [a] and the last is
    [b]. *)
Theorem centripetal_monotone (x y : list Q) (a b : Q) (steps : list Q) :
  centripetal_steps x y = Some steps ->
  length x = S (length steps) ->
  0 < py_sum steps ->
  a <= b ->
  exists d,
    centripetal x y a b = Some d
    /\ length d = length x
    /\ nondecreasing d
    /\ (forall v, In v d -> a <= v /\ v <= b)
    /\ nth 0 d 0 == a
    /\ nth (length d - 1) d 0 == b.
Proof.
  intros Hst Hlen Hpos Hab.
  assert (Hsteps : forall v, In v steps -> 0 <= v).
  { unfold centripetal_steps in Hst.
    inv_bind Hst. inv_bind Hst. inv_bind Hst. injection Hst as <-.
    intros v Hv. apply in_map_iff in Hv. destruct Hv as [e [<- _]].
    apply sqrt_nonneg. }
  set (dl := py_sum steps) in *.
  assert (Hdl : ~ dl == 0) by lra.
  set (incs := map (fun v => v / dl) steps).
  assert (Hincs : forall v, In v incs -> 0 <= v).
  { intros v Hv. unfold incs in Hv. apply in_map_iff in Hv.
    destruct Hv as [e [<- He]]. apply Qle_shift_div_l; [assumption|].
    pose proof (Hsteps e He). lra. }
  set (l := cumulative 0 incs).
  assert (Hloop : foldM (fun d i =>
                           di <- py_index d (Z.of_nat i) ;;
                           py_set d (Z.of_nat i + 1)
                                  (add di (div (nth i steps zero) dl)))
                        (seq 0 (length steps)) (zeros (length x)) = Some l).
  { rewrite Hlen. change (zeros (S (length steps)))
      with ([] ++ @zero Q Num_Q :: zeros (length steps)).
    etransitivity;
      [exact (@centripetal_loop steps dl (length steps) 0%nat [] 0 eq_refl)|].
    cbn [app]. unfold l, incs. f_equal. f_equal.
    apply (map_nth_seq (fun v => v / dl)). }
  destruct (cumulative_sorted incs Hincs 0) as [Hs Hf].
  rewrite Forall_forall in Hf. fold l in Hs, Hf.
  assert (Hl_len : length l = S (length steps))
    by (unfold l; rewrite cumulative_length; unfold incs; rewrite length_map;
        reflexivity).
  assert (Hhead : nth 0 l 0 = 0) by (unfold l; destruct incs; reflexivity).
  assert (Hlast : nth (length l - 1) l 0 == 1).
  { rewrite Hl_len. replace (S (length steps) - 1)%nat with (length incs)
      by (unfold incs; rewrite length_map; lia).
    unfold l. rewrite cumulative_last. unfold incs.
    rewrite length_map, sum_upto_map_div by assumption.
    rewrite <- py_sum_sum_upto. fold dl. field. assumption. }
  assert (Hunit : forall v, In v l -> 0 <= v /\ v <= 1).
  { intros v Hv. split; [apply Hf; assumption|].
    rewrite <- Hlast. destruct (In_nth _ _ 0 Hv) as [k [Hk <-]].
    apply (nondecreasing_of_sorted Hs); lia. }
  unfold centripetal. rewrite Hst. cbn [bind]. fold dl.
  rewrite Hloop. cbn [bind]. cbn [add sub mul Num_Q].
  eexists. split; [reflexivity|].
  split; [rewrite length_map; lia|]. split; [|split; [|split]].
  - apply nondecreasing_of_sorted. apply sorted_map_monotone; [|assumption].
    intros v w Hvw. nra.
  - intros v Hv. apply in_map_iff in Hv. destruct Hv as [e [<- He]].
    destruct (Hunit e He). split; nra.
  - rewrite (nth_indep _ 0 ((b - a) * 0 + a)) by (rewrite length_map; lia).
    rewrite (map_nth (fun v => (b - a) * v + a)), Hhead. ring.
  - rewrite length_map.
    rewrite (nth_indep _ 0 ((b - a) * 0 + a)) by (rewrite length_map; lia).
    rewrite (map_nth (fun v => (b - a) * v + a)), Hlast. ring.
Qed.

End Parameterisations.

Lemma Qsqrt_nonneg (q : Q) : (0 <= Qsqrt q)%Q.
Proof.
  unfold Qsqrt, Qle. cbn [Qnum Qden]. pose proof (Z.sqrt_nonneg (Qnum q * Zpos (Qden q))).
  lia.
Qed.

Lemma chords_monotone_witness :
  exists d,
    @chords Q _ Sqrt_Q [0; 3; 3; 6] [0; 4; 4; 8] None 0 1 = Some d
    /\ length d = 4%nat
    /\ nondecreasing d
    /\ (forall v, In v d -> (0 <= v /\ v <= 1)%Q)
    /\ (nth 0 d 0 == 0)%Q
    /\ (nth (length d - 1) d 0 == 1)%Q.
Proof.
  apply (@chords_monotone Sqrt_Q Qsqrt_nonneg
           [0; 3; 3; 6] [0; 4; 4; 8] None 0 1 [0; 5; 5; 10]).
  - reflexivity.
  - exists 5. split; [right; left; reflexivity | reflexivity].
  - discriminate.
Defined.

Lemma centripetal_monotone_witness :
  exists d,
    @centripetal Q _ Sqrt_Q [0; 0; 0] [0; 16; 32] 0 1 = Some d
    /\ length d = 3%nat
    /\ nondecreasing d
    /\ (forall v, In v d -> (0 <= v /\ v <= 1)%Q)
    /\ (nth 0 d 0 == 0)%Q
    /\ (nth (length d - 1) d 0 == 1)%Q.
Proof.
  apply (@centripetal_monotone Sqrt_Q Qsqrt_nonneg
           [0; 0; 0] [0; 16; 32] 0 1 [4; 4]).
  - reflexivity.
  - reflexivity.
  - reflexivity.
  - discriminate.
Defined.


(** ** The regularisation of the fit *)

Section DerivativeMatrixLastRow.

Context {R : Type} `{Num R}.

(** Every row of the matrix for [n >= 3], the last one included: the last
    three assignments write [1, -2, 1] in the columns 0, 1, 2 of the row
    [n-1], which the loop has left at zero. *)
Lemma derivative_matrix_all_rows (n : nat) :
  (3 <= n)%nat ->
  exists D,
    derivative_matrix n = Some D
    /\ square_shape n D
    /\ nth 0 D [] = stencil_row n 0
    /\ (forall i, (1 <= i)%nat -> (i + 1 < n)%nat ->
          nth i D [] = write3 (zeros n) i)
    /\ nth (n - 1) D [] = stencil_row n 0.
Proof.
  intros Hn. unfold derivative_matrix.
  replace (n =? 2)%nat with false by (symmetry; apply Nat.eqb_neq; lia).
  pose proof (square_zeros2 n) as H0.
  rewrite (mset_inside (n:=n)) by (auto; lia). cbn [bind].
  set (D1 := upd (zeros2 n n) _ _).
  assert (H1 : square_shape n D1).
  { apply square_upd; [assumption|]. rewrite length_upd. apply H0. lia. }
  rewrite (mset_inside (n:=n)) by (auto; lia). cbn [bind].
  set (D2 := upd D1 _ _).
  assert (H2 : square_shape n D2).
  { apply square_upd; [assumption|]. rewrite length_upd. apply H1. lia. }
  rewrite (mset_inside (n:=n)) by (auto; lia). cbn [bind].
  set (D3 := upd D2 _ _).
  assert (H3 : square_shape n D3).
  { apply square_upd; [assumption|]. rewrite length_upd. apply H2. lia. }
  assert (Hrow0 : nth 0 D3 [] = stencil_row n 0).
  { unfold D3, D2, D1. simpl Z.to_nat.
    destruct H0 as [L0 _].
    rewrite !nth_upd_same by (rewrite ?length_upd; lia).
    rewrite nth_zeros2 by lia. reflexivity. }
  assert (Hrows : forall i, (1 <= i)%nat -> (i < n)%nat -> nth i D3 [] = zeros n).
  { intros i Hi Hi'. unfold D3, D2, D1. simpl Z.to_nat.
    rewrite !nth_upd_other by lia. apply nth_zeros2. assumption. }
  destruct (@interior_loop _ _ n (n - 2) 1 D3 H3) as [D4 [Hloop [H4 Hrows4]]];
    try lia.
  assert (Hl : foldM (fun (D : matrix R) (i : Z) =>
                        D0 <- mset D i (i + 1) one ;;
                        D5 <- mset D0 i (i - 0) (of_Z (-2)) ;;
                        mset D5 i (i - 1) one)
                     (range 1 (Z.of_nat n - 1)) D3 = Some D4).
  { rewrite <- Hloop. unfold range.
    replace (Z.to_nat (Z.of_nat n - 1 - 1)) with (n - 2)%nat by lia.
    reflexivity. }
  rewrite Hl. cbn [bind].
  rewrite (mset_last_row (n:=n)) by (auto; lia). cbn [bind].
  set (D5 := upd D4 _ _).
  assert (H5 : square_shape n D5).
  { apply square_upd; [assumption|]. rewrite length_upd. apply H4. lia. }
  rewrite (mset_last_row (n:=n)) by (auto; lia). cbn [bind].
  set (D6 := upd D5 _ _).
  assert (H6 : square_shape n D6).
  { apply square_upd; [assumption|]. rewrite length_upd. apply H5. lia. }
  rewrite (mset_last_row (n:=n)) by (auto; lia).
  eexists. split; [reflexivity|]. split.
  { apply square_upd; [assumption|]. rewrite length_upd. apply H6. lia. }
  split; [|split].
  - unfold D6, D5. rewrite !nth_upd_other by lia.
    rewrite Hrows4.
    replace ((1 <=? 0) && (0 <? 1 + (n - 2)))%nat with false by reflexivity.
    assumption.
  - intros i Hi Hi'. unfold D6, D5. rewrite !nth_upd_other by lia.
    rewrite Hrows4.
    replace ((1 <=? i) && (i <? 1 + (n - 2)))%nat with true
      by (symmetry; apply andb_true_iff; split;
          [apply Nat.leb_le | apply Nat.ltb_lt]; lia).
    rewrite Hrows by lia. reflexivity.
  - destruct H4 as [L4 _]. destruct H5 as [L5 _]. destruct H6 as [L6 _].
    rewrite nth_upd_same by lia.
    unfold D6. rewrite nth_upd_same by lia.
    unfold D5. rewrite nth_upd_same by lia.
    rewrite Hrows4.
    replace ((1 <=? n - 1) && (n - 1 <? 1 + (n - 2)))%nat with false
      by (symmetry; apply andb_false_iff; right; apply Nat.ltb_ge; lia).
    rewrite Hrows by lia. reflexivity.
Qed.

End DerivativeMatrixLastRow.

Section Regulariser.

Open Scope Q_scope.

Lemma dot_cons (a b : Q) (l v : list Q) :
  dot (a :: l) (b :: v) == a * b + dot l v.
Proof.
  unfold dot, py_sum. cbn [combine map fold_left fst snd add zero mul Num_Q].
  rewrite !fold_left_sum. ring.
Qed.

Lemma dot_nil_r (l : list Q) : dot l [] = 0.
Proof. destruct l; reflexivity. Qed.

Lemma dot_all_zero_l (a b : list Q) :
  Forall (fun v => v == 0) a -> dot a b == 0.
Proof.
  intros Ha. revert b. induction Ha as [|x a Hx Ha IH]; intros b.
  - reflexivity.
  - destruct b as [|y b]; [reflexivity|].
    rewrite dot_cons, IH, Hx. ring.
Qed.

Lemma dot_all_zero_r (a b : list Q) :
  Forall (fun v => v == 0) b -> dot a b == 0.
Proof.
  intros Hb. revert a. induction Hb as [|y b Hy Hb IH]; intros a.
  - rewrite dot_nil_r. reflexivity.
  - destruct a as [|x a]; [reflexivity|].
    rewrite dot_cons, IH, Hy. ring.
Qed.

Lemma zeros_all_zero (n : nat) : Forall (fun v : Q => v == 0) (zeros n).
Proof.
  unfold zeros. induction n as [|n IH]; cbn [repeat]; constructor;
    [reflexivity | exact IH].
Qed.

Lemma dot_upd (l : list Q) :
  forall (k : nat) (x : Q) (v : list Q),
    (k < length l)%nat -> (k < length v)%nat ->
    dot (upd l k x) v == dot l v + (x - nth k l 0) * nth k v 0.
Proof.
  induction l as [|h t IH]; intros k x v Hl Hv; cbn [length] in Hl; [lia|].
  destruct v as [|y v]; cbn [length] in Hv; [lia|].
  destruct k as [|k]; cbn [upd nth].
  - rewrite !dot_cons. ring.
  - rewrite !dot_cons, IH by lia. ring.
Qed.

(** The product of a row holding three values in a row of zeros. *)
Lemma dot_three (n i j k : nat) (x y z : Q) (v : list Q) :
  length v = n -> (i < n)%nat -> (j < n)%nat -> (k < n)%nat ->
  i <> j -> i <> k -> j <> k ->
  dot (upd (upd (upd (zeros n) i x) j y) k z) v
  == x * nth i v 0 + y * nth j v 0 + z * nth k v 0.
Proof.
  intros Hv Hi Hj Hk Hij Hik Hjk.
  rewrite !dot_upd by (rewrite ?length_upd, ?length_zeros; lia).
  rewrite !nth_upd_other by auto.
  rewrite !(@nth_zeros Q Num_Q).
  rewrite (dot_all_zero_l _ (zeros_all_zero n)).
  cbn [zero Num_Q]. ring.
Qed.

Lemma nth_line (n k : nat) (c h : Q) :
  (k < n)%nat ->
  nth k (map (fun t => c + h * inject_Z (Z.of_nat t)) (seq 0 n)) 0
  == c + h * inject_Z (Z.of_nat k).
Proof.
  intros Hk.
  rewrite (nth_indep _ 0 (c + h * inject_Z (Z.of_nat 0)))
    by (rewrite length_map, length_seq; assumption).
  rewrite (map_nth (fun t => c + h * inject_Z (Z.of_nat t))).
  rewrite seq_nth by assumption. reflexivity.
Qed.

(** X17.  For [n >= 3] every row of [derivative_matrix(n)] is a second
    difference, the last row included: the matrix maps the values
    [c, c+h, c+2h, ...] of a straight line to the zero vector. *)
Theorem derivative_matrix_annihilates_lines (n : nat) (c h : Q) :
  (3 <= n)%nat ->
  exists D : matrix Q,
    derivative_matrix n = Some D
    /\ length (matvec D (map (fun t => c + h * inject_Z (Z.of_nat t))
                             (seq 0 n))) = n
    /\ Forall (fun v => v == 0)
              (matvec D (map (fun t => c + h * inject_Z (Z.of_nat t))
                             (seq 0 n))).
Proof.
  intros Hn.
  destruct (@derivative_matrix_all_rows Q Num_Q n Hn)
    as [D [HD [[HlenD Hsq] [Hfirst [Hmid Hlast]]]]].
  exists D. split; [exact HD|].
  set (v := map (fun t => c + h * inject_Z (Z.of_nat t)) (seq 0 n)).
  assert (Hv : length v = n) by (unfold v; rewrite length_map, length_seq; reflexivity).
  split; [unfold matvec; rewrite length_map; exact HlenD|].
  unfold matvec. apply Forall_map. apply Forall_forall. intros row Hrow.
  destruct (In_nth _ _ [] Hrow) as [i [Hi <-]]. rewrite HlenD in Hi.
  assert (Hstencil : dot (stencil_row n 0) v == 0).
  { unfold stencil_row. cbn [Nat.add].
    rewrite (@dot_three n 0 1 2) by (auto; lia).
    unfold v. rewrite !nth_line by lia.
    cbn [one of_Z Num_Q]. cbn [Z.of_nat Pos.of_succ_nat Pos.succ].
    unfold inject_Z. ring. }
  destruct (Nat.eq_dec i 0) as [->|Hi0]; [rewrite Hfirst; exact Hstencil|].
  destruct (Nat.eq_dec i (n - 1)) as [->|Hil]; [rewrite Hlast; exact Hstencil|].
  rewrite Hmid by lia. unfold write3.
  rewrite (@dot_three n (i + 1) i (i - 1)) by (auto; lia).
  unfold v. rewrite !nth_line by lia.
  destruct i as [|j]; [lia|].
  replace (S j - 1)%nat with j by lia.
  replace (Z.of_nat (S j + 1)) with (Z.of_nat j + 2)%Z by lia.
  replace (Z.of_nat (S j)) with (Z.of_nat j + 1)%Z by lia.
  rewrite !inject_Z_plus. cbn [one of_Z Num_Q].
  unfold inject_Z. ring.
Qed.

Lemma derivative_matrix_annihilates_lines_witness :
  exists D : matrix Q,
    derivative_matrix 5 = Some D
    /\ length (matvec D (map (fun t => 1 + (1 # 2) * inject_Z (Z.of_nat t))
                             (seq 0 5))) = 5%nat
    /\ Forall (fun v => v == 0)
              (matvec D (map (fun t => 1 + (1 # 2) * inject_Z (Z.of_nat t))
                             (seq 0 5))).
Proof.
  apply (@derivative_matrix_annihilates_lines 5 1 (1 # 2)). lia.
Defined.

Lemma nth_all_zero (l : list Q) (j : nat) :
  Forall (fun v => v == 0) l -> nth j l 0 == 0.
Proof.
  intros Hl. revert j. induction Hl as [|x l Hx Hl IH]; intros [|j];
    cbn [nth]; try reflexivity; [exact Hx | apply IH].
Qed.

Lemma upd_all_zero (l : list Q) (k : nat) (x : Q) :
  Forall (fun v => v == 0) l -> x == 0 ->
  Forall (fun v => v == 0) (upd l k x).
Proof.
  intros Hl Hx. revert k. induction Hl as [|y l Hy Hl IH]; intros [|k];
    cbn [upd]; constructor; auto.
Qed.

Lemma diag_zeros_all_zero (n : nat) :
  Forall (Forall (fun v : Q => v == 0)) (diag (zeros n)).
Proof.
  unfold diag. apply Forall_map. apply Forall_forall. intros i _.
  apply upd_all_zero; [apply zeros_all_zero|].
  rewrite (@nth_zeros Q Num_Q). reflexivity.
Qed.

Lemma transpose_all_zero (c : nat) (B : matrix Q) :
  Forall (Forall (fun v => v == 0)) B ->
  Forall (Forall (fun v => v == 0)) (transpose c B).
Proof.
  intros HB. unfold transpose. apply Forall_map. apply Forall_forall.
  intros j _. apply Forall_map.
  eapply Forall_impl; [|exact HB].
  intros row Hrow. apply nth_all_zero. exact Hrow.
Qed.

Lemma matmul_all_zero_l (c : nat) (A B : matrix Q) :
  Forall (Forall (fun v => v == 0)) A ->
  Forall (Forall (fun v => v == 0)) (matmul c A B).
Proof.
  intros HA. unfold matmul. apply Forall_map.
  eapply Forall_impl; [|exact HA].
  intros row Hrow. apply Forall_map. apply Forall_forall. intros col _.
  apply dot_all_zero_l. exact Hrow.
Qed.

Lemma matmul_all_zero_r (c : nat) (A B : matrix Q) :
  Forall (Forall (fun v => v == 0)) (transpose c B) ->
  Forall (Forall (fun v => v == 0)) (matmul c A B).
Proof.
  intros HB. unfold matmul. apply Forall_map. apply Forall_forall.
  intros row _. apply Forall_map.
  eapply Forall_impl; [|exact HB].
  intros col Hcol. apply dot_all_zero_r. exact Hcol.
Qed.

Lemma mscale_all_zero (a : Q) (A : matrix Q) :
  Forall (Forall (fun v => v == 0)) A ->
  Forall (Forall (fun v => v == 0)) (mscale a A).
Proof.
  intros HA. unfold mscale. apply Forall_map.
  eapply Forall_impl; [|exact HA].
  intros row Hrow. apply Forall_map.
  eapply Forall_impl; [|exact Hrow].
  intros v Hv. cbn [mul Num_Q]. rewrite Hv. ring.
Qed.

(** X18.  The test [np.all(w) == 0] of [lsq] replaces the weights by
    zeros as soon as one of them is zero (the default [w=0] included);
    the jump regularisation [R = a*D.T.dot(np.diag(w)).dot(D)] is then the
    zero matrix, whatever the penalty [a]. *)
Theorem lsq_regulariser_vanishes (x y U : list Q) (p : nat) (a : Q)
    (w : weights Q) (A : matrix Q) (b : list Q) (R_ : matrix Q) :
  np_all w = false ->
  lsq_system x y U p a w = Some (A, b, R_) ->
  length R_ = Z.to_nat (len U - 1 - Z.of_nat p)
  /\ Forall (Forall (fun v => v == 0)) R_.
Proof.
  intros Hall Hs. unfold lsq_system in Hs. rewrite Hall in Hs.
  cbn [negb] in Hs.
  inv_bind Hs. inv_bind Hs. inv_bind Hs. injection E1 as <-.
  inv_bind Hs. inv_bind Hs. inv_bind Hs. rename a4 into D, E3 into HD.
  inv_bind Hs. injection Hs as <- <- <-.
  split.
  - unfold mscale, matmul. rewrite !length_map. unfold transpose.
    rewrite length_map, length_seq. reflexivity.
  - apply mscale_all_zero. apply matmul_all_zero_l. apply matmul_all_zero_r.
    apply transpose_all_zero. apply diag_zeros_all_zero.
Qed.

Lemma lsq_regulariser_vanishes_witness :
  exists A b R_,
    lsq_system [0; 1 # 2; 1] [1; 2; 4] [0; 0; 0; 1; 1; 1] 2 7
               (WArray [1; 0; 1]) = Some (A, b, R_)
    /\ length R_ = 3%nat
    /\ Forall (Forall (fun v => v == 0)) R_.
Proof.
  eexists. eexists. eexists.
  split; [vm_compute; reflexivity|].
  eapply (@lsq_regulariser_vanishes [0; 1 # 2; 1] [1; 2; 4]
            [0; 0; 0; 1; 1; 1] 2 7 (WArray [1; 0; 1])).
  - reflexivity.
  - vm_compute. reflexivity.
Defined.

Section Truncation.

Variable svd : matrix Q -> option (matrix Q * list Q * matrix Q).

(** X19.  [svd_inv] inverts only the singular values above [tol]: when
    none exceeds it, the solution is the zero vector of length [n],
    whatever the right-hand side. *)
Theorem svd_inv_discards_small_singular_values (n : nat) (A : matrix Q)
    (b : list Q) (s tol : Q) (D uh vh : matrix Q) (sh : list Q) :
  svd (normal_matrix n A s D) = Some (uh, sh, vh) ->
  (forall v, In v sh -> v <= tol) ->
  exists p0,
    svd_inv svd n A b s tol D = Some p0
    /\ length p0 = n
    /\ Forall (fun v => v == 0) p0.
Proof.
  intros Hsvd Hsmall. unfold svd_inv. rewrite Hsvd. cbn [bind].
  eexists. split; [reflexivity|]. split.
  - unfold matvec, matmul. rewrite !length_map. unfold transpose.
    rewrite length_map, length_seq. reflexivity.
  - set (shi := map _ sh).
    assert (Hshi : Forall (fun v => v == 0) shi).
    { unfold shi. apply Forall_map. apply Forall_forall. intros v Hv.
      replace (ltb tol v) with false
        by (symmetry; apply Q_ltb_false; apply Hsmall; exact Hv).
      reflexivity. }
    unfold matvec at 1. apply Forall_map.
    eapply Forall_impl;
      [intros row Hrow; apply dot_all_zero_l; exact Hrow|].
    apply matmul_all_zero_l. apply Forall_map. apply Forall_forall.
    intros row _. apply Forall_map. apply Forall_forall.
    intros [r v] Hin. cbn [fst snd mul Num_Q].
    apply in_combine_r in Hin. rewrite Forall_forall in Hshi.
    rewrite (Hshi v Hin). ring.
Qed.

End Truncation.

Lemma svd_inv_discards_small_singular_values_witness :
  exists p0,
    svd_inv (fun M : matrix Q =>
               Some (eye 2, [entry M 0 0; entry M 1 1], eye 2))
            2 [[1 # 2; 0]; [0; 1 # 2]] [3; 5] 0 1 [[1 # 4; 0]; [0; 0]]
    = Some p0
    /\ length p0 = 2%nat
    /\ Forall (fun v => v == 0) p0.
Proof.
  eapply (@svd_inv_discards_small_singular_values
            (fun M : matrix Q =>
               Some (eye 2, [entry M 0 0; entry M 1 1], eye 2))
            2 [[1 # 2; 0]; [0; 1 # 2]] [3; 5] 0 1 [[1 # 4; 0]; [0; 0]]).
  - reflexivity.
  - intros v [<-|[<-|[]]]; vm_compute; discriminate.
Defined.

End Regulariser.

(** ** The smoothing loop *)

Section Smoothing.

Context {R : Type} `{Num R} `{Sqrt R} `{Literals R}.

Variable svd : matrix R -> option (matrix R * list R * matrix R).
Variable kmeans : list R -> nat -> list R.

Variables x y : list R.
Variable sm : R.
Variable mmax : Z.
Variable p : nat.

(** What the loop returns is either what it was entered with, or the
    result of its last fit, after which the loop condition fails. *)
Lemma smoothing_loop_result (fuel : nat) :
  forall (m : nat) (res : R) (last out : option (list R * list R * list R)),
    smoothing_loop svd kmeans fuel x y sm mmax p m res last = out ->
    out <> None ->
    (out = last /\ ltb sm res && (Z.of_nat m <? mmax)%Z = false)
    \/ exists (k : nat) (Px Py U : list R) (r : R * R),
         out = Some (Px, Py, U)
         /\ (Z.of_nat (m + 2 * k) < mmax)%Z
         /\ lsq2l2 svd kmeans x y (m + 2 * k) p KnotsUniform zero
            = Some (Px, Py, U, r)
         /\ (ltb sm (norm [fst r; snd r]) = false
             \/ (mmax <= Z.of_nat (m + 2 * k) + 2)%Z).
Proof.
  induction fuel as [|fuel IH]; intros m res last out Hl Hout;
    cbn [smoothing_loop] in Hl.
  - destruct (ltb sm res && (Z.of_nat m <? mmax)%Z) eqn:Hc.
    + congruence.
    + left. split; [congruence | reflexivity].
  - destruct (ltb sm res && (Z.of_nat m <? mmax)%Z) eqn:Hc.
    + right. apply andb_true_iff in Hc. destruct Hc as [_ Hm].
      apply Z.ltb_lt in Hm.
      destruct (lsq2l2 svd kmeans x y m p KnotsUniform zero)
        as [[[[Px Py] U] r]|] eqn:Hfit; cbn [bind] in Hl; [|congruence].
      destruct (IH _ _ _ _ Hl Hout) as [[Hlast Hstop]|Hlater].
      * exists 0%nat, Px, Py, U, r.
        replace (m + 2 * 0)%nat with m by lia.
        split; [congruence|]. split; [exact Hm|]. split; [exact Hfit|].
        apply andb_false_iff in Hstop. destruct Hstop as [Hs|Hs];
          [left; exact Hs | right; apply Z.ltb_ge in Hs; lia].
      * destruct Hlater as [k [Px' [Py' [U' [r' [Ho [Hk [Hfit' Hstop]]]]]]]].
        exists (S k), Px', Py', U', r'.
        replace (m + 2 * S k)%nat with (2 + m + 2 * k)%nat by lia.
        split; [exact Ho|]. split; [exact Hk|]. split; [exact Hfit'|].
        exact Hstop.
    + left. split; [congruence | reflexivity].
Qed.

(** The loop returns when every fit that it calls does, and its
    variables are bound at the end. *)
Lemma smoothing_loop_returns (fuel : nat) :
  forall (m : nat) (res : R) (last : option (list R * list R * list R)),
    (mmax - Z.of_nat m <= Z.of_nat fuel)%Z ->
    (forall m', (m <= m')%nat -> (Z.of_nat m' < mmax)%Z ->
                lsq2l2 svd kmeans x y m' p KnotsUniform zero <> None) ->
    last <> None \/ ltb sm res && (Z.of_nat m <? mmax)%Z = true ->
    smoothing_loop svd kmeans fuel x y sm mmax p m res last <> None.
Proof.
  induction fuel as [|fuel IH]; intros m res last Hfuel Hfits Hbound;
    cbn [smoothing_loop].
  - destruct (ltb sm res && (Z.of_nat m <? mmax)%Z) eqn:Hc.
    + apply andb_true_iff in Hc. destruct Hc as [_ Hm].
      apply Z.ltb_lt in Hm. lia.
    + destruct Hbound as [Hl|Hl]; [exact Hl | discriminate Hl].
  - destruct (ltb sm res && (Z.of_nat m <? mmax)%Z) eqn:Hc.
    + apply andb_true_iff in Hc. destruct Hc as [_ Hm].
      apply Z.ltb_lt in Hm.
      destruct (lsq2l2 svd kmeans x y m p KnotsUniform zero)
        as [[[[Px Py] U] r]|] eqn:Hfit; cbn [bind].
      * apply IH; [lia | | left; discriminate].
        intros m' Hm' Hlt. apply Hfits; [lia | exact Hlt].
      * exfalso. apply (Hfits m); [lia | exact Hm | exact Hfit].
    + destruct Hbound as [Hl|Hl]; [exact Hl | discriminate Hl].
Qed.

(** X21.  What [smoothing] returns is the result of a call of [lsq2l2]
    with an even number [m] of knots, [2 <= m < mmax]: the knot vector is
    [uniformknots(m, p, 0, 1)], and either the norm of the residuals is
    not above [sm], or [m + 2] has reached [mmax]. *)
Theorem smoothing_result (Px Py U : list R) :
  smoothing svd kmeans x y sm mmax p = Some (Px, Py, U) ->
  exists (k : nat) (r : R * R),
    (Z.of_nat (2 + 2 * k) < mmax)%Z
    /\ lsq2l2 svd kmeans x y (2 + 2 * k) p KnotsUniform zero
       = Some (Px, Py, U, r)
    /\ U = uniformknots (2 + 2 * k) p zero one
    /\ (ltb sm (norm [fst r; snd r]) = false
        \/ (mmax <= Z.of_nat (2 + 2 * k) + 2)%Z).
Proof.
  intros Hs. unfold smoothing in Hs.
  destruct (smoothing_loop_result _ _ _ _ Hs ltac:(discriminate))
    as [[Hlast _]|[k [Px' [Py' [U' [r [Ho [Hk [Hfit Hstop]]]]]]]]];
    [discriminate Hlast|].
  injection Ho as <- <- <-.
  exists k, r. split; [exact Hk|]. split; [exact Hfit|].
  split; [|exact Hstop].
  unfold lsq2l2 in Hfit. inv_bind Hfit. cbn [bind] in Hfit.
  inv_bind Hfit. destruct a0 as [[Px' Py'] res'].
  injection Hfit as _ _ <- _. reflexivity.
Qed.

(** X22.  With [mmax <= 2], or with an [sm] for which [sm + 1 > sm] is
    false, the loop of [smoothing] is never entered and [return Px, Py, U]
    reads unbound variables: the call raises. *)
Theorem smoothing_unbound :
  (mmax <= 2)%Z \/ ltb sm (add sm one) = false ->
  smoothing svd kmeans x y sm mmax p = None.
Proof.
  intros Hc. unfold smoothing.
  assert (Hcond : ltb sm (add sm one) && (Z.of_nat 2 <? mmax)%Z = false).
  { apply andb_false_iff. destruct Hc as [Hm|Hs];
      [right; apply Z.ltb_ge; exact Hm | left; exact Hs]. }
  destruct (Z.to_nat mmax); cbn [smoothing_loop]; rewrite Hcond; reflexivity.
Qed.

(** X23.  With [mmax > 2] and [sm + 1 > sm], [smoothing] returns as soon
    as every fit [lsq2l2(x, y, m, p)] with [2 <= m < mmax] returns: the
    loop ends within its [mmax] iterations. *)
Theorem smoothing_returns :
  (2 < mmax)%Z ->
  ltb sm (add sm one) = true ->
  (forall m, (2 <= m)%nat -> (Z.of_nat m < mmax)%Z ->
             lsq2l2 svd kmeans x y m p KnotsUniform zero <> None) ->
  exists Px Py U, smoothing svd kmeans x y sm mmax p = Some (Px, Py, U).
Proof.
  intros Hm Hs Hfits. unfold smoothing.
  destruct (smoothing_loop svd kmeans (Z.to_nat mmax) x y sm mmax p 2
              (add sm one) None) as [[[Px Py] U]|] eqn:E.
  - exists Px, Py, U. reflexivity.
  - exfalso. revert E. apply smoothing_loop_returns; [lia | exact Hfits |].
    right. rewrite Hs. apply Z.ltb_lt. exact Hm.
Qed.

End Smoothing.

Section SmoothingRuns.

Open Scope float_scope.

Lemma smoothing_result_witness :
  exists (Px Py U : list float) (k : nat) (r : float * float),
    smoothing svd_diag (fun s _ => s) [0; 0; 0; 0; 1; 1; 1; 2; 2; 3]
              [0; 0; 0; 0; 0; 0; 0; 0; 0; 0] 0.5 3 1
    = Some (Px, Py, U)
    /\ (Z.of_nat (2 + 2 * k) < 3)%Z
    /\ lsq2l2 svd_diag (fun s _ => s) [0; 0; 0; 0; 1; 1; 1; 2; 2; 3]
              [0; 0; 0; 0; 0; 0; 0; 0; 0; 0] (2 + 2 * k) 1 KnotsUniform 0
       = Some (Px, Py, U, r)
    /\ U = uniformknots (2 + 2 * k) 1 0 1
    /\ (ltb 0.5 (norm [fst r; snd r]) = false
        \/ (3 <= Z.of_nat (2 + 2 * k) + 2)%Z).
Proof.
  destruct (smoothing svd_diag (fun s _ => s) [0; 0; 0; 0; 1; 1; 1; 2; 2; 3]
              [0; 0; 0; 0; 0; 0; 0; 0; 0; 0] 0.5 3 1)
    as [[[Px Py] U]|] eqn:E; [|vm_compute in E; discriminate E].
  destruct (smoothing_result _ _ _ _ _ _ _ E) as [k [r Hr]].
  exists Px, Py, U, k, r. split; [reflexivity | exact Hr].
Defined.

Lemma smoothing_unbound_witness :
  smoothing svd_diag (fun s _ => s) [0; 1; 2] [0; 1; 0]
            9007199254740992 100 3 = None.
Proof.
  apply smoothing_unbound. right. reflexivity.
Defined.

Lemma smoothing_returns_witness :
  exists Px Py U,
    smoothing svd_diag (fun s _ => s) [0; 0; 0; 0; 1; 1; 1; 2; 2; 3]
              [0; 0; 0; 0; 0; 0; 0; 0; 0; 0] 0.5 3 1
    = Some (Px, Py, U).
Proof.
  apply smoothing_returns.
  - lia.
  - reflexivity.
  - intros m H2 H3. replace m with 2%nat by lia.
    vm_compute. discriminate.
Defined.

End SmoothingRuns.

(** ** The uniform cubic spline *)

Section EvalCubic.

Open Scope Q_scope.

Lemma in_upd (l : list Q) (k : nat) (x v : Q) :
  In v (upd l k x) -> v = x \/ In v l.
Proof.
  revert k. induction l as [|h t IH]; intros [|k] Hv; cbn [upd] in Hv.
  - destruct Hv.
  - destruct Hv.
  - destruct Hv as [<-|Hv]; [left; reflexivity | right; right; exact Hv].
  - destruct Hv as [<-|Hv]; [right; left; reflexivity|].
    destruct (IH k Hv) as [->|Hi]; [left; reflexivity | right; right; exact Hi].
Qed.

(** The samples of [np.linspace(0, 1, npts)] lie in [[0, 1]]. *)
Lemma linspace_unit (npts : nat) (v : Q) :
  In v (linspace 0 1 npts) -> 0 <= v /\ v <= 1.
Proof.
  unfold linspace. cbn [sub add mul div eqb of_Z zero one Num_Q].
  intros Hv.
  assert (Hlast : forall l, In v (if (1 <? npts)%nat then upd l (npts - 1) 1
                                  else l) ->
                            v = 1 \/ In v l).
  { intros l Hl. destruct (1 <? npts)%nat; [apply in_upd in Hl; exact Hl|].
    right. exact Hl. }
  apply Hlast in Hv. destruct Hv as [->|Hv]; [split; discriminate|].
  apply in_map_iff in Hv. destruct Hv as [w [<- Hw]].
  destruct (0 <? Z.of_nat npts - 1)%Z eqn:Hd.
  - apply Z.ltb_lt in Hd.
    assert (Hden : 0 < inject_Z (Z.of_nat npts - 1)).
    { rewrite <- (Zlt_Qlt 0). exact Hd. }
    assert (Hk : exists k, (k < npts)%nat /\ w * inject_Z (Z.of_nat npts - 1)
                                             == inject_Z (Z.of_nat k)).
    { destruct (Qeq_bool ((1 - 0) / inject_Z (Z.of_nat npts - 1)) 0);
        apply in_map_iff in Hw; destruct Hw as [c [<- Hc]];
        apply in_map_iff in Hc; destruct Hc as [k [<- Hk]];
        apply in_seq in Hk; exists k; (split; [lia|]); field; lra. }
    destruct Hk as [k [Hk Hw']].
    assert (H0 : 0 <= inject_Z (Z.of_nat k))
      by (rewrite <- (Zle_Qle 0); lia).
    assert (H1 : inject_Z (Z.of_nat k) <= inject_Z (Z.of_nat npts - 1))
      by (rewrite <- Zle_Qle; lia).
    split.
    + assert (0 <= w); [|lra].
      apply Qnot_lt_le. intros Hneg.
      assert (w * inject_Z (Z.of_nat npts - 1) < 0) by nra. lra.
    + assert (w <= 1); [|lra].
      apply Qnot_lt_le. intros Hbig.
      assert (inject_Z (Z.of_nat npts - 1)
              < w * inject_Z (Z.of_nat npts - 1)) by nra.
      lra.
  - apply Z.ltb_ge in Hd.
    apply in_map_iff in Hw. destruct Hw as [c [<- Hc]].
    apply in_map_iff in Hc. destruct Hc as [k [<- Hk]].
    apply in_seq in Hk. replace k with 0%nat by lia.
    split; discriminate.
Qed.

(** A segment of the spline is a convex combination of its four control
    points. *)
Lemma cubic_segment_bounds (t lo hi : Q) (c : list Q) :
  0 <= t -> t <= 1 -> length c = 4%nat ->
  (forall v, In v c -> lo <= v /\ v <= hi) ->
  lo <= dot (cubic t) c /\ dot (cubic t) c <= hi.
Proof.
  intros Ht0 Ht1 Hlen Hc.
  destruct c as [|c0 [|c1 [|c2 [|c3 [|]]]]]; try discriminate Hlen.
  destruct (cubic_weights t) as [w0 [w1 [w2 [w3 [Hw [H0 [H1 [H2 H3]]]]]]]].
  rewrite Hw. rewrite !dot_cons. change (dot [] []) with 0.
  assert (Hs : 0 <= t * t) by nra.
  assert (Hu : 0 <= 1 - t) by lra.
  assert (Hm : 0 <= (1 - t) * (1 - t)) by nra.
  assert (P0 : 0 <= w0).
  { rewrite H0. apply Qle_shift_div_l; [reflexivity|]. nra. }
  assert (P3 : 0 <= w3).
  { rewrite H3. apply Qle_shift_div_l; [reflexivity|]. nra. }
  assert (P1 : 0 <= w1).
  { rewrite H1. apply Qle_shift_div_l; [reflexivity|].
    assert (0 <= t * t * (1 - t)) by nra.
    assert (0 <= t * (1 - t)) by nra. nra. }
  assert (P2 : 0 <= w2).
  { rewrite H2. apply Qle_shift_div_l; [reflexivity|].
    assert (0 <= t * t * (1 - t)) by nra. nra. }
  assert (Hsum : w0 + w1 + w2 + w3 == 1) by (rewrite H0, H1, H2, H3; field).
  destruct (Hc c0 ltac:(simpl; auto)) as [L0 U0].
  destruct (Hc c1 ltac:(simpl; auto)) as [L1 U1].
  destruct (Hc c2 ltac:(simpl; auto)) as [L2 U2].
  destruct (Hc c3 ltac:(simpl; auto)) as [L3 U3].
  assert (A0 : 0 <= w0 * (c0 - lo)) by (apply Qmult_le_0_compat; lra).
  assert (A1 : 0 <= w1 * (c1 - lo)) by (apply Qmult_le_0_compat; lra).
  assert (A2 : 0 <= w2 * (c2 - lo)) by (apply Qmult_le_0_compat; lra).
  assert (A3 : 0 <= w3 * (c3 - lo)) by (apply Qmult_le_0_compat; lra).
  assert (B0 : 0 <= w0 * (hi - c0)) by (apply Qmult_le_0_compat; lra).
  assert (B1 : 0 <= w1 * (hi - c1)) by (apply Qmult_le_0_compat; lra).
  assert (B2 : 0 <= w2 * (hi - c2)) by (apply Qmult_le_0_compat; lra).
  assert (B3 : 0 <= w3 * (hi - c3)) by (apply Qmult_le_0_compat; lra).
  assert (El : w0 * c0 + (w1 * c1 + (w2 * c2 + (w3 * c3 + 0))) - lo
               == w0 * (c0 - lo) + w1 * (c1 - lo) + w2 * (c2 - lo)
                  + w3 * (c3 - lo) + lo * (w0 + w1 + w2 + w3 - 1)) by ring.
  assert (Eh : hi - (w0 * c0 + (w1 * c1 + (w2 * c2 + (w3 * c3 + 0))))
               == w0 * (hi - c0) + w1 * (hi - c1) + w2 * (hi - c2)
                  + w3 * (hi - c3) - hi * (w0 + w1 + w2 + w3 - 1)) by ring.
  rewrite Hsum in El, Eh.
  split; lra.
Qed.

Lemma in_py_slice {A : Type} (l : list A) (lo hi : Z) (v : A) :
  In v (py_slice l lo hi) -> In v l.
Proof.
  unfold py_slice. intros Hv.
  rewrite <- (firstn_skipn (slice_bound (len l) lo) l).
  apply in_or_app. right.
  rewrite <- (firstn_skipn (slice_bound (len l) hi - slice_bound (len l) lo)
                           (skipn (slice_bound (len l) lo) l)).
  apply in_or_app. left. exact Hv.
Qed.

(** The inner loop of [eval] fills the next [len(t)] places of [x] and
    [y]. *)
Lemma eval_inner (ctrl : list Q) (i : Z) (ts : list Q) :
  forall (px py : list Q) (r : nat),
    length px = length py ->
    foldM (eval_step ctrl i) ts
          (px ++ zeros (length ts + r), py ++ zeros (length ts + r), len px)
    = Some (px ++ map (fun ti => inject_Z i + ti - 1) ts ++ zeros r,
            py ++ map (fun ti => dot (cubic ti) ctrl) ts ++ zeros r,
            (len px + len ts)%Z).
Proof.
  induction ts as [|t ts IH]; intros px py r Hlen.
  - cbn [foldM length Nat.add map app]. unfold len at 3. cbn [length].
    rewrite Z.add_0_r. reflexivity.
  - cbn [foldM]. unfold eval_step at 1. cbv beta iota zeta.
    cbn [length Nat.add].
    change (zeros (S (length ts + r)))
      with (@zero Q Num_Q :: zeros (length ts + r)).
    rewrite py_set_nonneg
      by (unfold len; rewrite length_app; cbn [length]; lia).
    cbn [bind].
    rewrite py_set_nonneg
      by (unfold len; rewrite length_app; cbn [length]; lia).
    cbn [bind].
    replace (Z.to_nat (len px)) with (length px + 0)%nat
      by (unfold len; lia).
    rewrite upd_app. rewrite Hlen, upd_app. cbn [upd].
    cbn [sub add one of_Z Num_Q].
    replace (px ++ inject_Z i + t - 1 :: zeros (length ts + r))
      with ((px ++ [inject_Z i + t - 1]) ++ zeros (length ts + r))
      by (rewrite <- app_assoc; reflexivity).
    replace (py ++ dot (cubic t) ctrl :: zeros (length ts + r))
      with ((py ++ [dot (cubic t) ctrl]) ++ zeros (length ts + r))
      by (rewrite <- app_assoc; reflexivity).
    replace (len px + 1)%Z with (len (px ++ [inject_Z i + t - 1]))
      by (unfold len; rewrite length_app; cbn [length]; lia).
    rewrite IH by (rewrite !length_app; cbn [length]; lia).
    rewrite <- !app_assoc. cbn [app map]. f_equal. f_equal.
    unfold len. rewrite length_app. cbn [length]. lia.
Qed.

(** The loops of [eval] fill [x] and [y] segment by segment. *)
Lemma eval_outer (P t : list Q) (segs : list Z) :
  forall (px py : list Q) (r : nat),
    length px = length py ->
    foldM (fun st i =>
             let ctrlpts := py_slice P (i - 1) (i + 3) in
             foldM (eval_step ctrlpts i) t st)
          segs
          (px ++ zeros (length segs * length t + r),
           py ++ zeros (length segs * length t + r), len px)
    = Some (px ++ flat_map (fun i => map (fun ti => inject_Z i + ti - 1) t)
                           segs ++ zeros r,
            py ++ flat_map (fun i =>
                              map (fun ti => dot (cubic ti)
                                                 (py_slice P (i - 1) (i + 3)))
                                  t)
                           segs ++ zeros r,
            (len px + len segs * len t)%Z).
Proof.
  induction segs as [|i segs IH]; intros px py r Hlen.
  - cbn [foldM length Nat.mul Nat.add flat_map app]. unfold len at 3.
    cbn [length]. rewrite Z.mul_0_l, Z.add_0_r. reflexivity.
  - cbn [foldM flat_map]. cbn [length Nat.mul].
    rewrite <- Nat.add_assoc.
    cbv zeta. rewrite eval_inner by exact Hlen. cbn [bind].
    rewrite !app_assoc.
    replace (len px + len t)%Z
      with (len (px ++ map (fun ti => inject_Z i + ti - 1) t))
      by (unfold len; rewrite length_app, length_map; lia).
    rewrite IH by (rewrite !length_app, !length_map; lia).
    rewrite <- !app_assoc. f_equal. f_equal.
    unfold len. rewrite length_app, length_map. cbn [length]. lia.
Qed.

(** X24.  [eval] on at least three control points returns [x] and [y] of
    [(len(P)-3)*npts] values each; the values of [y] stay within the
    bounds of the control points, and those of [x] within
    [[0, len(P)-3]]. *)
Theorem eval_in_hull (P : list Q) (npts : nat) (lo hi : Q) :
  (3 <= length P)%nat ->
  (forall v, In v P -> lo <= v /\ v <= hi) ->
  exists x y,
    eval P npts = Some (x, y)
    /\ length x = ((length P - 3) * npts)%nat
    /\ length y = ((length P - 3) * npts)%nat
    /\ (forall v, In v y -> lo <= v /\ v <= hi)
    /\ (forall v, In v x -> 0 <= v /\ v <= inject_Z (len P - 3)).
Proof.
  intros HP Hb. unfold eval.
  replace (0 <=? (len P - 3) * Z.of_nat npts)%Z with true
    by (symmetry; apply Z.leb_le; unfold len; nia).
  cbn [assert bind].
  set (t := linspace zero one npts).
  set (segs := range 1 (len P - 2)).
  assert (Ht : length t = npts) by apply linspace_length.
  assert (Hsegs : length segs = (length P - 3)%nat).
  { unfold segs, range. rewrite length_map, length_seq. unfold len. lia. }
  replace (Z.to_nat ((len P - 3) * Z.of_nat npts))
    with (length segs * length t + 0)%nat
    by (rewrite Hsegs, Ht; unfold len; nia).
  pose proof (@eval_outer P t segs [] [] 0%nat eq_refl) as Hloop.
  cbn [app] in Hloop. change (len (@nil Q)) with 0%Z in Hloop.
  rewrite Hloop. cbn [bind].
  eexists. eexists. split; [reflexivity|].
  assert (Hseg : forall i, In i segs -> (1 <= i <= len P - 3)%Z).
  { intros i Hi. unfold segs, range in Hi. apply in_map_iff in Hi.
    destruct Hi as [k [<- Hk]]. apply in_seq in Hk. unfold len in *. lia. }
  split; [|split; [|split]].
  - rewrite length_app.
    rewrite (@flat_map_constant_length _ _ npts)
      by (intros; rewrite length_map; exact Ht).
    cbn [zeros repeat length]. rewrite Hsegs. lia.
  - rewrite length_app.
    rewrite (@flat_map_constant_length _ _ npts)
      by (intros; rewrite length_map; exact Ht).
    cbn [zeros repeat length]. rewrite Hsegs. lia.
  - intros v Hv. apply in_app_or in Hv. destruct Hv as [Hv|[]].
    apply in_flat_map in Hv. destruct Hv as [i [Hi Hv]].
    apply in_map_iff in Hv. destruct Hv as [ti [<- Hti]].
    destruct (linspace_unit _ _ Hti) as [Ht0 Ht1].
    apply cubic_segment_bounds; [exact Ht0 | exact Ht1 | |].
    + pose proof (Hseg i Hi) as Hr.
      unfold py_slice, slice_bound.
      replace (i - 1 <? 0)%Z with false by (symmetry; apply Z.ltb_ge; lia).
      replace (i + 3 <? 0)%Z with false by (symmetry; apply Z.ltb_ge; lia).
      rewrite length_firstn, length_skipn. unfold len in *. lia.
    + intros c Hc. apply Hb. apply (in_py_slice _ _ _ _ Hc).
  - intros v Hv. apply in_app_or in Hv. destruct Hv as [Hv|[]].
    apply in_flat_map in Hv. destruct Hv as [i [Hi Hv]].
    apply in_map_iff in Hv. destruct Hv as [ti [<- Hti]].
    destruct (linspace_unit _ _ Hti) as [Ht0 Ht1].
    pose proof (Hseg i Hi) as [Hi1 Hi2].
    rewrite Zle_Qle in Hi1, Hi2.
    change (inject_Z 1) with 1 in Hi1.
    split; lra.
Qed.

Lemma eval_in_hull_witness :
  exists x y,
    eval [1; 4; 2; 3; 5] 3 = Some (x, y)
    /\ length x = ((5 - 3) * 3)%nat
    /\ length y = ((5 - 3) * 3)%nat
    /\ (forall v, In v y -> 1 <= v /\ v <= 5)
    /\ (forall v, In v x -> 0 <= v /\ v <= inject_Z (5 - 3)).
Proof.
  apply (@eval_in_hull [1; 4; 2; 3; 5] 3 1 5).
  - cbn [length]. lia.
  - intros v [<-|[<-|[<-|[<-|[<-|[]]]]]]; split; discriminate.
Defined.

End EvalCubic.

(** ** Counting knots *)

(** X25.  [numknots] agrees with [uniformknots]: for [n >= p + 1] control
    points, the uniform knot vector on the [numknots(n, p, interior)]
    interior knots (any non-zero [interior]) has [numknots(n, p)] knots,
    which is [n + p + 1], the length that [Curve] asserts. *)
Theorem numknots_counts_uniformknots {R : Type} `{Num R} (n p : nat)
    (interior : Z) (a b : R) :
  (p + 1 <= n)%nat -> interior <> 0%Z ->
  len (uniformknots
         (Z.to_nat (numknots (Z.of_nat n) (Z.of_nat p) interior)) p a b)
  = numknots (Z.of_nat n) (Z.of_nat p) 0
  /\ numknots (Z.of_nat n) (Z.of_nat p) 0
     = (Z.of_nat p + Z.of_nat n + 1)%Z.
Proof.
  intros Hn Hi. unfold len. rewrite uniformknots_length. unfold numknots.
  replace (interior =? 0)%Z with false by (symmetry; apply Z.eqb_neq; exact Hi).
  cbn [Z.eqb]. lia.
Qed.

Lemma numknots_counts_uniformknots_witness :
  len (uniformknots (R:=Q) (Z.to_nat (numknots 7 3 1)) 3 0%Q 1%Q)
  = numknots 7 3 0
  /\ numknots 7 3 0 = (3 + 7 + 1)%Z.
Proof.
  apply (@numknots_counts_uniformknots Q _ 7 3 1 0%Q 1%Q); [lia | discriminate].
Defined.

(** ** Partition of unity under rounding *)

Section Returns.

Context {R : Type} `{Num R}.

Variable U : list R.
Variable i : Z.
Variable u : R.
Variable p : nat.

Hypothesis span_low : (Z.of_nat p <= i)%Z.
Hypothesis knots_high : (i + Z.of_nat p < len U)%Z.

(** With its knots inside [U], the recurrence raises nothing. *)
Lemma basis_outer_returns (k : nat) :
  forall (j : nat) (left right N : list R),
    (j + k = p + 1)%nat -> (1 <= j)%nat ->
    exists N', basis_outer U i u k j left right N = Some N'.
Proof.
  induction k as [|k IH]; intros j left right N Hjk Hj; cbn [basis_outer].
  - exists N. reflexivity.
  - rewrite (py_index_nonneg U zero (k:=(i + 1 - Z.of_nat j)%Z)) by lia.
    cbn [bind].
    rewrite (py_index_nonneg U zero (k:=(i + Z.of_nat j)%Z)) by lia.
    cbn [bind].
    destruct (basis_inner _ _ j j 0 N zero) as [N1 saved].
    apply IH; lia.
Qed.

Lemma basisfuns_returns :
  exists N, basisfuns i u p U = Some N /\ length N = (p + 1)%nat.
Proof.
  assert (HU : U <> []).
  { intros E. rewrite E in knots_high. unfold len in knots_high.
    simpl in knots_high. lia. }
  unfold basisfuns.
  rewrite (py_index_nonneg U zero (k:=0%Z)) by lia. cbn [bind].
  destruct (isclose u _).
  { eexists. split; [reflexivity|]. cbn [length]. rewrite repeat_length. lia. }
  rewrite (py_index_last zero HU). cbn [bind].
  destruct (isclose u _).
  { eexists. split; [reflexivity|]. rewrite length_app, repeat_length.
    reflexivity. }
  destruct (@basis_outer_returns p 1%nat (repeat zero (p + 1))
              (repeat zero (p + 1)) (upd (repeat zero (p + 1)) 0 one))
    as [N HN]; try lia.
  exists N. split; [exact HN|].
  apply basis_outer_length in HN. rewrite HN, length_upd.
  apply repeat_length.
Qed.

End Returns.

Section Extension.

Variable B : Num Q.

Hypothesis guard_sound :
  forall d : Q, @isclose Q B d (@zero Q B) = false -> ~ (d == 0)%Q.

Lemma nth_map_Fin (l : list Q) (k : nat) :
  nth k (map Fin l) (@zero ext (Num_ext B)) = Fin (nth k l (@zero Q B)).
Proof. apply (map_nth Fin). Qed.

Lemma upd_map_Fin (l : list Q) :
  forall (k : nat) (v : Q), upd (map Fin l) k (Fin v) = map Fin (upd l k v).
Proof.
  induction l as [|h t IH]; intros [|k] v; cbn [map upd]; try reflexivity.
  f_equal. apply IH.
Qed.

Lemma py_index_map_Fin (l : list Q) (k : Z) :
  py_index (map Fin l) k = option_map Fin (py_index l k).
Proof.
  unfold py_index, len. rewrite length_map.
  destruct ((0 <=? k) && (k <? Z.of_nat (length l)))%Z;
    [apply nth_error_map|].
  destruct ((- Z.of_nat (length l) <=? k) && (k <? 0))%Z;
    [apply nth_error_map | reflexivity].
Qed.

(** On finite numbers the inner loop never divides by zero: run on [ext],
    it yields the finite values of the run on the finite numbers. *)
Lemma basis_inner_ext (left right : list Q) (j k : nat) :
  forall (r : nat) (N : list Q) (saved : Q),
    @basis_inner ext (Num_ext B) (map Fin left) (map Fin right) j k r
                 (map Fin N) (Fin saved)
    = (map Fin (fst (@basis_inner Q B left right j k r N saved)),
       Fin (snd (@basis_inner Q B left right j k r N saved))).
Proof.
  induction k as [|k IH]; intros r N saved; cbn [basis_inner].
  - reflexivity.
  - rewrite !nth_map_Fin.
    change (@add ext (Num_ext B) (Fin ?a) (Fin ?b))
      with (Fin (@add Q B a b)).
    change (@isclose ext (Num_ext B) (Fin ?a) (@zero ext (Num_ext B)))
      with (@isclose Q B a (@zero Q B)).
    destruct (@isclose Q B _ (@zero Q B)) eqn:Hc.
    + cbn [fst snd]. f_equal. apply upd_map_Fin.
    + apply guard_sound in Hc.
      change (@div ext (Num_ext B) (Fin ?a) (Fin ?b))
        with (if Qeq_bool b 0 then NaN else Fin (@div Q B a b)).
      destruct (Qeq_bool _ 0) eqn:Ez;
        [apply Qeq_bool_eq in Ez; contradiction|].
      change (@mul ext (Num_ext B) (Fin ?a) (Fin ?b))
        with (Fin (@mul Q B a b)).
      change (@add ext (Num_ext B) (Fin ?a) (Fin ?b))
        with (Fin (@add Q B a b)).
      rewrite upd_map_Fin. apply IH.
Qed.

Lemma basis_outer_ext (U : list Q) (i : Z) (u : Q) (k : nat) :
  forall (j : nat) (left right N : list Q),
    @basis_outer ext (Num_ext B) (map Fin U) i (Fin u) k j
                 (map Fin left) (map Fin right) (map Fin N)
    = option_map (map Fin) (@basis_outer Q B U i u k j left right N).
Proof.
  induction k as [|k IH]; intros j left right N; cbn [basis_outer].
  - reflexivity.
  - rewrite !py_index_map_Fin.
    destruct (py_index U (i + 1 - Z.of_nat j)) as [a|]; [|reflexivity].
    cbn [option_map bind].
    destruct (py_index U (i + Z.of_nat j)) as [b|]; [|reflexivity].
    cbn [option_map bind].
    change (@sub ext (Num_ext B) (Fin ?x) (Fin ?y))
      with (Fin (@sub Q B x y)).
    rewrite !upd_map_Fin.
    change (@zero ext (Num_ext B)) with (Fin (@zero Q B)).
    rewrite basis_inner_ext.
    destruct (@basis_inner Q B _ _ j j 0 N (@zero Q B)) as [N1 saved].
    cbn [fst snd]. rewrite upd_map_Fin. apply IH.
Qed.

Lemma basisfuns_ext (U : list Q) (i : Z) (u : Q) (p : nat) :
  @basisfuns ext (Num_ext B) i (Fin u) p (map Fin U)
  = option_map (map Fin) (@basisfuns Q B i u p U).
Proof.
  unfold basisfuns. rewrite !py_index_map_Fin.
  destruct (py_index U 0) as [U0|]; [|reflexivity]. cbn [option_map bind].
  change (@isclose ext (Num_ext B) (Fin ?a) (Fin ?b))
    with (@isclose Q B a b).
  destruct (@isclose Q B u U0).
  { cbn [option_map map]. rewrite map_repeat. reflexivity. }
  destruct (py_index U (-1)) as [Ul|]; [|reflexivity]. cbn [option_map bind].
  change (@isclose ext (Num_ext B) (Fin u) (Fin Ul))
    with (@isclose Q B u Ul).
  destruct (@isclose Q B u Ul).
  { cbn [option_map]. rewrite map_app, map_repeat. reflexivity. }
  change (@zero ext (Num_ext B)) with (Fin (@zero Q B)).
  change (@one ext (Num_ext B)) with (Fin (@one Q B)).
  rewrite <- !map_repeat, upd_map_Fin. apply basis_outer_ext.
Qed.

End Extension.

Lemma Qmult_le_mono_l (z x y : Q) :
  (0 <= z -> x <= y -> z * x <= z * y)%Q.
Proof.
  intros Hz Hxy. rewrite (Qmult_comm z x), (Qmult_comm z y).
  apply Qmult_le_compat_r; assumption.
Qed.

Section Rounding.

Open Scope Q_scope.

Variable rnd : Q -> Q.
Variable eps : Q.

Hypothesis eps_nonneg : 0 <= eps.
Hypothesis eps_small : eps <= 1 # 16.
Hypothesis rnd_error : forall x : Q, Qabs (rnd x - x) <= eps * Qabs x.

Lemma rnd_bounds (x : Q) :
  0 <= x -> (1 - eps) * x <= rnd x /\ rnd x <= (1 + eps) * x.
Proof.
  intros Hx. pose proof (rnd_error x) as He.
  rewrite (Qabs_pos x Hx) in He.
  apply Qabs_Qle_condition in He. destruct He as [Hl Hu].
  split; lra.
Qed.

Lemma rnd_nonneg (x : Q) : 0 <= x -> 0 <= rnd x.
Proof.
  intros Hx. destruct (rnd_bounds Hx) as [Hl _].
  assert (0 <= (1 - eps) * x) by (apply Qmult_le_0_compat; lra).
  lra.
Qed.

Lemma rnd_zero (x : Q) : x == 0 -> rnd x == 0.
Proof.
  intros Hx. pose proof (rnd_error x) as He.
  assert (Ha : Qabs x == 0) by (rewrite Hx; reflexivity).
  rewrite Ha in He.
  apply Qabs_Qle_condition in He. destruct He as [Hl Hu]. lra.
Qed.

(** the guard [np.isclose(d, 0)] in rounded arithmetic *)
Lemma guard_rounded (d : Q) :
  @isclose Q (Num_rounded rnd) d (@zero Q (Num_rounded rnd)) = false ->
  ~ d == 0.
Proof.
  cbn [isclose zero Num_rounded]. intros Hc Hd.
  assert (Hl : Qabs (rnd (d - 0)) == 0).
  { rewrite (rnd_zero (x:=d - 0)) by (rewrite Hd; reflexivity).
    reflexivity. }
  assert (Hr : 0 <= rnd (rnd QNum.atol + rnd (rnd QNum.rtol * Qabs 0))).
  { apply rnd_nonneg.
    assert (0 <= rnd QNum.atol) by (apply rnd_nonneg; discriminate).
    assert (0 <= rnd (rnd QNum.rtol * Qabs 0)).
    { apply rnd_nonneg. apply Qmult_le_0_compat;
        [apply rnd_nonneg; discriminate | discriminate]. }
    lra. }
  assert (Hle : Qabs (rnd (d - 0))
                <= rnd (rnd QNum.atol + rnd (rnd QNum.rtol * Qabs 0)))
    by (rewrite Hl; exact Hr).
  apply Qle_bool_iff in Hle. congruence.
Qed.

Lemma guard_rounded_above (d : Q) :
  (1 + eps) * ((1 + eps) * QNum.atol) < (1 - eps) * d ->
  @isclose Q (Num_rounded rnd) d (@zero Q (Num_rounded rnd)) = false.
Proof.
  intros Hd. cbn [isclose zero Num_rounded].
  destruct (Qle_bool (Qabs (rnd (d - 0)))
              (rnd (rnd QNum.atol + rnd (rnd QNum.rtol * Qabs 0)))) eqn:E;
    [|reflexivity].
  apply Qle_bool_iff in E. exfalso.
  assert (Hatol : 0 <= QNum.atol) by discriminate.
  assert (Hd0 : 0 <= d - 0).
  { assert (0 <= (1 + eps) * ((1 + eps) * QNum.atol)).
    { apply Qmult_le_0_compat; [lra|]. apply Qmult_le_0_compat; lra. }
    assert (0 < (1 - eps) * d) by lra.
    assert (0 <= d); [|lra].
    apply Qnot_lt_le. intros Hneg.
    assert ((1 - eps) * d <= 0) by nra. lra. }
  destruct (rnd_bounds Hd0) as [Hl _].
  assert (Habs : rnd (d - 0) <= Qabs (rnd (d - 0))) by apply Qle_Qabs.
  destruct (rnd_bounds Hatol) as [_ Ha].
  assert (Hz : rnd (rnd QNum.rtol * Qabs 0) == 0).
  { apply rnd_zero. change (Qabs 0) with 0. ring. }
  assert (Hs : 0 <= rnd QNum.atol + rnd (rnd QNum.rtol * Qabs 0)).
  { rewrite Hz. pose proof (rnd_nonneg Hatol). lra. }
  destruct (rnd_bounds Hs) as [_ Hr].
  assert (Hez : eps * rnd (rnd QNum.rtol * Qabs 0) == 0)
    by (rewrite Hz; ring).
  assert (Hr2 : (1 + eps) * rnd QNum.atol
                <= (1 + eps) * ((1 + eps) * QNum.atol)).
  { apply Qmult_le_mono_l; [lra | exact Ha]. }
  lra.
Qed.

(** One step of the recurrence: the two parts [a] and [s] into which the
    loop splits [n] add up to [n] again, up to the rounding of the five
    operations. *)
Lemma split_bounds (R L d n q t a s : Q) :
  0 <= R -> 0 <= L -> 0 < R + L ->
  (1 - eps) * (R + L) <= d -> d <= (1 + eps) * (R + L) ->
  0 <= n -> q * d == n ->
  (1 - eps) * q <= t -> t <= (1 + eps) * q ->
  (1 - eps) * (R * t) <= a -> a <= (1 + eps) * (R * t) ->
  (1 - eps) * (L * t) <= s -> s <= (1 + eps) * (L * t) ->
  0 <= t
  /\ (1 + eps) * (a + s) <= (1 + 5 * eps) * n
  /\ (1 - 5 * eps) * n <= (1 - eps) * (a + s).
Proof.
  intros HR HL HD Hdl Hdu Hn Hq Htl Htu Hal Hau Hsl Hsu.
  assert (Hd : 0 < d).
  { assert (0 < (1 - eps) * (R + L)) by (apply Qmult_lt_0_compat; lra). lra. }
  assert (Hq0 : 0 <= q).
  { apply Qnot_lt_le. intros Hneg.
    assert (q * d < 0); [|lra].
    setoid_replace (q * d) with (- ((- q) * d)) by ring.
    assert (0 < (- q) * d) by (apply Qmult_lt_0_compat; lra). lra. }
  assert (Ht0 : 0 <= t).
  { assert (0 <= (1 - eps) * q) by (apply Qmult_le_0_compat; lra). lra. }
  split; [exact Ht0|].
  set (x := (R + L) * q).
  assert (Hx0 : 0 <= x) by (apply Qmult_le_0_compat; lra).
  assert (Hxl : (1 - eps) * x <= n).
  { rewrite <- Hq. unfold x.
    setoid_replace ((1 - eps) * ((R + L) * q)) with (q * ((1 - eps) * (R + L)))
      by ring.
    apply Qmult_le_mono_l; assumption. }
  assert (Hxu : n <= (1 + eps) * x).
  { rewrite <- Hq. unfold x.
    setoid_replace ((1 + eps) * ((R + L) * q)) with (q * ((1 + eps) * (R + L)))
      by ring.
    apply Qmult_le_mono_l; assumption. }
  set (y := (R + L) * t).
  assert (Hy0 : 0 <= y) by (apply Qmult_le_0_compat; lra).
  assert (Hyl : (1 - eps) * x <= y).
  { unfold x, y.
    setoid_replace ((1 - eps) * ((R + L) * q)) with ((R + L) * ((1 - eps) * q))
      by ring.
    apply Qmult_le_mono_l; lra. }
  assert (Hyu : y <= (1 + eps) * x).
  { unfold x, y.
    setoid_replace ((1 + eps) * ((R + L) * q)) with ((R + L) * ((1 + eps) * q))
      by ring.
    apply Qmult_le_mono_l; lra. }
  assert (Hasl : (1 - eps) * y <= a + s).
  { unfold y. setoid_replace ((1 - eps) * ((R + L) * t))
      with ((1 - eps) * (R * t) + (1 - eps) * (L * t)) by ring. lra. }
  assert (Hasu : a + s <= (1 + eps) * y).
  { unfold y. setoid_replace ((1 + eps) * ((R + L) * t))
      with ((1 + eps) * (R * t) + (1 + eps) * (L * t)) by ring. lra. }
  clearbody x y. clear Hal Hau Hsl Hsu Htl Htu Hq Hdl Hdu.
  assert (He2 : 0 <= eps * eps) by (apply Qmult_le_0_compat; lra).
  split.
  - (* (1+e)(a+s) <= (1+e)^2 y <= (1+e)^3 x <= (1+5e)(1-e) x <= (1+5e) n *)
    assert (H1 : (1 + eps) * (a + s) <= (1 + eps) * ((1 + eps) * y))
      by (apply Qmult_le_mono_l; lra).
    assert (H2 : (1 + eps) * ((1 + eps) * y)
                 <= (1 + eps) * ((1 + eps) * ((1 + eps) * x))).
    { apply Qmult_le_mono_l; [lra|]. apply Qmult_le_mono_l; lra. }
    assert (H3 : (1 + 5 * eps) * ((1 - eps) * x) <= (1 + 5 * eps) * n)
      by (apply Qmult_le_mono_l; lra).
    assert (H4 : (1 + eps) * ((1 + eps) * ((1 + eps) * x))
                 <= (1 + 5 * eps) * ((1 - eps) * x)).
    { setoid_replace ((1 + 5 * eps) * ((1 - eps) * x))
        with ((1 + eps) * ((1 + eps) * ((1 + eps) * x))
              + (eps * (1 - 8 * eps - eps * eps)) * x) by ring.
      assert (0 <= eps * (1 - 8 * eps - eps * eps) * x); [|lra].
      apply Qmult_le_0_compat; [|exact Hx0].
      apply Qmult_le_0_compat; [exact eps_nonneg|].
      assert (eps * eps <= (1 # 16) * eps)
        by (rewrite (Qmult_comm (1 # 16)); apply Qmult_le_mono_l; lra).
      lra. }
    lra.
  - assert (H1 : (1 - eps) * ((1 - eps) * y) <= (1 - eps) * (a + s))
      by (apply Qmult_le_mono_l; lra).
    assert (H2 : (1 - eps) * ((1 - eps) * ((1 - eps) * x))
                 <= (1 - eps) * ((1 - eps) * y)).
    { apply Qmult_le_mono_l; [lra|]. apply Qmult_le_mono_l; lra. }
    assert (H3 : (1 - 5 * eps) * n <= (1 - 5 * eps) * ((1 + eps) * x))
      by (apply Qmult_le_mono_l; lra).
    assert (H4 : (1 - 5 * eps) * ((1 + eps) * x)
                 <= (1 - eps) * ((1 - eps) * ((1 - eps) * x))).
    { setoid_replace ((1 - eps) * ((1 - eps) * ((1 - eps) * x)))
        with ((1 - 5 * eps) * ((1 + eps) * x)
              + (eps * (1 + 8 * eps - eps * eps)) * x) by ring.
      assert (0 <= eps * (1 + 8 * eps - eps * eps) * x); [|lra].
      apply Qmult_le_0_compat; [|exact Hx0].
      apply Qmult_le_0_compat; [exact eps_nonneg|].
      assert (eps * eps <= (1 # 16) * eps)
        by (rewrite (Qmult_comm (1 # 16)); apply Qmult_le_mono_l; lra).
      lra. }
    lra.
Qed.

Section Pass.

Variables left right : list Q.
Variable j : nat.

Hypothesis right_nonneg : forall t, (t < j)%nat -> 0 <= nth (t + 1) right 0.
Hypothesis left_nonneg : forall t, (t < j)%nat -> 0 <= nth (j - t) left 0.
Hypothesis denominators_pos :
  forall t, (t < j)%nat -> 0 < nth (t + 1) right 0 + nth (j - t) left 0.
Hypothesis guard_off :
  forall t, (t < j)%nat ->
    @isclose Q (Num_rounded rnd)
             (rnd (nth (t + 1) right 0 + nth (j - t) left 0)) 0 = false.

(** One pass of the inner loop in rounded arithmetic keeps
    [N[0] + ... + N[j-1] + saved] up to the factors [1 - 5 eps] and
    [1 + 5 eps], and keeps every value non-negative. *)
Lemma basis_inner_rounded (k : nat) :
  forall (r : nat) (N : list Q) (saved : Q),
    (r + k = j)%nat -> (j <= length N)%nat ->
    (forall t, 0 <= nth t N 0) -> 0 <= saved ->
    (forall t, 0 <= nth t (fst (@basis_inner Q (Num_rounded rnd)
                                   left right j k r N saved)) 0)
    /\ 0 <= snd (@basis_inner Q (Num_rounded rnd) left right j k r N saved)
    /\ sum_upto j (fst (@basis_inner Q (Num_rounded rnd)
                          left right j k r N saved))
       + snd (@basis_inner Q (Num_rounded rnd) left right j k r N saved)
       <= sum_upto r N + (1 + eps) * saved
          + (1 + 5 * eps) * (sum_upto j N - sum_upto r N)
    /\ sum_upto r N + (1 - eps) * saved
       + (1 - 5 * eps) * (sum_upto j N - sum_upto r N)
       <= sum_upto j (fst (@basis_inner Q (Num_rounded rnd)
                             left right j k r N saved))
          + snd (@basis_inner Q (Num_rounded rnd) left right j k r N saved).
Proof.
  induction k as [|k IH]; intros r N saved Hr Hlen HN Hs.
  - cbn [basis_inner fst snd]. replace r with j by lia.
    assert (0 <= eps * saved) by (apply Qmult_le_0_compat; assumption).
    split; [exact HN|]. split; [exact Hs|]. split; lra.
  - cbn [basis_inner]. cbn [add mul div zero Num_rounded].
    rewrite (guard_off (t:=r)) by lia.
    pose proof (right_nonneg (t:=r) ltac:(lia)) as HR.
    pose proof (left_nonneg (t:=r) ltac:(lia)) as HL.
    pose proof (denominators_pos (t:=r) ltac:(lia)) as HD.
    set (Rr := nth (r + 1) right 0) in *.
    set (Lr := nth (j - r) left 0) in *.
    set (n := nth r N 0).
    assert (Hn : 0 <= n) by apply HN.
    set (d := rnd (Rr + Lr)).
    destruct (rnd_bounds (x:=Rr + Lr) ltac:(lra)) as [Hdl Hdu]. fold d in Hdl, Hdu.
    assert (Hd : 0 < d).
    { assert (0 < (1 - eps) * (Rr + Lr)) by (apply Qmult_lt_0_compat; lra).
      lra. }
    assert (Hq : n / d * d == n) by (field; lra).
    assert (Hq0 : 0 <= n / d) by (apply Qle_shift_div_l; lra).
    set (t := rnd (n / d)).
    destruct (rnd_bounds Hq0) as [Htl Htu]. fold t in Htl, Htu.
    assert (Ht0 : 0 <= t).
    { assert (0 <= (1 - eps) * (n / d)) by (apply Qmult_le_0_compat; lra).
      lra. }
    assert (HRt : 0 <= Rr * t) by (apply Qmult_le_0_compat; assumption).
    assert (HLt : 0 <= Lr * t) by (apply Qmult_le_0_compat; assumption).
    set (a := rnd (Rr * t)).
    destruct (rnd_bounds HRt) as [Hal Hau]. fold a in Hal, Hau.
    set (s1 := rnd (Lr * t)).
    destruct (rnd_bounds HLt) as [Hsl Hsu]. fold s1 in Hsl, Hsu.
    assert (Ha0 : 0 <= a) by (apply rnd_nonneg; exact HRt).
    assert (Hs10 : 0 <= s1) by (apply rnd_nonneg; exact HLt).
    set (newN := rnd (saved + a)).
    destruct (rnd_bounds (x:=saved + a) ltac:(lra)) as [Hnl Hnu].
    fold newN in Hnl, Hnu.
    assert (HnewN : 0 <= newN) by (apply rnd_nonneg; lra).
    destruct (@split_bounds Rr Lr d n (n / d) t a s1)
      as [_ [Hup Hlow]]; try assumption.
    destruct (IH (S r) (upd N r newN) s1) as [IHN [IHs [IHu IHl]]].
    + lia.
    + rewrite length_upd. exact Hlen.
    + intros t0. destruct (Nat.eq_dec r t0) as [<-|Hne].
      * rewrite nth_upd_same by lia. exact HnewN.
      * rewrite nth_upd_other by assumption. apply HN.
    + exact Hs10.
    + split; [exact IHN|]. split; [exact IHs|].
      assert (E1 : sum_upto (S r) (upd N r newN) == sum_upto r N + newN).
      { cbn [sum_upto]. rewrite sum_upto_upd_ge by lia.
        rewrite nth_upd_same by lia. reflexivity. }
      assert (E2 : sum_upto j (upd N r newN) == sum_upto j N - n + newN).
      { apply sum_upto_upd_lt; lia. }
      rewrite E1, E2 in IHu, IHl.
      split; lra.
Qed.

End Pass.

Section Outer.

Variable U : list Q.
Variable i : Z.
Variable u : Q.
Variable p : nat.

Hypothesis span_low : (Z.of_nat p <= i)%Z.
Hypothesis knots_high : (i + Z.of_nat p < len U)%Z.
Hypothesis sorted : nondecreasing U.
Hypothesis u_low : knot_at U i <= u.
Hypothesis u_high : u <= knot_at U (i + 1).
Hypothesis wide :
  (1 + eps) * ((1 + eps) * QNum.atol)
  < (1 - eps) * ((1 - eps) * ((1 - eps) * span_width U i)).
Hypothesis degree_small : 10 * inject_Z (Z.of_nat p) * eps <= 1.

(** the entries [1 .. j-1] of [left] and [right] hold the rounded knot
    differences *)
Let filled (j : nat) (left right : list Q) : Prop :=
  forall t, (1 <= t < j)%nat ->
    nth t left 0 = rnd (u - knot_at U (i + 1 - Z.of_nat t))
    /\ nth t right 0 = rnd (knot_at U (i + Z.of_nat t) - u).

Lemma knot_mono (s t : Z) :
  (0 <= s <= t)%Z -> (t < len U)%Z -> knot_at U s <= knot_at U t.
Proof.
  intros Hst Ht. unfold knot_at. apply sorted; unfold len in Ht; lia.
Qed.

Lemma width_pos : 0 < span_width U i.
Proof.
  assert (Ha : 0 <= (1 + eps) * ((1 + eps) * QNum.atol)).
  { apply Qmult_le_0_compat; [lra|].
    apply Qmult_le_0_compat; [lra | discriminate]. }
  apply Qnot_le_lt. intros Hneg.
  assert ((1 - eps) * ((1 - eps) * ((1 - eps) * span_width U i)) <= 0);
    [|lra].
  setoid_replace ((1 - eps) * ((1 - eps) * ((1 - eps) * span_width U i)))
    with (- ((1 - eps) * ((1 - eps) * ((1 - eps) * (- span_width U i)))))
    by ring.
  assert (0 <= (1 - eps) * ((1 - eps) * ((1 - eps) * (- span_width U i)))).
  { apply Qmult_le_0_compat; [lra|]. apply Qmult_le_0_compat; [lra|].
    apply Qmult_le_0_compat; lra. }
  lra.
Qed.

(** what the rounded differences of a pass are bounded by *)
Lemma filled_pass (j : nat) (left right : list Q) :
  filled (S j) left right -> (j <= p)%nat ->
  forall t, (t < j)%nat ->
    (1 - eps) * (knot_at U (i + 1) - u) <= nth (t + 1) right 0
    /\ (1 - eps) * (u - knot_at U i) <= nth (j - t) left 0.
Proof.
  intros Hf Hj t Ht.
  destruct (Hf (t + 1)%nat ltac:(lia)) as [_ ->].
  destruct (Hf (j - t)%nat ltac:(lia)) as [-> _].
  pose proof (@knot_mono (i + 1) (i + Z.of_nat (t + 1)) ltac:(lia) ltac:(lia))
    as Hr.
  pose proof (@knot_mono (i + 1 - Z.of_nat (j - t)) i ltac:(lia) ltac:(lia))
    as Hl.
  destruct (rnd_bounds (x:=knot_at U (i + Z.of_nat (t + 1)) - u) ltac:(lra))
    as [Hrb _].
  destruct (rnd_bounds (x:=u - knot_at U (i + 1 - Z.of_nat (j - t)))
              ltac:(lra)) as [Hlb _].
  split.
  - eapply Qle_trans; [|exact Hrb]. apply Qmult_le_mono_l; lra.
  - eapply Qle_trans; [|exact Hlb]. apply Qmult_le_mono_l; lra.
Qed.

Lemma basis_outer_rounded (k : nat) :
  forall (j : nat) (left right N : list Q),
    (j + k = p + 1)%nat -> (1 <= j)%nat ->
    filled j left right ->
    length left = (p + 1)%nat -> length right = (p + 1)%nat ->
    length N = (p + 1)%nat ->
    (forall t, 0 <= nth t N 0) ->
    1 - 5 * inject_Z (Z.of_nat (j - 1)) * eps <= sum_upto j N ->
    sum_upto j N <= 1 + 10 * inject_Z (Z.of_nat (j - 1)) * eps ->
    exists N',
      @basis_outer Q (Num_rounded rnd) U i u k j left right N = Some N'
      /\ length N' = (p + 1)%nat
      /\ 1 - 5 * inject_Z (Z.of_nat p) * eps <= sum_upto (p + 1) N'
      /\ sum_upto (p + 1) N' <= 1 + 10 * inject_Z (Z.of_nat p) * eps.
Proof.
  induction k as [|k IH]; intros j left right N Hjk Hj Hf Hl Hr HN Hpos Hlo Hhi.
  - exists N. replace (p + 1)%nat with j by lia.
    replace (Z.of_nat p) with (Z.of_nat (j - 1)) by lia.
    split; [reflexivity|]. split; [lia|]. split; assumption.
  - cbn [basis_outer].
    rewrite (py_index_nonneg U 0 (k:=(i + 1 - Z.of_nat j)%Z)) by lia.
    cbn [bind].
    rewrite (py_index_nonneg U 0 (k:=(i + Z.of_nat j)%Z)) by lia.
    cbn [bind]. cbn [sub zero Num_rounded].
    fold (knot_at U (i + 1 - Z.of_nat j)). fold (knot_at U (i + Z.of_nat j)).
    set (left' := upd left j (rnd (u - knot_at U (i + 1 - Z.of_nat j)))).
    set (right' := upd right j (rnd (knot_at U (i + Z.of_nat j) - u))).
    assert (Hf' : filled (S j) left' right').
    { intros t Ht. unfold left', right'.
      destruct (Nat.eq_dec j t) as [->|Hne].
      - rewrite !nth_upd_same by lia. split; reflexivity.
      - rewrite !nth_upd_other by assumption. apply Hf. lia. }
    pose proof width_pos as Hw. unfold span_width in Hw.
    fold (knot_at U (i + 1)) in Hw. fold (knot_at U i) in Hw.
    assert (Hbnd := @filled_pass j left' right' Hf' ltac:(lia)).
    assert (HR : forall t, (t < j)%nat -> 0 <= nth (t + 1) right' 0).
    { intros t Ht. destruct (Hbnd t Ht) as [Hb _].
      assert (0 <= (1 - eps) * (knot_at U (i + 1) - u))
        by (apply Qmult_le_0_compat; lra).
      lra. }
    assert (HL : forall t, (t < j)%nat -> 0 <= nth (j - t) left' 0).
    { intros t Ht. destruct (Hbnd t Ht) as [_ Hb].
      assert (0 <= (1 - eps) * (u - knot_at U i))
        by (apply Qmult_le_0_compat; lra).
      lra. }
    assert (Hsum : forall t, (t < j)%nat ->
              (1 - eps) * span_width U i
              <= nth (t + 1) right' 0 + nth (j - t) left' 0).
    { intros t Ht. destruct (Hbnd t Ht) as [Hb1 Hb2].
      unfold span_width. fold (knot_at U (i + 1)). fold (knot_at U i).
      lra. }
    assert (HD : forall t, (t < j)%nat ->
              0 < nth (t + 1) right' 0 + nth (j - t) left' 0).
    { intros t Ht. pose proof (Hsum t Ht) as Hs.
      assert (0 < (1 - eps) * span_width U i)
        by (apply Qmult_lt_0_compat; [lra | exact width_pos]).
      lra. }
    assert (HG : forall t, (t < j)%nat ->
              @isclose Q (Num_rounded rnd)
                (rnd (nth (t + 1) right' 0 + nth (j - t) left' 0)) 0 = false).
    { intros t Ht. apply guard_rounded_above.
      pose proof (Hsum t Ht) as Hs. pose proof (HD t Ht) as Hd.
      destruct (rnd_bounds (x:=nth (t + 1) right' 0 + nth (j - t) left' 0)
                  ltac:(lra)) as [Hb _].
      eapply Qlt_le_trans; [exact wide|].
      apply Qmult_le_mono_l; [lra|].
      eapply Qle_trans; [|exact Hb].
      apply Qmult_le_mono_l; [lra | exact Hs]. }
    destruct (@basis_inner_rounded left' right' j HR HL HD HG j 0%nat N 0
                ltac:(lia) ltac:(lia) Hpos ltac:(lra))
      as [HN1 [Hs1 [Hu1 Hl1]]].
    destruct (@basis_inner Q (Num_rounded rnd) left' right' j j 0 N 0)
      as [N1 saved] eqn:EN.
    cbn [fst snd] in HN1, Hs1, Hu1, Hl1.
    cbn [sum_upto] in Hu1, Hl1.
    pose proof (basis_inner_length (R:=Q) (H:=Num_rounded rnd)
                  left' right' j j 0 N 0) as Hlen1.
    rewrite EN in Hlen1. cbn [fst] in Hlen1.
    apply IH; try lia.
    + intros t Ht. apply Hf'. lia.
    + unfold left'. rewrite length_upd. exact Hl.
    + unfold right'. rewrite length_upd. exact Hr.
    + rewrite length_upd. lia.
    + intros t. destruct (Nat.eq_dec j t) as [<-|Hne].
      * rewrite nth_upd_same by lia. exact Hs1.
      * rewrite nth_upd_other by assumption. apply HN1.
    + cbn [sum_upto]. rewrite sum_upto_upd_ge by lia.
      rewrite nth_upd_same by lia.
      replace (S j - 1)%nat with (S (j - 1)) by lia.
      rewrite Nat2Z.inj_succ. unfold Z.succ. rewrite inject_Z_plus.
      change (inject_Z 1) with 1.
      set (J := inject_Z (Z.of_nat (j - 1))) in *.
      assert (HJ : 0 <= J) by (unfold J; rewrite <- (Zle_Qle 0); lia).
      set (S0 := sum_upto j N) in *.
      assert (H1 : (1 - 5 * eps) * (1 - 5 * J * eps) <= (1 - 5 * eps) * S0)
        by (apply Qmult_le_mono_l; lra).
      assert (H2 : 0 <= eps * eps * J).
      { apply Qmult_le_0_compat; [|exact HJ].
        apply Qmult_le_0_compat; lra. }
      lra.
    + cbn [sum_upto]. rewrite sum_upto_upd_ge by lia.
      rewrite nth_upd_same by lia.
      replace (S j - 1)%nat with (S (j - 1)) by lia.
      rewrite Nat2Z.inj_succ. unfold Z.succ. rewrite inject_Z_plus.
      change (inject_Z 1) with 1.
      assert (HJp : inject_Z (Z.of_nat (j - 1)) <= inject_Z (Z.of_nat p))
        by (rewrite <- Zle_Qle; lia).
      set (J := inject_Z (Z.of_nat (j - 1))) in *.
      assert (HJ : 0 <= J) by (unfold J; rewrite <- (Zle_Qle 0); lia).
      set (S0 := sum_upto j N) in *.
      assert (H1 : (1 + 5 * eps) * S0 <= (1 + 5 * eps) * (1 + 10 * J * eps))
        by (apply Qmult_le_mono_l; lra).
      assert (H2 : eps * (10 * J * eps) <= eps * 1).
      { apply Qmult_le_mono_l; [lra|].
        eapply Qle_trans; [|exact degree_small].
        setoid_replace (10 * J * eps) with (eps * (10 * J)) by ring.
        setoid_replace (10 * inject_Z (Z.of_nat p) * eps)
          with (eps * (10 * inject_Z (Z.of_nat p))) by ring.
        apply Qmult_le_mono_l; lra. }
      lra.
Qed.

(** In rounded arithmetic the values of [basisfuns] on a span that holds
    [u] add up to 1 up to [10 p eps]. *)
Lemma basisfuns_rounded :
  exists N,
    @basisfuns Q (Num_rounded rnd) i u p U = Some N
    /\ 1 - 5 * inject_Z (Z.of_nat p) * eps <= sum_upto (p + 1) N
    /\ sum_upto (p + 1) N <= 1 + 10 * inject_Z (Z.of_nat p) * eps.
Proof.
  assert (Hp : 0 <= inject_Z (Z.of_nat p) * eps).
  { apply Qmult_le_0_compat; [rewrite <- (Zle_Qle 0); lia | exact eps_nonneg]. }
  assert (HU : U <> []).
  { intros E. rewrite E in knots_high. unfold len in knots_high.
    simpl in knots_high. lia. }
  unfold basisfuns. cbn [zero one Num_rounded].
  rewrite (py_index_nonneg U 0 (k:=0%Z)) by lia. cbn [bind].
  destruct (@isclose Q (Num_rounded rnd) u _).
  { eexists. split; [reflexivity|].
    replace (p + 1)%nat with (S p) by lia.
    rewrite sum_upto_cons, sum_upto_zeros. split; lra. }
  rewrite (py_index_last 0 HU). cbn [bind].
  destruct (@isclose Q (Num_rounded rnd) u _).
  { eexists. split; [reflexivity|].
    replace (p + 1)%nat with (S p) by lia. cbn [sum_upto].
    rewrite sum_upto_app by (rewrite repeat_length; lia).
    rewrite sum_upto_zeros.
    rewrite app_nth2 by (rewrite repeat_length; lia).
    rewrite repeat_length, Nat.sub_diag. cbn [nth]. split; lra. }
  destruct (@basis_outer_rounded p 1%nat (repeat 0 (p + 1)) (repeat 0 (p + 1))
              (upd (repeat 0 (p + 1)) 0 1))
    as [N [HN [_ [Hlo Hhi]]]]; try lia.
  - intros t Ht. lia.
  - apply repeat_length.
  - apply repeat_length.
  - rewrite length_upd. apply repeat_length.
  - intros t. destruct t as [|t].
    + rewrite nth_upd_same by (rewrite repeat_length; lia). discriminate.
    + rewrite nth_upd_other by lia. rewrite nth_repeat. apply Qle_refl.
  - cbn [sum_upto]. rewrite nth_upd_same by (rewrite repeat_length; lia).
    cbn [Nat.sub Z.of_nat]. change (inject_Z 0) with 0. lra.
  - cbn [sum_upto]. rewrite nth_upd_same by (rewrite repeat_length; lia).
    cbn [Nat.sub Z.of_nat]. change (inject_Z 0) with 0. lra.
  - exists N. split; [exact HN|]. split; assumption.
Qed.

End Outer.

(** C2 (as amended).  In arithmetic rounded with a relative error of at
    most [eps] (binary64 away from overflow and underflow, with
    [eps = 2^-53]) and with the values that are not finite, for finite
    knots and a finite [u], on every span [i] with [p <= i] and
    [i + p < len(U)]: [basisfuns] returns [p+1] finite values, so no NaN,
    also when the guard of the recurrence fires, which sets [N[r]] to zero
    and leaves the inner loop.  For a non-decreasing knot vector, a [u]
    with [U[i] <= u <= U[i+1]], a span wider than the tolerance [1e-8] by
    the rounding of the denominators, and [10 p eps <= 1e-9], the values
    sum to 1 within [1e-9]. *)
Theorem basisfuns_partition_of_unity (U : list Q) (i : Z) (u : Q) (p : nat) :
  (Z.of_nat p <= i)%Z -> (i + Z.of_nat p < len U)%Z ->
  (exists N : list Q,
     @basisfuns ext (Num_ext (Num_rounded rnd)) i (Fin u) p (map Fin U)
     = Some (map Fin N)
     /\ length N = (p + 1)%nat
     /\ (nondecreasing U ->
         knot_at U i <= u -> u <= knot_at U (i + 1) ->
         (1 + eps) * ((1 + eps) * QNum.atol)
         < (1 - eps) * ((1 - eps) * ((1 - eps) * span_width U i)) ->
         10 * inject_Z (Z.of_nat p) * eps <= 1 # 1000000000 ->
         Qabs (sum_upto (p + 1) N - 1) <= 1 # 1000000000))
  /\ (forall (left right : list ext) (j k r : nat) (N : list ext)
             (saved : ext),
        @isclose ext (Num_ext (Num_rounded rnd))
                 (@add ext (Num_ext (Num_rounded rnd))
                       (nth (r + 1) right (Fin 0)) (nth (j - r) left (Fin 0)))
                 (Fin 0) = true ->
        @basis_inner ext (Num_ext (Num_rounded rnd)) left right j (S k) r
                     N saved
        = (upd N r (Fin 0), saved)).
Proof.
  intros Hlow Hhigh. split.
  - destruct (@basisfuns_returns Q (Num_rounded rnd) U i u p Hlow Hhigh)
      as [N [HN Hlen]].
    exists N.
    rewrite (@basisfuns_ext (Num_rounded rnd) guard_rounded U i u p), HN.
    split; [reflexivity|]. split; [exact Hlen|].
    intros Hsorted Hul Huh Hwide Hdeg.
    assert (Hp : 0 <= inject_Z (Z.of_nat p) * eps).
    { apply Qmult_le_0_compat;
        [rewrite <- (Zle_Qle 0); lia | exact eps_nonneg]. }
    destruct (@basisfuns_rounded U i u p Hlow Hhigh Hsorted Hul Huh Hwide
                ltac:(lra)) as [N' [HN' [Hlo Hhi]]].
    rewrite HN in HN'. injection HN' as <-.
    apply Qabs_Qle_condition. split; lra.
  - intros left right j k r N saved Hc. cbn [basis_inner].
    change (@zero ext (Num_ext (Num_rounded rnd))) with (Fin 0).
    rewrite Hc. reflexivity.
Qed.

End Rounding.

Lemma round_up_error (x : Q) :
  (Qabs (round_up x - x) <= (1 # 9007199254740992) * Qabs x)%Q.
Proof.
  unfold round_up.
  setoid_replace (x * (1 + (1 # 9007199254740992)) - x)%Q
    with ((1 # 9007199254740992) * x)%Q by ring.
  rewrite Qabs_Qmult. apply Qle_refl.
Qed.

(** A wide span, where the values sum to 1 within [1e-9], and the span of
    width [1e-9] on which the guard fires, where the values are finite. *)
Lemma basisfuns_partition_of_unity_witness :
  (exists N : list Q,
     @basisfuns ext (Num_ext (Num_rounded round_up)) 2 (Fin (3 # 4)) 1
                (map Fin [0; 0; 1 # 2; 1; 1]%Q)
     = Some (map Fin N)
     /\ length N = 2%nat
     /\ (Qabs (sum_upto 2 N - 1) <= 1 # 1000000000)%Q)
  /\ (exists N : list Q,
        @basisfuns ext (Num_ext (Num_rounded round_up)) 2
                   (Fin (1000000001 # 2000000000)) 1
                   (map Fin [0; 0; 1 # 2; 500000001 # 1000000000; 1; 1]%Q)
        = Some (map Fin N)
        /\ length N = 2%nat).
Proof.
  split.
  - destruct (@basisfuns_partition_of_unity round_up (1 # 9007199254740992)
                ltac:(discriminate) ltac:(discriminate) round_up_error
                [0; 0; 1 # 2; 1; 1]%Q 2 (3 # 4)%Q 1
                ltac:(discriminate) ltac:(reflexivity))
      as [[N [Hrun [Hlen Hsum]]] _].
    exists N. split; [exact Hrun|]. split; [exact Hlen|].
    apply Hsum.
    + apply sortedb_nondecreasing. reflexivity.
    + discriminate.
    + discriminate.
    + reflexivity.
    + discriminate.
  - destruct (@basisfuns_partition_of_unity round_up (1 # 9007199254740992)
                ltac:(discriminate) ltac:(discriminate) round_up_error
                [0; 0; 1 # 2; 500000001 # 1000000000; 1; 1]%Q 2
                (1000000001 # 2000000000)%Q 1
                ltac:(discriminate) ltac:(reflexivity))
      as [[N [Hrun [Hlen _]]] _].
    exists N. split; [exact Hrun | exact Hlen].
Defined.
